(** * cc-rev-db: the DWARF index, the stack walker and the orchestrator registry

    A shallow embedding of [src/debugger/dwarfData.go], [src/debugger/stack.go],
    the debugger's entry file ([processContext], [main]) and
    [src/orchestrator/nodeReporter.go], followed by
    the properties of the specification checked against it.

    Conventions of the embedding:
    - Go's [uint64], [int] and [int64] are [Z]; arithmetic that can leave the
      type's range is wrapped explicitly ([wrap_u64], [wrap_i64]).
    - A Go map is a [gmap]; reading a missing key yields the zero value.
    - A [*dwarfModule] is the position of the module in [dwarfData.modules]
      and a [*dwarfFunc] is the pair (module position, position in that
      module's [functions]); [nil] is [None].  Every function object is
      allocated by [parseFunction] and appended to exactly one module, so
      positions and pointers correspond one to one.
    - A run-time panic (nil dereference, slice bounds, failed type assertion,
      explicit [panic(err)]) is the [Panic] outcome of [result]. *)

From Stdlib Require Import ZArith Lia Ascii String.
From stdpp Require Import base option list gmap strings.

Local Open Scope Z_scope.

(** ** Go run-time conventions *)

Inductive panic :=
  | NilDereference
  | IndexOutOfRange
  | SliceOutOfRange
  | TypeAssertion
  | ExplicitPanic.

Inductive result (A : Type) :=
  | Ok (a : A)
  | Panic (p : panic).
Arguments Ok {A} a.
Arguments Panic {A} p.

Global Instance result_ret : MRet result := λ A a, Ok a.
Global Instance result_bind : MBind result := λ A B k r,
  match r with
  | Ok a => k a
  | Panic p => Panic p
  end.

(** The errors built with [fmt.Errorf] by the two line-table lookups. *)
Inductive lookupError :=
  | NoAddressForLine (line : Z) (file : string)
  | NoLineForAddress (pc : Z).

Inductive errorOr (A : Type) :=
  | Value (a : A)
  | Error (e : lookupError).
Arguments Value {A} a.
Arguments Error {A} e.

Definition wrap_u64 (z : Z) : Z := z mod 2 ^ 64.
Definition wrap_i64 (z : Z) : Z := (z + 2 ^ 63) mod 2 ^ 64 - 2 ^ 63.

(** [for ... range l { if ... { return ... } }]: the value returned by the
    first iteration that returns, [None] when the loop runs to its end. *)
Fixpoint for_range_from {A B} (i : nat) (l : list A) (body : nat → A → option B)
  : option B :=
  match l with
  | [] => None
  | x :: rest =>
      match body i x with
      | Some b => Some b
      | None => for_range_from (S i) rest body
      end
  end.

Definition for_range {A B} (l : list A) (body : nat → A → option B) : option B :=
  for_range_from 0%nat l body.

(** ** Data model ([dwarfData.go], lines 17-129) *)

Record dwarfEntry := {
  e_address : Z;
  e_file : Z;
  e_line : Z;
  e_col : Z;
  e_prologueEnd : bool;
  e_epilogueBegin : bool;
  e_isStmt : bool
}.

Record dwarfBaseType := {
  bt_name : string;
  bt_byteSize : Z;
  bt_encoding : Z
}.

Record dwarfParameter := {
  p_name : string;
  p_baseType : dwarfBaseType;
  p_locationInstructions : list Z
}.

Record dwarfFunc := {
  fn_name : string;
  fn_file : Z;
  fn_line : Z;
  fn_col : Z;
  fn_lowPC : Z;
  fn_highPC : Z;
  fn_parameters : list dwarfParameter
}.

Definition modulePtr := option nat.
Definition funcPtr := option (nat * nat).

Record dwarfVariable := {
  v_name : string;
  v_baseType : dwarfBaseType;
  v_locationInstructions : list Z;
  v_function : funcPtr
}.

Record dwarfModule := {
  m_name : string;
  m_startAddress : Z;
  m_endAddress : Z;
  m_entries : list dwarfEntry;
  m_files : gmap Z string;
  m_functions : list dwarfFunc;
  m_variables : list dwarfVariable
}.

Record dwarfMPIData := {
  mpi_functions : list funcPtr;
  mpi_file : string
}.

Record dwarfData := {
  modules : list dwarfModule;
  types : gmap Z dwarfBaseType;
  mpi : dwarfMPIData
}.

(** [module.files[k]]: a missing key reads as the empty string. *)
Definition files_at (m : dwarfModule) (k : Z) : string :=
  default "" (m_files m !! k).

Definition deref_module (d : dwarfData) (p : modulePtr) : result dwarfModule :=
  match p with
  | None => Panic NilDereference
  | Some mi =>
      match modules d !! mi with
      | Some m => Ok m
      | None => Panic NilDereference
      end
  end.

Definition deref_func (d : dwarfData) (p : funcPtr) : result dwarfFunc :=
  match p with
  | None => Panic NilDereference
  | Some (mi, fi) =>
      match modules d !! mi with
      | Some m =>
          match m_functions m !! fi with
          | Some f => Ok f
          | None => Panic NilDereference
          end
      | None => Panic NilDereference
      end
  end.

(** ** Lookups ([dwarfData.go], lines 144-237) *)

Definition dwarfModule_lookupFunc (m : dwarfModule) (functionName : string)
  : option nat :=
  for_range (m_functions m) (λ fi function,
    if decide (fn_name function = functionName) then Some fi else None).

Definition lookupFunc (d : dwarfData) (functionName : string)
  : modulePtr * funcPtr :=
  match
    for_range (modules d) (λ mi module,
      match dwarfModule_lookupFunc module functionName with
      | Some fi => Some (mi, fi)
      | None => None
      end)
  with
  | Some (mi, fi) => (Some mi, Some (mi, fi))
  | None => (None, None)
  end.

(** [lookupVariable]: a [*dwarfVariable] is the pair (module position,
    position in that module's [variables]). *)
Definition variablePtr := option (nat * nat).

Definition lookupVariable (d : dwarfData) (varName : string) : variablePtr :=
  for_range (modules d) (λ mi module,
    for_range (m_variables module) (λ vi variable,
      if decide (v_name variable = varName) then Some (mi, vi) else None)).

Definition deref_variable (d : dwarfData) (p : variablePtr) : result dwarfVariable :=
  match p with
  | None => Panic NilDereference
  | Some (mi, vi) =>
      match modules d !! mi with
      | Some m =>
          match m_variables m !! vi with
          | Some v => Ok v
          | None => Panic NilDereference
          end
      | None => Panic NilDereference
      end
  end.

Definition getEntriesForFunction (d : dwarfData) (functionName : string)
  : result (list dwarfEntry) :=
  let '(module, function) := lookupFunc d functionName in
  m ← deref_module d module;
  f ← deref_func d function;
  Ok (filter (λ entry, fn_lowPC f ≤ e_address entry ∧ e_address entry < fn_highPC f)
        (m_entries m)).

Definition lineToPC (d : dwarfData) (file : string) (line : Z) : errorOr Z :=
  match
    for_range (modules d) (λ _ module,
      for_range (map_to_list (m_files module)) (λ _ kv,
        if decide (kv.2 = file) then
          for_range (m_entries module) (λ _ entry,
            if decide (e_line entry = line ∧ files_at module (e_file entry) = file)
            then if e_isStmt entry then Some (e_address entry) else None
            else None)
        else None))
  with
  | Some address => Value address
  | None => Error (NoAddressForLine line file)
  end.

Definition PCToFunc (d : dwarfData) (pc : Z) : funcPtr :=
  for_range (modules d) (λ mi module,
    for_range (m_functions module) (λ fi function,
      if decide (fn_lowPC function ≤ pc ∧ pc < fn_highPC function)
      then Some (mi, fi) else None)).

Definition PCToLine (d : dwarfData) (pc : Z) : errorOr (Z * string * funcPtr) :=
  match
    for_range (modules d) (λ _ module,
      if decide (m_startAddress module ≤ pc ∧ pc ≤ m_endAddress module) then
        for_range (m_entries module) (λ _ entry,
          if decide (e_address entry = pc)
          then Some (e_line entry, files_at module (e_file entry), PCToFunc d pc)
          else None)
      else None)
  with
  | Some r => Value r
  | None => Error (NoLineForAddress pc)
  end.

(** [getSourceFileInfo] (the debugger's entry file, lines 100-119). *)
Definition getSourceFileInfo (d : dwarfData) : result string :=
  let entryFunc := "main" in
  let '(module, function) := lookupFunc d entryFunc in
  m ← deref_module d module;
  f ← deref_func d function;
  Ok (files_at m (fn_file f)).

(** ** The raw DWARF stream

    [debug/elf] and [debug/dwarf] are Go's standard library.  What the index
    construction reads from them is taken as input: the entries that
    [reader.Next] yields, each with its tag, offset and attribute fields, the
    result of [dwarfRawData.Ranges] on it, and (for a compile unit) what
    [dwarfRawData.LineReader] yields: the file table [Files()] and the rows
    that [Next] returns before [io.EOF]. *)

Inductive Tag :=
  | TagBaseType
  | TagCompileUnit
  | TagSubprogram
  | TagFormalParameter
  | TagVariable
  | TagOther.

Inductive Attr :=
  | AttrName
  | AttrLanguage
  | AttrProducer
  | AttrDeclFile
  | AttrDeclLine
  | AttrDeclColumn
  | AttrFrameBase
  | AttrByteSize
  | AttrEncoding
  | AttrType
  | AttrLocation
  | AttrOther.

Global Instance Attr_eq_dec : EqDecision Attr.
Proof. solve_decision. Defined.

Global Instance Tag_eq_dec : EqDecision Tag.
Proof. solve_decision. Defined.

(** The dynamic value of a field; [VNil] is the nil interface that
    [entry.Val] returns for an absent attribute. *)
Inductive Val :=
  | VString (s : string)
  | VInt64 (z : Z)
  | VOffset (o : Z)
  | VBytes (b : list Z)
  | VNil.

Record Field := {
  f_Attr : Attr;
  f_Val : Val
}.

Record LineEntry := {
  le_Address : Z;
  le_File : option string;   (* [*LineFile], reduced to its [Name] *)
  le_Line : Z;
  le_Column : Z;
  le_IsStmt : bool;
  le_PrologueEnd : bool;
  le_EpilogueBegin : bool
}.

Record LineReader := {
  lr_Files : list (option string);
  lr_rows : list LineEntry
}.

Record Entry := {
  en_Offset : Z;
  en_Tag : Tag;
  en_Field : list Field;
  en_Ranges : option (list (Z * Z));   (* [None]: [Ranges] returns an error *)
  en_LineReader : option LineReader    (* [None]: no usable line reader *)
}.

(** [entry.Val(a)]: the value of the first field with attribute [a]. *)
Definition entry_Val (entry : Entry) (a : Attr) : Val :=
  match for_range (en_Field entry) (λ _ field,
          if decide (f_Attr field = a) then Some (f_Val field) else None) with
  | Some v => v
  | None => VNil
  end.

(** Type assertions [v.(string)], [v.(int64)], [v.(dwarf.Offset)], [v.([]byte)]. *)
Definition assert_string (v : Val) : result string :=
  match v with VString s => Ok s | _ => Panic TypeAssertion end.
Definition assert_int64 (v : Val) : result Z :=
  match v with VInt64 z => Ok z | _ => Panic TypeAssertion end.
Definition assert_Offset (v : Val) : result Z :=
  match v with VOffset o => Ok o | _ => Panic TypeAssertion end.
Definition assert_bytes (v : Val) : result (list Z) :=
  match v with VBytes b => Ok b | _ => Panic TypeAssertion end.

(** [ranges[0]] after [ranges, err := dwarfRawData.Ranges(entry)]. *)
Definition first_range (entry : Entry) : result (Z * Z) :=
  match en_Ranges entry with
  | None => Panic ExplicitPanic
  | Some [] => Panic IndexOutOfRange
  | Some (r :: _) => Ok r
  end.

(** ** Index construction ([dwarfData.go], lines 239-468) *)

Definition unknownType : dwarfBaseType :=
  {| bt_name := "unknown type"; bt_byteSize := 0; bt_encoding := 0 |}.

Definition set_fn_name (s : string) (f : dwarfFunc) : dwarfFunc :=
  {| fn_name := s; fn_file := fn_file f; fn_line := fn_line f; fn_col := fn_col f;
     fn_lowPC := fn_lowPC f; fn_highPC := fn_highPC f;
     fn_parameters := fn_parameters f |}.
Definition set_fn_file (z : Z) (f : dwarfFunc) : dwarfFunc :=
  {| fn_name := fn_name f; fn_file := z; fn_line := fn_line f; fn_col := fn_col f;
     fn_lowPC := fn_lowPC f; fn_highPC := fn_highPC f;
     fn_parameters := fn_parameters f |}.
Definition set_fn_line (z : Z) (f : dwarfFunc) : dwarfFunc :=
  {| fn_name := fn_name f; fn_file := fn_file f; fn_line := z; fn_col := fn_col f;
     fn_lowPC := fn_lowPC f; fn_highPC := fn_highPC f;
     fn_parameters := fn_parameters f |}.
Definition set_fn_col (z : Z) (f : dwarfFunc) : dwarfFunc :=
  {| fn_name := fn_name f; fn_file := fn_file f; fn_line := fn_line f; fn_col := z;
     fn_lowPC := fn_lowPC f; fn_highPC := fn_highPC f;
     fn_parameters := fn_parameters f |}.
(** The tail of [parseFunction]: [lowPC] and [highPC] from the first range,
    and an empty parameter list. *)
Definition set_fn_range (r : Z * Z) (f : dwarfFunc) : dwarfFunc :=
  {| fn_name := fn_name f; fn_file := fn_file f; fn_line := fn_line f;
     fn_col := fn_col f; fn_lowPC := r.1; fn_highPC := r.2; fn_parameters := [] |}.
Definition add_fn_parameter (p : dwarfParameter) (f : dwarfFunc) : dwarfFunc :=
  {| fn_name := fn_name f; fn_file := fn_file f; fn_line := fn_line f;
     fn_col := fn_col f; fn_lowPC := fn_lowPC f; fn_highPC := fn_highPC f;
     fn_parameters := fn_parameters f ++ [p] |}.

Definition emptyFunc : dwarfFunc :=
  {| fn_name := ""; fn_file := 0; fn_line := 0; fn_col := 0;
     fn_lowPC := 0; fn_highPC := 0; fn_parameters := [] |}.

(** One turn of the [switch field.Attr] of [parseFunction]. *)
Definition parseFunction_field (function : dwarfFunc) (field : Field)
  : result dwarfFunc :=
  match f_Attr field with
  | AttrName => s ← assert_string (f_Val field); Ok (set_fn_name s function)
  | AttrDeclFile => z ← assert_int64 (f_Val field); Ok (set_fn_file z function)
  | AttrDeclLine =>
      z ← assert_int64 (f_Val field);
      (* adjust for inserted line *)
      Ok (set_fn_line (wrap_i64 (z - 1)) function)
  | AttrDeclColumn => z ← assert_int64 (f_Val field); Ok (set_fn_col z function)
  | _ => Ok function
  end.

Fixpoint parseFunction_fields (function : dwarfFunc) (fields : list Field)
  : result dwarfFunc :=
  match fields with
  | [] => Ok function
  | field :: rest =>
      function' ← parseFunction_field function field;
      parseFunction_fields function' rest
  end.

Definition parseFunction (entry : Entry) : result dwarfFunc :=
  function ← parseFunction_fields emptyFunc (en_Field entry);
  r ← first_range entry;
  Ok (set_fn_range r function).

Definition parseFunctionParameter (entry : Entry) (data : dwarfData)
  : result dwarfParameter :=
  o ← assert_Offset (entry_Val entry AttrType);
  let baseType := default unknownType (types data !! o) in
  name ← assert_string (entry_Val entry AttrName);
  loc ← assert_bytes (entry_Val entry AttrLocation);
  Ok {| p_name := name; p_baseType := baseType; p_locationInstructions := loc |}.

(** The [switch field.Attr] of [parseModule]: only the name is stored. *)
Fixpoint parseModule_fields (name : string) (fields : list Field) : result string :=
  match fields with
  | [] => Ok name
  | field :: rest =>
      match f_Attr field with
      | AttrName => s ← assert_string (f_Val field); parseModule_fields s rest
      | _ => parseModule_fields name rest
      end
  end.

(** [for fileIndex, file := range files]: fills [module.files] and
    [moduleFileIndexMap] together. *)
Fixpoint parseModule_files (fileIndex : nat) (files : list (option string))
    (acc : gmap Z string * gmap string Z) : gmap Z string * gmap string Z :=
  match files with
  | [] => acc
  | file :: rest =>
      parseModule_files (S fileIndex) rest
        match file with
        | Some Name =>
            (<[Z.of_nat fileIndex := Name]> acc.1, <[Name := Z.of_nat fileIndex]> acc.2)
        | None => acc
        end
  end.

Definition parseModule_row (moduleFileIndexMap : gmap string Z) (le : LineEntry)
  : result dwarfEntry :=
  match le_File le with
  | None => Panic NilDereference
  | Some Name =>
      Ok {| e_address := le_Address le;
            e_file := default 0 (moduleFileIndexMap !! Name);
            (* adjust for inserted line *)
            e_line := wrap_i64 (le_Line le - 1);
            e_col := le_Column le;
            e_prologueEnd := le_PrologueEnd le;
            e_epilogueBegin := le_EpilogueBegin le;
            e_isStmt := le_IsStmt le |}
  end.

Fixpoint parseModule_rows (moduleFileIndexMap : gmap string Z) (rows : list LineEntry)
  : result (list dwarfEntry) :=
  match rows with
  | [] => Ok []
  | le :: rest =>
      entry ← parseModule_row moduleFileIndexMap le;
      dEntries ← parseModule_rows moduleFileIndexMap rest;
      Ok (entry :: dEntries)
  end.

Definition parseModule (entry : Entry) : result dwarfModule :=
  name ← parseModule_fields "" (en_Field entry);
  r ← first_range entry;
  match en_LineReader entry with
  | None => Panic ExplicitPanic
  | Some lineReader =>
      let '(files, moduleFileIndexMap) :=
        parseModule_files 0 (lr_Files lineReader) (∅, ∅) in
      dEntries ← parseModule_rows moduleFileIndexMap (lr_rows lineReader);
      Ok {| m_name := name; m_startAddress := r.1; m_endAddress := r.2;
            m_entries := dEntries; m_files := files;
            m_functions := []; m_variables := [] |}
  end.

Definition set_m_functions (fns : list dwarfFunc) (m : dwarfModule) : dwarfModule :=
  {| m_name := m_name m; m_startAddress := m_startAddress m;
     m_endAddress := m_endAddress m; m_entries := m_entries m;
     m_files := m_files m; m_functions := fns; m_variables := m_variables m |}.
Definition add_m_variable (v : dwarfVariable) (m : dwarfModule) : dwarfModule :=
  {| m_name := m_name m; m_startAddress := m_startAddress m;
     m_endAddress := m_endAddress m; m_entries := m_entries m;
     m_files := m_files m; m_functions := m_functions m;
     m_variables := m_variables m ++ [v] |}.
Definition set_modules (ms : list dwarfModule) (d : dwarfData) : dwarfData :=
  {| modules := ms; types := types d; mpi := mpi d |}.
Definition set_types (t : gmap Z dwarfBaseType) (d : dwarfData) : dwarfData :=
  {| modules := modules d; types := t; mpi := mpi d |}.
Definition set_mpi (x : dwarfMPIData) (d : dwarfData) : dwarfData :=
  {| modules := modules d; types := types d; mpi := x |}.

(** The loop state of [getDwarfData]. *)
Record cursor := {
  data : dwarfData;
  currentModule : modulePtr;
  currentFunction : funcPtr
}.

(** One turn of the [switch entry.Tag] of [getDwarfData]. *)
Definition getDwarfData_entry (c : cursor) (entry : Entry) : result cursor :=
  match en_Tag entry with
  | TagBaseType =>
      name ← assert_string (entry_Val entry AttrName);
      byteSize ← assert_int64 (entry_Val entry AttrByteSize);
      encoding ← assert_int64 (entry_Val entry AttrEncoding);
      let bt := {| bt_name := name; bt_byteSize := byteSize; bt_encoding := encoding |} in
      Ok {| data := set_types (<[en_Offset entry := bt]> (types (data c))) (data c);
            currentModule := currentModule c;
            currentFunction := currentFunction c |}
  | TagCompileUnit =>
      module ← parseModule entry;
      Ok {| data := set_modules (modules (data c) ++ [module]) (data c);
            currentModule := Some (length (modules (data c)));
            currentFunction := None |}
  | TagSubprogram =>
      function ← parseFunction entry;
      match currentModule c with
      | None => Panic NilDereference
      | Some mi =>
          m ← deref_module (data c) (Some mi);
          Ok {| data :=
                  set_modules
                    (<[mi := set_m_functions (m_functions m ++ [function]) m]>
                       (modules (data c)))
                    (data c);
                currentModule := currentModule c;
                currentFunction := Some (mi, length (m_functions m)) |}
      end
  | TagFormalParameter =>
      parameter ← parseFunctionParameter entry (data c);
      match currentFunction c with
      | None => Panic NilDereference
      | Some (mi, fi) =>
          m ← deref_module (data c) (Some mi);
          f ← deref_func (data c) (Some (mi, fi));
          Ok {| data :=
                  set_modules
                    (<[mi := set_m_functions
                               (<[fi := add_fn_parameter parameter f]> (m_functions m)) m]>
                       (modules (data c)))
                    (data c);
                currentModule := currentModule c;
                currentFunction := currentFunction c |}
      end
  | TagVariable =>
      o ← assert_Offset (entry_Val entry AttrType);
      let baseType := default unknownType (types (data c) !! o) in
      name ← assert_string (entry_Val entry AttrName);
      loc ← match entry_Val entry AttrLocation with
            | VNil => Ok []
            | v => assert_bytes v
            end;
      let variable :=
        {| v_name := name; v_baseType := baseType;
           v_locationInstructions := loc; v_function := currentFunction c |} in
      match currentModule c with
      | None => Panic NilDereference
      | Some mi =>
          m ← deref_module (data c) (Some mi);
          Ok {| data :=
                  set_modules (<[mi := add_m_variable variable m]> (modules (data c)))
                    (data c);
                currentModule := currentModule c;
                currentFunction := currentFunction c |}
      end
  | TagOther => Ok c
  end.

Fixpoint getDwarfData_loop (c : cursor) (entries : list Entry) : result cursor :=
  match entries with
  | [] => Ok c
  | entry :: rest =>
      c' ← getDwarfData_entry c entry;
      getDwarfData_loop c' rest
  end.

(** ** MPI recognition ([dwarfData.go], lines 470-487) *)

(** Modelled from the spec: the constant [MPI_FUNCS.SIGNATURE], declared
    outside the files at hand, is the well-known name of the signature
    function exported by the wrapper header ([mpi_wrap.h], line 3). *)
Definition MPI_FUNCS_SIGNATURE : string := "_MPI_WRAPPER_INCLUDE".

(** [s[1:]]: panics on the empty string. *)
Definition string_tail (s : string) : result string :=
  match s with
  | EmptyString => Panic SliceOutOfRange
  | String _ rest => Ok rest
  end.

(** The loop over [module.functions].  [fi] is the position of [function] in
    the module, so [function != sigFunc] compares [fi] with the position [si]
    of the signature function.  The names are rewritten in place: the result
    carries the module's new function list next to the collected pointers. *)
Fixpoint resolveMPIDebugInfo_loop (mi si : nat) (sigFile : Z) (fi : nat)
    (functions : list dwarfFunc) (mpiWrapFunctions : list funcPtr)
  : result (list dwarfFunc * list funcPtr) :=
  match functions with
  | [] => Ok ([], mpiWrapFunctions)
  | function :: rest =>
      if decide (fn_file function = sigFile ∧ fi ≠ si) then
        name ← string_tail (fn_name function);
        '(rest', out) ← resolveMPIDebugInfo_loop mi si sigFile (S fi) rest
                          (mpiWrapFunctions ++ [Some (mi, fi)]);
        Ok (set_fn_name name function :: rest', out)
      else
        '(rest', out) ← resolveMPIDebugInfo_loop mi si sigFile (S fi) rest
                          mpiWrapFunctions;
        Ok (function :: rest', out)
  end.

(** Returns the [dwarfMPIData] together with the index as the loop leaves it. *)
Definition resolveMPIDebugInfo (data : dwarfData) : result (dwarfData * dwarfMPIData) :=
  let '(module, sigFunc) := lookupFunc data MPI_FUNCS_SIGNATURE in
  m ← deref_module data module;
  match sigFunc with
  | None => Panic NilDereference
  | Some (mi, si) =>
      sf ← deref_func data sigFunc;
      '(functions', mpiWrapFunctions) ←
        resolveMPIDebugInfo_loop mi si (fn_file sf) 0 (m_functions m) [];
      let m' := set_m_functions functions' m in
      Ok (set_modules (<[mi := m']> (modules data)) data,
          {| mpi_functions := mpiWrapFunctions;
             mpi_file := files_at m (fn_file sf) |})
  end.

(** What [elf.Open] and [elfFile.DWARF] hand to [getDwarfData]: [None] when
    either fails, else the entries that [reader.Next] yields before the loop
    is left, and whether it is left by [panic(err)] (a read that returns an
    entry together with an error other than [io.EOF]) instead of [break]. *)
Record rawData := {
  rd_entries : list Entry;
  rd_error : bool
}.

Definition emptyData : dwarfData :=
  {| modules := []; types := ∅;
     mpi := {| mpi_functions := []; mpi_file := "" |} |}.

(** The cursor [getDwarfData] starts from. *)
Definition initialCursor : cursor :=
  {| data := emptyData; currentModule := None; currentFunction := None |}.

Definition getDwarfData (targetFile : option rawData) : result dwarfData :=
  match targetFile with
  | None => Panic ExplicitPanic
  | Some dwarfRawData =>
      c ← getDwarfData_loop initialCursor (rd_entries dwarfRawData);
      if rd_error dwarfRawData then Panic ExplicitPanic
      else
        '(data', mpiData) ← resolveMPIDebugInfo (data c);
        Ok (set_mpi mpiData data')
  end.

(** ** Stack walk ([stack.go], lines 26-109) *)

(** Modelled from the spec: [ptrSize()] and [MAIN_FN] are declared outside the
    files at hand; the architecture has 8-byte pointers and the entry-point
    function is named [main]. *)
Definition ptrSize : Z := 8.
Definition MAIN_FN : string := "main".

Record PtraceRegs := {
  Rip : Z;
  Rsp : Z;
  Rbp : Z
}.

(** The tracee's memory: the byte at each address, [None] where unreadable. *)
Definition memory := Z → option Z.

(** Modelled from the spec: [must] is declared outside the files at hand; a
    failed peek is a TraceeIOError that aborts the command.  This is
    [syscall.PtracePeekData(pid, addr, out)] followed by [must(err)]: the
    bytes at [addr], [addr + 1], ... when all of them are readable. *)
Definition PtracePeekData (mem : memory) (addr : Z) (n : Z) : result (list Z) :=
  match mapM (λ i, mem (wrap_u64 (addr + i))) (seqZ 0 n) with
  | Some frameData => Ok frameData
  | None => Panic ExplicitPanic
  end.

(** [frameData[lo:hi]] on a slice whose length and capacity are equal. *)
Definition slice (frameData : list Z) (lo hi : Z) : result (list Z) :=
  if decide (0 ≤ lo ∧ lo ≤ hi ∧ hi ≤ Z.of_nat (length frameData))
  then Ok (take (Z.to_nat (hi - lo)) (drop (Z.to_nat lo) frameData))
  else Panic SliceOutOfRange.

(** [binary.LittleEndian.Uint64]. *)
Definition LittleEndian_Uint64 (b : list Z) : Z :=
  foldr (λ byte acc, byte + 256 * acc) 0 b.

(** [for offset = 0; offset < frameSize; offset += ptrSize]: the offsets the
    loop visits when it is not left early. *)
Definition frame_offsets (frameSize : Z) : list Z :=
  (λ k, ptrSize * k) <$> seqZ 0 ((frameSize + ptrSize - 1) `div` ptrSize).

Fixpoint getStack_frame (offsets : list Z) (frameData : list Z) (frameSize : Z)
    (basePointer : Z) : result Z :=
  match offsets with
  | [] => Ok basePointer
  | offset :: rest =>
      content ← slice frameData offset (offset + ptrSize);
      (* reached the end of the stack frame *)
      if decide (offset = frameSize - ptrSize)
      then Ok (LittleEndian_Uint64 content)
      else getStack_frame rest frameData frameSize basePointer
  end.

Definition fn_is_main (d : dwarfData) (fn : funcPtr) : result bool :=
  f ← deref_func d fn;
  Ok (bool_decide (fn_name f = MAIN_FN)).

(** The [for { ... }] of [getStack]; [None] when [fuel] turns do not reach a
    [break] or a panic. *)
Fixpoint getStack_loop (fuel : nat) (d : dwarfData) (mem : memory)
    (stackPointer basePointer : Z) (fnStack : list funcPtr)
  : option (result (list funcPtr)) :=
  match fuel with
  | O => None
  | S fuel' =>
      let frameSize := wrap_u64 (basePointer - stackPointer + ptrSize) in
      let frameSize :=
        if decide (frameSize > 1024 ∨ frameSize ≤ ptrSize) then 32 else frameSize in
      match PtracePeekData mem stackPointer frameSize with
      | Panic p => Some (Panic p)
      | Ok frameData =>
          (* First instruction in frame - return address from stack frame *)
          match slice frameData 0 ptrSize with
          | Panic p => Some (Panic p)
          | Ok b0 =>
              let resolved : result (option (funcPtr * list funcPtr)) :=
                match PCToFunc d (LittleEndian_Uint64 b0) with
                | Some fn => Ok (Some (Some fn, fnStack ++ [Some fn]))
                | None =>
                    b1 ← slice frameData ptrSize (2 * ptrSize);
                    match PCToFunc d (LittleEndian_Uint64 b1) with
                    | Some fn => Ok (Some (Some fn, fnStack ++ [Some fn]))
                    | None => Ok None
                    end
                end in
              match resolved with
              | Panic p => Some (Panic p)
              | Ok None => Some (Ok fnStack)
              | Ok (Some (fn, fnStack')) =>
                  match getStack_frame (frame_offsets frameSize) frameData frameSize
                          basePointer with
                  | Panic p => Some (Panic p)
                  | Ok basePointer' =>
                      (* end of stack *)
                      match fn_is_main d fn with
                      | Panic p => Some (Panic p)
                      | Ok true => Some (Ok fnStack')
                      | Ok false =>
                          getStack_loop fuel' d mem
                            (wrap_u64 (stackPointer + frameSize)) basePointer' fnStack'
                      end
                  end
              end
          end
      end
  end.

Definition getStack (fuel : nat) (d : dwarfData) (mem : memory) (regs : PtraceRegs)
  : option (result (list funcPtr)) :=
  let stackPointer := Rsp regs in
  let basePointer := Rbp regs in
  let fn := PCToFunc d (Rip regs) in
  getStack_loop fuel d mem stackPointer basePointer [fn].

(** [functionStack.String] ([stack.go], lines 13-24): [fmt.Sprintf("%s%s", a, b)]
    is the concatenation; [fn.name] on a nil function panics. *)
Fixpoint functionStack_String_loop (d : dwarfData) (len : nat) (index : nat)
    (stack : list funcPtr) (str : string) : result string :=
  match stack with
  | [] => Ok str
  | fn :: rest =>
      f ← deref_func d fn;
      let str := str +:+ fn_name f in
      let str :=
        if decide (Z.of_nat index ≠ Z.of_nat len - 1) then str +:+ " <- " else str in
      functionStack_String_loop d len (S index) rest str
  end.

Definition functionStack_String (d : dwarfData) (stack : list funcPtr)
  : result string :=
  functionStack_String_loop d (length stack) 0 stack "".

(** ** Orchestrator registry ([nodeReporter.go]) *)

(** Modelled from the spec: the [node] struct and the package-level
    [registeredNodes] map are declared outside the files at hand; a node
    records [(id, pid)] and the registry maps ids to nodes. *)
Record node := {
  n_id : Z;
  n_pid : Z
}.

(** The [registeredNodes] map, and whether the delayed [os.Exit(0)] has been
    scheduled. *)
Record registry := {
  registeredNodes : gmap Z node;
  shutdownScheduled : bool
}.

Definition emptyRegistry : registry :=
  {| registeredNodes := ∅; shutdownScheduled := false |}.

(** [len(registeredNodes)] *)
Definition len (m : gmap Z node) : Z := Z.of_nat (size m).

Definition Register (pid : Z) (r : registry) : registry * Z :=
  let node := {| n_id := len (registeredNodes r); n_pid := pid |} in
  ({| registeredNodes := <[n_id node := node]> (registeredNodes r);
      shutdownScheduled := shutdownScheduled r |},
   n_id node).

(** Modelled from the spec: [command.Command] is declared outside the files
    at hand; of it the method reads the node id and the [exited] flag of the
    result. *)
Record Command := {
  NodeId : Z;
  Exited : bool
}.

Definition ReportCommandResult (cmd : Command) (r : registry) : registry :=
  let nodeId := NodeId cmd in
  if Exited cmd then
    let nodes := delete nodeId (registeredNodes r) in
    {| registeredNodes := nodes;
       shutdownScheduled :=
         if decide (len nodes = 0) then true else shutdownScheduled r |}
  else r.

(** A call of either remote method. *)
Inductive call :=
  | CallRegister (pid : Z)
  | CallReport (cmd : Command).

(** Runs the calls in order; returns the final registry and the ids replied
    by the [Register] calls, oldest first. *)
Fixpoint serve (calls : list call) (r : registry) : registry * list Z :=
  match calls with
  | [] => (r, [])
  | CallRegister pid :: rest =>
      let '(r', id) := Register pid r in
      let '(r'', ids) := serve rest r' in
      (r'', id :: ids)
  | CallReport cmd :: rest => serve rest (ReportCommandResult cmd r)
  end.

(** ** Vocabulary of the specification *)

(** Position (i', j') is visited before position (i, j) by two nested loops. *)
Definition scan_before (i' j' i j : nat) : Prop :=
  (i' < i)%nat ∨ (i' = i ∧ (j' < j)%nat).

(** [first_entry d P mi ei m e]: entry [ei] of module [mi] is the first one,
    scanning the modules in index order and each module's entries in order,
    that satisfies [P]. *)
Definition first_entry (d : dwarfData) (P : dwarfModule → dwarfEntry → Prop)
    (mi ei : nat) (m : dwarfModule) (e : dwarfEntry) : Prop :=
  modules d !! mi = Some m ∧ m_entries m !! ei = Some e ∧ P m e ∧
  ∀ mj ej m' e', scan_before mj ej mi ei → modules d !! mj = Some m' →
    m_entries m' !! ej = Some e' → ¬ P m' e'.

(** The entry's file path is [file], its stored line is [line] and it is a
    statement entry. *)
Definition suits (file : string) (line : Z) (m : dwarfModule) (e : dwarfEntry) : Prop :=
  files_at m (e_file e) = file ∧ e_line e = line ∧ e_isStmt e = true.

(** The module's range contains [pc] and the entry's address is [pc]. *)
Definition at_pc (pc : Z) (m : dwarfModule) (e : dwarfEntry) : Prop :=
  (m_startAddress m ≤ pc ∧ pc ≤ m_endAddress m) ∧ e_address e = pc.

(** First half of the Module invariant of the data model. *)
Definition entry_files_are_keys (d : dwarfData) : Prop :=
  ∀ m e, m ∈ modules d → e ∈ m_entries m → is_Some (m_files m !! e_file e).

(** [pc] lies strictly between the addresses of two entries of one module. *)
Definition interior (d : dwarfData) (pc : Z) : Prop :=
  ∃ m e1 e2, m ∈ modules d ∧ e1 ∈ m_entries m ∧ e2 ∈ m_entries m ∧
             e_address e1 < pc ∧ pc < e_address e2.

(** The statement scan of one module, as [lineToPC] runs it. *)
Definition lineToPC_entry (file : string) (line : Z) (m : dwarfModule)
    (e : dwarfEntry) : option Z :=
  if decide (e_line e = line ∧ files_at m (e_file e) = file)
  then if e_isStmt e then Some (e_address e) else None
  else None.

(** Whether [file] is among the paths of the module's file table. *)
Definition lists_file (file : string) (m : dwarfModule) : Prop :=
  Exists (λ kv : Z * string, kv.2 = file) (map_to_list (m_files m)).

Global Instance suits_dec file line m e : Decision (suits file line m e).
Proof. unfold suits. apply _. Defined.

Global Instance at_pc_dec pc m e : Decision (at_pc pc m e).
Proof. unfold at_pc. apply _. Defined.

(** The body of the two nested loops of [PCToLine]. *)
Definition PCToLine_entry (d : dwarfData) (pc : Z) (m : dwarfModule)
    (e : dwarfEntry) : option (Z * string * funcPtr) :=
  if decide (m_startAddress m ≤ pc ∧ pc ≤ m_endAddress m) then
    if decide (e_address e = pc)
    then Some (e_line e, files_at m (e_file e), PCToFunc d pc)
    else None
  else None.

(** A small index used to instantiate the statements: two compile units, the
    second one with two rows at the same address. *)
Definition sample_entry (address file line : Z) (isStmt : bool) : dwarfEntry :=
  {| e_address := address; e_file := file; e_line := line; e_col := 0;
     e_prologueEnd := false; e_epilogueBegin := false; e_isStmt := isStmt |}.

Definition sample_func (name : string) (file line lowPC highPC : Z) : dwarfFunc :=
  {| fn_name := name; fn_file := file; fn_line := line; fn_col := 0;
     fn_lowPC := lowPC; fn_highPC := highPC; fn_parameters := [] |}.

Definition sample_module (name : string) (startAddress endAddress : Z)
    (entries : list dwarfEntry) (files : list (Z * string))
    (functions : list dwarfFunc) : dwarfModule :=
  {| m_name := name; m_startAddress := startAddress; m_endAddress := endAddress;
     m_entries := entries; m_files := list_to_map files;
     m_functions := functions; m_variables := [] |}.

Definition sample_data (ms : list dwarfModule) : dwarfData :=
  {| modules := ms; types := ∅; mpi := {| mpi_functions := []; mpi_file := "" |} |}.

Definition sample_main_module : dwarfModule :=
  sample_module "main.c" 4096 4200
    [ sample_entry 4096 1 3 true; sample_entry 4104 1 4 false;
      sample_entry 4112 1 4 true; sample_entry 4128 1 6 true ]
    [ (1, "main.c") ]
    [ sample_func "main" 1 3 4096 4200 ].

Definition sample_util_module : dwarfModule :=
  sample_module "util.c" 8192 8300
    [ sample_entry 8192 1 10 true; sample_entry 8192 1 11 true ]
    [ (1, "util.c") ]
    [ sample_func "helper" 1 10 8192 8300 ].

Definition sample_index : dwarfData :=
  sample_data [ sample_main_module; sample_util_module ].

Definition sample_unambiguous : dwarfData := sample_data [ sample_main_module ].

(** No module defines a function named [name]; some module does. *)
Definition defined_nowhere (d : dwarfData) (name : string) : Prop :=
  ∀ m f, m ∈ modules d → f ∈ m_functions m → fn_name f ≠ name.

Definition defined_somewhere (d : dwarfData) (name : string) : Prop :=
  ∃ m f, m ∈ modules d ∧ f ∈ m_functions m ∧ fn_name f = name.

(** Raw entries for the examples: a compile unit, a subprogram, a line row. *)
Definition raw_cu (name : string) (ranges : list (Z * Z))
    (files : list (option string)) (rows : list LineEntry) : Entry :=
  {| en_Offset := 0; en_Tag := TagCompileUnit;
     en_Field := [ {| f_Attr := AttrName; f_Val := VString name |} ];
     en_Ranges := Some ranges;
     en_LineReader := Some {| lr_Files := files; lr_rows := rows |} |}.

Definition raw_fn (name : string) (declFile declLine : Z) (ranges : list (Z * Z))
  : Entry :=
  {| en_Offset := 0; en_Tag := TagSubprogram;
     en_Field := [ {| f_Attr := AttrName; f_Val := VString name |};
                   {| f_Attr := AttrDeclFile; f_Val := VInt64 declFile |};
                   {| f_Attr := AttrDeclLine; f_Val := VInt64 declLine |} ];
     en_Ranges := Some ranges; en_LineReader := None |}.

Definition raw_row (address : Z) (file : string) (line : Z) (isStmt : bool)
  : LineEntry :=
  {| le_Address := address; le_File := Some file; le_Line := line; le_Column := 0;
     le_IsStmt := isStmt; le_PrologueEnd := false; le_EpilogueBegin := false |}.

(** A wrapped program whose line table has two statement rows at one address
    (raw lines 11 and 12 of main.c at 4112). *)
Definition raw_same_address : rawData :=
  {| rd_entries :=
       [ raw_cu "main.c" [(4096, 4200)]
           [ None; Some "main.c"; Some "mpi_wrap.h" ]
           [ raw_row 4096 "mpi_wrap.h" 4 true;
             raw_row 4112 "main.c" 11 true;
             raw_row 4112 "main.c" 12 true;
             raw_row 4128 "main.c" 13 true ];
         raw_fn "_MPI_WRAPPER_INCLUDE" 2 4 [(4096, 4100)];
         raw_fn "main" 1 11 [(4112, 4200)] ];
     rd_error := false |}.

Definition idx_same_address : dwarfData :=
  {| modules :=
       [ sample_module "main.c" 4096 4200
           [ sample_entry 4096 2 3 true; sample_entry 4112 1 10 true;
             sample_entry 4112 1 11 true; sample_entry 4128 1 12 true ]
           [ (1, "main.c"); (2, "mpi_wrap.h") ]
           [ sample_func "_MPI_WRAPPER_INCLUDE" 2 3 4096 4100;
             sample_func "main" 1 10 4112 4200 ] ];
     types := ∅;
     mpi := {| mpi_functions := []; mpi_file := "mpi_wrap.h" |} |}.

(** The round trip of the specification: every statement entry's file and
    line map to an address that maps back to that line and that file. *)
Definition round_trip (d : dwarfData) : Prop :=
  ∀ m e, m ∈ modules d → e ∈ m_entries m → e_isStmt e = true →
    ∃ a fn, lineToPC d (files_at m (e_file e)) (e_line e) = Value a ∧
            PCToLine d a = Value (e_line e, files_at m (e_file e), fn).

(** Every entry's address lies in its module's range. *)
Definition addresses_inside (d : dwarfData) : Prop :=
  ∀ m e, m ∈ modules d → e ∈ m_entries m →
    m_startAddress m ≤ e_address e ∧ e_address e ≤ m_endAddress m.

(** Entries that share an address share line and file path. *)
Definition address_determines_line (d : dwarfData) : Prop :=
  ∀ m e m' e', m ∈ modules d → e ∈ m_entries m →
    m' ∈ modules d → e' ∈ m_entries m' → e_address e = e_address e' →
    e_line e = e_line e' ∧ files_at m (e_file e) = files_at m' (e_file e').

(** Two nodes register, node 0 reports its exit, a third node registers. *)
Definition calls_register_after_exit : list call :=
  [ CallRegister 100; CallRegister 101;
    CallReport {| NodeId := 0; Exited := true |};
    CallRegister 102 ].

(** The test of the loop of [resolveMPIDebugInfo] on the function at position
    [j] of the signature function's module: same file id as the signature
    function (position [si]) and not the signature function object itself. *)
Definition is_wrapper (sigFile : Z) (si j : nat) (f : dwarfFunc) : Prop :=
  fn_file f = sigFile ∧ j ≠ si.

Global Instance is_wrapper_dec sigFile si j f : Decision (is_wrapper sigFile si j f).
Proof. unfold is_wrapper. apply _. Defined.

(** The name with its first character removed, whatever that character is;
    the empty name is left as it is. *)
Definition drop_first (s : string) : string :=
  match s with
  | EmptyString => EmptyString
  | String _ rest => rest
  end.

(** The name with a leading underscore removed, as the specification words it. *)
Definition strip_leading_underscore (s : string) : string :=
  match s with
  | String "_"%char rest => rest
  | _ => s
  end.

(** Every function that [resolveMPIDebugInfo] rewrites has a name. *)
Definition wrappers_named (d : dwarfData) : Prop :=
  ∀ mi si m sf j f,
    lookupFunc d MPI_FUNCS_SIGNATURE = (Some mi, Some (mi, si)) →
    modules d !! mi = Some m → m_functions m !! si = Some sf →
    m_functions m !! j = Some f → is_wrapper (fn_file sf) si j f → fn_name f ≠ "".

(** The recognized set as the specification words it: all the functions of
    the index whose source file is the signature function's source file, the
    signature function itself excluded. *)
Definition recognizes_same_file_functions (d : dwarfData) (mpiData : dwarfMPIData)
  : Prop :=
  ∃ mi si m sf,
    lookupFunc d MPI_FUNCS_SIGNATURE = (Some mi, Some (mi, si)) ∧
    modules d !! mi = Some m ∧ m_functions m !! si = Some sf ∧
    ∀ p, p ∈ mpi_functions mpiData ↔
      ∃ i j m' f, p = Some (i, j) ∧ modules d !! i = Some m' ∧
                  m_functions m' !! j = Some f ∧
                  files_at m' (fn_file f) = files_at m (fn_file sf) ∧
                  (i, j) ≠ (mi, si).

(** A program of two wrapped source files: both compile units define the
    functions of the wrapper header. *)
Definition raw_two_units : rawData :=
  {| rd_entries :=
       [ raw_cu "a.c" [(4096, 4200)] [ None; Some "a.c"; Some "mpi_wrap.h" ]
           [ raw_row 4096 "mpi_wrap.h" 4 true; raw_row 4112 "mpi_wrap.h" 60 true;
             raw_row 4128 "a.c" 5 true ];
         raw_fn "_MPI_WRAPPER_INCLUDE" 2 4 [(4096, 4100)];
         raw_fn "_MPI_Send" 2 58 [(4112, 4128)];
         raw_fn "main" 1 5 [(4128, 4200)];
         raw_cu "b.c" [(8192, 8300)] [ None; Some "b.c"; Some "mpi_wrap.h" ]
           [ raw_row 8192 "mpi_wrap.h" 4 true; raw_row 8208 "mpi_wrap.h" 60 true;
             raw_row 8224 "b.c" 3 true ];
         raw_fn "_MPI_WRAPPER_INCLUDE" 2 4 [(8192, 8196)];
         raw_fn "_MPI_Send" 2 58 [(8208, 8224)];
         raw_fn "helper" 1 3 [(8224, 8300)] ];
     rd_error := false |}.

Definition two_units_module_b : dwarfModule :=
  sample_module "b.c" 8192 8300
    [ sample_entry 8192 2 3 true; sample_entry 8208 2 59 true;
      sample_entry 8224 1 2 true ]
    [ (1, "b.c"); (2, "mpi_wrap.h") ]
    [ sample_func "_MPI_WRAPPER_INCLUDE" 2 3 8192 8196;
      sample_func "_MPI_Send" 2 57 8208 8224;
      sample_func "helper" 1 2 8224 8300 ].

Definition two_units_module_a (sendName : string) : dwarfModule :=
  sample_module "a.c" 4096 4200
    [ sample_entry 4096 2 3 true; sample_entry 4112 2 59 true;
      sample_entry 4128 1 4 true ]
    [ (1, "a.c"); (2, "mpi_wrap.h") ]
    [ sample_func "_MPI_WRAPPER_INCLUDE" 2 3 4096 4100;
      sample_func sendName 2 57 4112 4128;
      sample_func "main" 1 4 4128 4200 ].

(** The index of [raw_two_units] when the loop of [getDwarfData] ends, and
    what [getDwarfData] returns. *)
Definition idx_two_units_parsed : dwarfData :=
  sample_data [ two_units_module_a "_MPI_Send"; two_units_module_b ].

Definition mpi_two_units : dwarfMPIData :=
  {| mpi_functions := [ Some (0%nat, 1%nat) ]; mpi_file := "mpi_wrap.h" |}.

Definition idx_two_units : dwarfData :=
  set_mpi mpi_two_units
    (sample_data [ two_units_module_a "MPI_Send"; two_units_module_b ]).

(** What the specification says of the rewritten names, for the index
    [parsed] as the loop of [getDwarfData] leaves it and the index [d']
    returned: for every rewritten function, its name in [d'] is the original
    one without its first character, the original name no longer resolves,
    and the new name resolves to that very function object, which is listed
    in the MPI data. *)
Definition stripping_renames_in_place (parsed d' : dwarfData) : Prop :=
  ∃ mi si m sf,
    lookupFunc parsed MPI_FUNCS_SIGNATURE = (Some mi, Some (mi, si)) ∧
    modules parsed !! mi = Some m ∧ m_functions m !! si = Some sf ∧
    ∀ j f, m_functions m !! j = Some f → is_wrapper (fn_file sf) si j f →
      deref_func d' (Some (mi, j)) = Ok (set_fn_name (drop_first (fn_name f)) f) ∧
      Some (mi, j) ∈ mpi_functions (mpi d') ∧
      lookupFunc d' (fn_name f) = (None, None) ∧
      lookupFunc d' (drop_first (fn_name f)) = (Some mi, Some (mi, j)).

(** The function at position [j] of module [mi] is one that
    [resolveMPIDebugInfo] rewrites. *)
Definition rewritten (d : dwarfData) (mi j : nat) (f : dwarfFunc) : Prop :=
  ∃ si m sf,
    lookupFunc d MPI_FUNCS_SIGNATURE = (Some mi, Some (mi, si)) ∧
    modules d !! mi = Some m ∧ m_functions m !! si = Some sf ∧
    m_functions m !! j = Some f ∧ is_wrapper (fn_file sf) si j f.

(** No two function objects of the index have the same name. *)
Definition names_distinct (d : dwarfData) : Prop :=
  ∀ i k m g i' k' m' g',
    modules d !! i = Some m → m_functions m !! k = Some g →
    modules d !! i' = Some m' → m_functions m' !! k' = Some g' →
    fn_name g = fn_name g' → i = i' ∧ k = k'.

(** Every rewritten function's name starts with an underscore, and no
    function of the index is named like a rewritten one without it. *)
Definition wrappers_underscored (d : dwarfData) : Prop :=
  ∀ mi j f, rewritten d mi j f → ∃ rest, fn_name f = String "_"%char rest.

Definition stripped_names_fresh (d : dwarfData) : Prop :=
  ∀ mi j f i k m g, rewritten d mi j f →
    modules d !! i = Some m → m_functions m !! k = Some g →
    fn_name g ≠ drop_first (fn_name f).

(** A wrapped single-file program. *)
Definition raw_wrapped : rawData :=
  {| rd_entries :=
       [ raw_cu "main.c" [(4096, 4300)] [ None; Some "main.c"; Some "mpi_wrap.h" ]
           [ raw_row 4096 "mpi_wrap.h" 4 true; raw_row 4112 "mpi_wrap.h" 60 true;
             raw_row 4144 "mpi_wrap.h" 67 true; raw_row 4176 "main.c" 5 true ];
         raw_fn "_MPI_WRAPPER_INCLUDE" 2 4 [(4096, 4100)];
         raw_fn "_MPI_Send" 2 58 [(4112, 4144)];
         raw_fn "_MPI_Recv" 2 65 [(4144, 4176)];
         raw_fn "main" 1 5 [(4176, 4300)] ];
     rd_error := false |}.

Definition wrapped_module (send recv : string) : dwarfModule :=
  sample_module "main.c" 4096 4300
    [ sample_entry 4096 2 3 true; sample_entry 4112 2 59 true;
      sample_entry 4144 2 66 true; sample_entry 4176 1 4 true ]
    [ (1, "main.c"); (2, "mpi_wrap.h") ]
    [ sample_func "_MPI_WRAPPER_INCLUDE" 2 3 4096 4100;
      sample_func send 2 57 4112 4144;
      sample_func recv 2 64 4144 4176;
      sample_func "main" 1 4 4176 4300 ].

Definition idx_wrapped_parsed : dwarfData :=
  sample_data [ wrapped_module "_MPI_Send" "_MPI_Recv" ].

Definition idx_wrapped : dwarfData :=
  set_mpi {| mpi_functions := [ Some (0%nat, 1%nat); Some (0%nat, 2%nat) ];
             mpi_file := "mpi_wrap.h" |}
    (sample_data [ wrapped_module "MPI_Send" "MPI_Recv" ]).

(** Two states of one module object: the name, the address range, the line
    table and the file table are those [parseModule] stored. *)
Definition same_frame (m m' : dwarfModule) : Prop :=
  m_name m' = m_name m ∧ m_startAddress m' = m_startAddress m ∧
  m_endAddress m' = m_endAddress m ∧ m_entries m' = m_entries m ∧
  m_files m' = m_files m.

(** A property [PM] of every module and [PF] of every function of a list of
    modules. *)
Definition modules_satisfy (PM : dwarfModule → Prop)
    (PF : dwarfModule → dwarfFunc → Prop) (ms : list dwarfModule) : Prop :=
  Forall (λ m, PM m ∧ Forall (PF m) (m_functions m)) ms.

(** [lo, hi) lies wholly inside [s, e]. *)
Definition range_inside (lo hi s e : Z) : Prop :=
  ∀ pc, lo ≤ pc ∧ pc < hi → s ≤ pc ∧ pc ≤ e.

(** Second half of the Module invariant of the data model. *)
Definition functions_inside (d : dwarfData) : Prop :=
  ∀ m f, m ∈ modules d → f ∈ m_functions m →
    range_inside (fn_lowPC f) (fn_highPC f) (m_startAddress m) (m_endAddress m).

Definition module_invariant (d : dwarfData) : Prop :=
  entry_files_are_keys d ∧ functions_inside d.





(** What Go's line reader guarantees of a compile unit when its line program
    does not define files on the way: every row's file is one of the file
    table [Files()] read before the rows. *)
Definition rows_name_listed_files (cu : Entry) : Prop :=
  ∀ lineReader le name, en_LineReader cu = Some lineReader →
    le ∈ lr_rows lineReader → le_File le = Some name →
    Some name ∈ lr_Files lineReader.

(** The compile unit that the entries seen so far make current: the last one. *)
Definition current_cu (seen : list Entry) : option Entry :=
  last (filter (λ e, en_Tag e = TagCompileUnit) seen).

(** The first range of every subprogram lies inside the first range of the
    compile unit it belongs to. *)
Definition subprograms_nested (all : list Entry) : Prop :=
  ∀ seen sp rest cu r0 r, all = seen ++ sp :: rest →
    en_Tag sp = TagSubprogram → current_cu seen = Some cu →
    first_range cu = Ok r0 → first_range sp = Ok r →
    range_inside r.1 r.2 r0.1 r0.2.

(** A compile unit with two address ranges, [main] in the second one. *)
Definition raw_split_unit : rawData :=
  {| rd_entries :=
       [ raw_cu "main.c" [(4096, 4200); (8192, 8300)]
           [ None; Some "main.c"; Some "mpi_wrap.h" ]
           [ raw_row 4096 "mpi_wrap.h" 4 true; raw_row 8192 "main.c" 5 true ];
         raw_fn "_MPI_WRAPPER_INCLUDE" 2 4 [(4096, 4100)];
         raw_fn "main" 1 5 [(8192, 8300)] ];
     rd_error := false |}.

Definition split_unit_module : dwarfModule :=
  sample_module "main.c" 4096 4200
    [ sample_entry 4096 2 3 true; sample_entry 8192 1 4 true ]
    [ (1, "main.c"); (2, "mpi_wrap.h") ]
    [ sample_func "_MPI_WRAPPER_INCLUDE" 2 3 4096 4100;
      sample_func "main" 1 4 8192 8300 ].

Definition idx_split_unit : dwarfData :=
  set_mpi {| mpi_functions := []; mpi_file := "mpi_wrap.h" |}
    (sample_data [ split_unit_module ]).

(** A wrapped binary with the functions [g], [f] and [main], loaded at
    0x401000 (4198400), and its index. *)
Definition raw_frames : rawData :=
  {| rd_entries :=
       [ raw_cu "main.c" [(4198400, 4198912)]
           [ None; Some "main.c"; Some "mpi_wrap.h" ] [];
         raw_fn "g" 1 3 [(4198400, 4198500)];
         raw_fn "f" 1 8 [(4198500, 4198600)];
         raw_fn "main" 1 13 [(4198600, 4198800)];
         raw_fn "_MPI_WRAPPER_INCLUDE" 2 4 [(4198800, 4198804)] ];
     rd_error := false |}.

Definition idx_frames : dwarfData :=
  set_mpi {| mpi_functions := []; mpi_file := "mpi_wrap.h" |}
    (sample_data
       [ sample_module "main.c" 4198400 4198912 []
           [ (1, "main.c"); (2, "mpi_wrap.h") ]
           [ sample_func "g" 1 2 4198400 4198500;
             sample_func "f" 1 7 4198500 4198600;
             sample_func "main" 1 12 4198600 4198800;
             sample_func "_MPI_WRAPPER_INCLUDE" 2 3 4198800 4198804 ] ]).

(** Byte [i] of the little-endian 64-bit word [word]. *)
Definition byte_of (word i : Z) : Z := (word `div` 256 ^ i) `mod` 256.

(** A tracee whose only readable memory is its stack, the two pages from
    0x7fffffffd000 (140737488343040) up to 0x7ffffffff000 (140737488351232).
    The word at 0x7fffffffef00 (140737488350976) holds 0x401096 (4198550), a
    return address into [f]; every other byte of the stack is zero. *)
Definition mem_frames : memory := λ a,
  if decide (140737488343040 ≤ a ∧ a < 140737488351232) then
    Some (if decide (140737488350976 ≤ a ∧ a < 140737488350984)
          then byte_of 4198550 (a - 140737488350976) else 0)
  else None.

(** The tracee stopped in [g] with RSP at 0x7fffffffef00 and RBP four bytes
    above it, as when the program is compiled without frame pointers and RBP
    holds a pointer into a local buffer: a frame of 12 bytes, not a multiple
    of the pointer size. *)
Definition regs_unaligned : PtraceRegs :=
  {| Rip := 4198410; Rsp := 140737488350976; Rbp := 140737488350980 |}.

(** The frame size of one turn of the walk, after the recovery heuristic. *)
Definition frame_size (basePointer stackPointer : Z) : Z :=
  let frameSize := wrap_u64 (basePointer - stackPointer + ptrSize) in
  if decide (frameSize > 1024 ∨ frameSize ≤ ptrSize) then 32 else frameSize.

(** No address from [limit] on is readable. *)
Definition unreadable_from (mem : memory) (limit : Z) : Prop :=
  ∀ a, limit ≤ a → mem a = None.

(** The ids of the registry are 0 up to its size. *)
Definition dense (r : registry) : Prop :=
  ∀ k, is_Some (registeredNodes r !! k) ↔ 0 ≤ k ∧ k < len (registeredNodes r).

(** [first_among items d P mi i m x]: item [i] of module [mi] is the first
    one, scanning the modules in index order and each module's [items] in
    order, that satisfies [P]. *)
Definition first_among {A} (items : dwarfModule → list A) (d : dwarfData)
    (P : dwarfModule → A → Prop) (mi i : nat) (m : dwarfModule) (x : A) : Prop :=
  modules d !! mi = Some m ∧ items m !! i = Some x ∧ P m x ∧
  ∀ mj j m' x', scan_before mj j mi i → modules d !! mj = Some m' →
    items m' !! j = Some x' → ¬ P m' x'.

(** [pc] lies in the function's [lowPC, highPC). *)
Definition contains_pc (pc : Z) (f : dwarfFunc) : Prop :=
  fn_lowPC f ≤ pc ∧ pc < fn_highPC f.

(** The compile unit of [raw_wrapped], with a file table that lists main.c
    twice (as DWARF 5 does), and the module [parseModule] makes of it. *)
Definition cu_twice_listed : Entry :=
  raw_cu "main.c" [(4096, 4300)]
    [ Some "main.c"; Some "main.c"; Some "mpi_wrap.h" ]
    [ raw_row 4096 "mpi_wrap.h" 4 true; raw_row 4176 "main.c" 5 true;
      raw_row 4200 "other.c" 9 true ].

Definition module_twice_listed : dwarfModule :=
  sample_module "main.c" 4096 4300
    [ sample_entry 4096 2 3 true; sample_entry 4176 1 4 true;
      sample_entry 4200 0 8 true ]
    [ (0, "main.c"); (1, "main.c"); (2, "mpi_wrap.h") ]
    [].

(** How [parseModule] stores the row [le] as the entry [e], for the file
    table [files]: address and flags are copied, and the file id is the last
    index at which the table lists the row's file name, or 0 when the table
    does not list it. *)
Definition row_stored (files : list (option string)) (le : LineEntry)
    (e : dwarfEntry) : Prop :=
  ∃ name, le_File le = Some name ∧
    e_address e = le_Address le ∧ e_col e = le_Column le ∧
    e_isStmt e = le_IsStmt le ∧ e_prologueEnd e = le_PrologueEnd le ∧
    e_epilogueBegin e = le_EpilogueBegin le ∧
    ((∃ k : nat, e_file e = Z.of_nat k ∧ files !! k = Some (Some name) ∧
        ∀ j, files !! j = Some (Some name) → (j ≤ k)%nat) ∨
     ((∀ j, files !! j ≠ Some (Some name)) ∧ e_file e = 0)).

(** The module [m] of the index is the module parsed from the compile unit
    [cu], with the functions and variables added to it since. *)
Definition module_of_unit (cu : Entry) (m : dwarfModule) : Prop :=
  ∃ m0, parseModule cu = Ok m0 ∧ same_frame m0 m.

(** The compile-unit entries of a stream, in order. *)
Definition compile_units (entries : list Entry) : list Entry :=
  filter (λ e, en_Tag e = TagCompileUnit) entries.

(** The subprogram that the entries seen so far make current: the last one
    since the last compile unit. *)
Definition open_subprogram (seen : list Entry) : option Entry :=
  foldl (λ sp e,
           match en_Tag e with
           | TagCompileUnit => None
           | TagSubprogram => Some e
           | _ => sp
           end) None seen.

(** What [getDwarfData] needs of the entry [e], read after the entries
    [seen], not to panic on it. *)
Definition entry_accepted (seen : list Entry) (e : Entry) : Prop :=
  match en_Tag e with
  | TagBaseType =>
      (∃ s, entry_Val e AttrName = VString s) ∧
      (∃ z, entry_Val e AttrByteSize = VInt64 z) ∧
      (∃ z, entry_Val e AttrEncoding = VInt64 z)
  | TagCompileUnit =>
      (∃ r rs, en_Ranges e = Some (r :: rs)) ∧
      ∃ lineReader, en_LineReader e = Some lineReader ∧
        ∀ le, le ∈ lr_rows lineReader → is_Some (le_File le)
  | TagSubprogram =>
      (∃ r rs, en_Ranges e = Some (r :: rs)) ∧ is_Some (current_cu seen)
  | TagFormalParameter =>
      is_Some (open_subprogram seen) ∧
      (∃ o, entry_Val e AttrType = VOffset o) ∧
      (∃ s, entry_Val e AttrName = VString s) ∧
      (∃ b, entry_Val e AttrLocation = VBytes b)
  | TagVariable =>
      is_Some (current_cu seen) ∧
      (∃ o, entry_Val e AttrType = VOffset o) ∧
      (∃ s, entry_Val e AttrName = VString s) ∧
      (entry_Val e AttrLocation = VNil ∨ ∃ b, entry_Val e AttrLocation = VBytes b)
  | TagOther => True
  end.

(** A stream with a formal parameter that has no location attribute. *)
Definition raw_parameter_without_location : rawData :=
  {| rd_entries :=
       [ raw_cu "main.c" [(4096, 4300)] [ None; Some "main.c" ] [];
         raw_fn "_MPI_WRAPPER_INCLUDE" 1 4 [(4096, 4100)];
         {| en_Offset := 0; en_Tag := TagFormalParameter;
            en_Field := [ {| f_Attr := AttrName; f_Val := VString "argc" |};
                          {| f_Attr := AttrType; f_Val := VOffset 64 |} ];
            en_Ranges := None; en_LineReader := None |} ];
     rd_error := false |}.

(** Every variable of the modules [ms] that records a function records one
    of its own module. *)
Definition variables_point_home (ms : list dwarfModule) : Prop :=
  ∀ i m v mi fi, ms !! i = Some m → v ∈ m_variables m →
    v_function v = Some (mi, fi) → mi = i ∧ (fi < length (m_functions m))%nat.

(** A wrapped program with a global declared before the first function and
    one declared after a function. *)
Definition raw_with_variables : rawData :=
  {| rd_entries :=
       [ raw_cu "main.c" [(4096, 4300)] [ None; Some "main.c" ] [];
         {| en_Offset := 10; en_Tag := TagVariable;
            en_Field := [ {| f_Attr := AttrName; f_Val := VString "before" |};
                          {| f_Attr := AttrType; f_Val := VOffset 64 |} ];
            en_Ranges := None; en_LineReader := None |};
         raw_fn "_MPI_WRAPPER_INCLUDE" 1 4 [(4096, 4100)];
         {| en_Offset := 20; en_Tag := TagVariable;
            en_Field := [ {| f_Attr := AttrName; f_Val := VString "after" |};
                          {| f_Attr := AttrType; f_Val := VOffset 64 |};
                          {| f_Attr := AttrLocation; f_Val := VBytes [145; 108] |} ];
            en_Ranges := None; en_LineReader := None |} ];
     rd_error := false |}.

Definition idx_with_variables : dwarfData :=
  {| modules :=
       [ {| m_name := "main.c"; m_startAddress := 4096; m_endAddress := 4300;
            m_entries := []; m_files := list_to_map [ (1, "main.c") ];
            m_functions := [ sample_func "_MPI_WRAPPER_INCLUDE" 1 3 4096 4100 ];
            m_variables :=
              [ {| v_name := "before"; v_baseType := unknownType;
                   v_locationInstructions := []; v_function := None |};
                {| v_name := "after"; v_baseType := unknownType;
                   v_locationInstructions := [145; 108];
                   v_function := Some (0%nat, 0%nat) |} ] |} ];
     types := ∅;
     mpi := {| mpi_functions := []; mpi_file := "main.c" |} |}.

(** The names joined by [" <- "]. *)
Fixpoint join_names (names : list string) : string :=
  match names with
  | [] => ""
  | [name] => name
  | name :: rest => name +:+ " <- " +:+ join_names rest
  end.

(** Every pointer of the stack dereferences, to the functions [fs]. *)
Definition stack_functions (d : dwarfData) (stack : list funcPtr)
    (fs : list dwarfFunc) : Prop :=
  Forall2 (λ p f, deref_func d p = Ok f) stack fs.

(** The callers that a walk appends: every one is a function of the index,
    and only the last one can be [main]. *)
Definition callers_up_to_main (d : dwarfData) (callers : list funcPtr) : Prop :=
  ∀ i p, callers !! i = Some p →
    ∃ f, deref_func d p = Ok f ∧ (fn_name f = MAIN_FN → S i = length callers).

(** An index with [main] below [f], a memory whose words all read 4096 (an
    address of [main]) and registers inside [f]. *)
Definition raw_main : rawData :=
  {| rd_entries :=
       [ raw_cu "main.c" [(0, 8192)] [ None; Some "main.c"; Some "mpi_wrap.h" ] [];
         raw_fn "f" 1 2 [(0, 4096)];
         raw_fn "main" 1 9 [(4096, 8000)];
         raw_fn "_MPI_WRAPPER_INCLUDE" 2 4 [(8000, 8004)] ];
     rd_error := false |}.

Definition idx_main : dwarfData :=
  set_mpi {| mpi_functions := []; mpi_file := "mpi_wrap.h" |}
    (sample_data
       [ sample_module "main.c" 0 8192 []
           [ (1, "main.c"); (2, "mpi_wrap.h") ]
           [ sample_func "f" 1 1 0 4096; sample_func "main" 1 8 4096 8000;
             sample_func "_MPI_WRAPPER_INCLUDE" 2 3 8000 8004 ] ]).

Definition mem_main : memory := λ a, Some (if decide (a `mod` 8 = 1) then 16 else 0).

Definition regs_in_f : PtraceRegs := {| Rip := 100; Rsp := 800; Rbp := 816 |}.

(** Registers whose instruction pointer lies in no function. *)
Definition regs_outside : PtraceRegs := {| Rip := 9000; Rsp := 800; Rbp := 816 |}.

(** The attribute fields that [parseFunction] reads have the dynamic type
    it asserts; fields of other attributes are not looked at. *)
Definition field_typed (field : Field) : Prop :=
  match f_Attr field with
  | AttrName => ∃ s, f_Val field = VString s
  | AttrDeclFile | AttrDeclLine | AttrDeclColumn => ∃ z, f_Val field = VInt64 z
  | _ => True
  end.


(** The value of the last field of [fields] with the attribute [a]. *)
Definition last_Val (fields : list Field) (a : Attr) : option Val :=
  f_Val <$> last (filter (λ field, f_Attr field = a) fields).

(** The function [function] with the name, file, line and column that the
    last field of each of these attributes gives; an attribute without a
    field keeps what [function] has. *)
Definition fields_onto (function : dwarfFunc) (fields : list Field) : dwarfFunc :=
  {| fn_name := match last_Val fields AttrName with
                | Some (VString s) => s | _ => fn_name function end;
     fn_file := match last_Val fields AttrDeclFile with
                | Some (VInt64 z) => z | _ => fn_file function end;
     fn_line := match last_Val fields AttrDeclLine with
                | Some (VInt64 z) => wrap_i64 (z - 1) | _ => fn_line function end;
     fn_col := match last_Val fields AttrDeclColumn with
               | Some (VInt64 z) => z | _ => fn_col function end;
     fn_lowPC := fn_lowPC function; fn_highPC := fn_highPC function;
     fn_parameters := fn_parameters function |}.

(** The function that the fields [fields] and the address range [r]
    describe: zero values where no field gives the attribute, no parameters. *)
Definition function_of_fields (fields : list Field) (r : Z * Z) : dwarfFunc :=
  {| fn_name := match last_Val fields AttrName with
                | Some (VString s) => s | _ => "" end;
     fn_file := match last_Val fields AttrDeclFile with
                | Some (VInt64 z) => z | _ => 0 end;
     fn_line := match last_Val fields AttrDeclLine with
                | Some (VInt64 z) => wrap_i64 (z - 1) | _ => 0 end;
     fn_col := match last_Val fields AttrDeclColumn with
               | Some (VInt64 z) => z | _ => 0 end;
     fn_lowPC := r.1; fn_highPC := r.2; fn_parameters := [] |}.

(** The base type that a base-type entry declares. *)
Definition base_type_of (e : Entry) : option dwarfBaseType :=
  match entry_Val e AttrName, entry_Val e AttrByteSize, entry_Val e AttrEncoding with
  | VString name, VInt64 byteSize, VInt64 encoding =>
      Some {| bt_name := name; bt_byteSize := byteSize; bt_encoding := encoding |}
  | _, _, _ => None
  end.

(** The base type that the entries [seen] declare at the offset [o]: that of
    the last base-type entry with this offset. *)
Definition types_declared (seen : list Entry) (o : Z) : option dwarfBaseType :=
  last (filter (λ e, en_Tag e = TagBaseType ∧ en_Offset e = o) seen)
    ≫= base_type_of.

(** The entry [e], read after the entries [seen], has the name [name] and a
    type attribute that the declarations in [seen] resolve to [bt], or to the
    unknown type when none of them has its offset. *)
Definition typed_at (seen : list Entry) (e : Entry) (name : string)
    (bt : dwarfBaseType) : Prop :=
  ∃ o, entry_Val e AttrType = VOffset o ∧ entry_Val e AttrName = VString name ∧
       bt = default unknownType (types_declared seen o).

(** Some entry of the stream [all] with the tag [tag] has the name [name]
    and the type [bt], resolved against the entries before it. *)
Definition read_from (all : list Entry) (tag : Tag) (name : string)
    (bt : dwarfBaseType) : Prop :=
  ∃ seen e rest, all = seen ++ e :: rest ∧ en_Tag e = tag ∧ typed_at seen e name bt.

Definition sample_int : dwarfBaseType :=
  {| bt_name := "int"; bt_byteSize := 4; bt_encoding := 5 |}.

(** A wrapped program whose base type [int] is declared after the global
    [early] and before the parameter [argc] and the global [late]. *)
Definition raw_with_types : rawData :=
  {| rd_entries :=
       [ raw_cu "main.c" [(4096, 4300)] [ None; Some "main.c" ] [];
         {| en_Offset := 10; en_Tag := TagVariable;
            en_Field := [ {| f_Attr := AttrName; f_Val := VString "early" |};
                          {| f_Attr := AttrType; f_Val := VOffset 64 |} ];
            en_Ranges := None; en_LineReader := None |};
         {| en_Offset := 64; en_Tag := TagBaseType;
            en_Field := [ {| f_Attr := AttrName; f_Val := VString "int" |};
                          {| f_Attr := AttrByteSize; f_Val := VInt64 4 |};
                          {| f_Attr := AttrEncoding; f_Val := VInt64 5 |} ];
            en_Ranges := None; en_LineReader := None |};
         raw_fn "_MPI_WRAPPER_INCLUDE" 1 4 [(4096, 4100)];
         {| en_Offset := 20; en_Tag := TagFormalParameter;
            en_Field := [ {| f_Attr := AttrName; f_Val := VString "argc" |};
                          {| f_Attr := AttrType; f_Val := VOffset 64 |};
                          {| f_Attr := AttrLocation; f_Val := VBytes [145; 108] |} ];
            en_Ranges := None; en_LineReader := None |};
         {| en_Offset := 30; en_Tag := TagVariable;
            en_Field := [ {| f_Attr := AttrName; f_Val := VString "late" |};
                          {| f_Attr := AttrType; f_Val := VOffset 64 |} ];
            en_Ranges := None; en_LineReader := None |} ];
     rd_error := false |}.

Definition idx_with_types : dwarfData :=
  {| modules :=
       [ {| m_name := "main.c"; m_startAddress := 4096; m_endAddress := 4300;
            m_entries := []; m_files := list_to_map [ (1, "main.c") ];
            m_functions :=
              [ add_fn_parameter
                  {| p_name := "argc"; p_baseType := sample_int;
                     p_locationInstructions := [145; 108] |}
                  (sample_func "_MPI_WRAPPER_INCLUDE" 1 3 4096 4100) ];
            m_variables :=
              [ {| v_name := "early"; v_baseType := unknownType;
                   v_locationInstructions := []; v_function := None |};
                {| v_name := "late"; v_baseType := sample_int;
                   v_locationInstructions := [];
                   v_function := Some (0%nat, 0%nat) |} ] |} ];
     types := {[ 64 := sample_int ]};
     mpi := {| mpi_functions := []; mpi_file := "main.c" |} |}.

(** * Properties *)

(** ** Loops with an early return *)

Lemma for_range_from_Some {A B} (l : list A) (body : nat → A → option B) i b :
  for_range_from i l body = Some b ↔
  ∃ k x, l !! k = Some x ∧ body (i + k)%nat x = Some b ∧
         ∀ j y, (j < k)%nat → l !! j = Some y → body (i + j)%nat y = None.
Proof.
  revert i. induction l as [|x l IH]; intros i; simpl.
  - split; [done | by intros (k & y & Hk & _)].
  - destruct (body i x) as [b'|] eqn:Hx.
    + split.
      * intros [= ->]. exists 0%nat, x. rewrite Nat.add_0_r.
        split_and!; [done | done | intros; lia].
      * intros (k & y & Hk & Hb & Hfirst). destruct k as [|k].
        -- simpl in Hk. injection Hk as ->. rewrite Nat.add_0_r in Hb. congruence.
        -- specialize (Hfirst 0%nat x). rewrite Nat.add_0_r in Hfirst.
           rewrite Hfirst in Hx; [done | lia | done].
    + rewrite IH. split.
      * intros (k & y & Hk & Hb & Hfirst). exists (S k), y.
        split_and!; [done | by rewrite Nat.add_succ_r | ].
        intros [|j] z Hj Hz.
        -- simpl in Hz. injection Hz as <-. by rewrite Nat.add_0_r.
        -- rewrite Nat.add_succ_r. apply (Hfirst j z); [lia | done].
      * intros (k & y & Hk & Hb & Hfirst). destruct k as [|k].
        -- simpl in Hk. injection Hk as ->. rewrite Nat.add_0_r in Hb. congruence.
        -- exists k, y. split_and!; [done | by rewrite Nat.add_succ_r in Hb | ].
           intros j z Hj Hz. specialize (Hfirst (S j) z).
           rewrite Nat.add_succ_r in Hfirst. apply Hfirst; [lia | done].
Qed.

Lemma for_range_Some {A B} (l : list A) (body : nat → A → option B) b :
  for_range l body = Some b ↔
  ∃ k x, l !! k = Some x ∧ body k x = Some b ∧
         ∀ j y, (j < k)%nat → l !! j = Some y → body j y = None.
Proof. apply for_range_from_Some. Qed.

Lemma for_range_from_None {A B} (l : list A) (body : nat → A → option B) i :
  for_range_from i l body = None ↔
  ∀ k x, l !! k = Some x → body (i + k)%nat x = None.
Proof.
  revert i. induction l as [|x l IH]; intros i; simpl.
  - split; [by intros _ k y | done].
  - destruct (body i x) as [b'|] eqn:Hx.
    + split; [done |]. intros H. specialize (H 0%nat x).
      rewrite Nat.add_0_r in H. rewrite H in Hx; done.
    + rewrite IH. split.
      * intros H [|k] y Hk.
        -- simpl in Hk. injection Hk as <-. by rewrite Nat.add_0_r.
        -- rewrite Nat.add_succ_r. by apply H.
      * intros H k y Hk. specialize (H (S k) y).
        rewrite Nat.add_succ_r in H. by apply H.
Qed.

Lemma for_range_None {A B} (l : list A) (body : nat → A → option B) :
  for_range l body = None ↔ ∀ k x, l !! k = Some x → body k x = None.
Proof. apply for_range_from_None. Qed.

Lemma for_range_ext {A B} (l : list A) (f g : nat → A → option B) :
  (∀ k x, l !! k = Some x → f k x = g k x) → for_range l f = for_range l g.
Proof.
  intros Hfg. destruct (for_range l g) as [b|] eqn:Hg.
  - apply for_range_Some in Hg as (k & x & Hk & Hb & Hfirst).
    apply for_range_Some. exists k, x. split_and!; [done | by rewrite Hfg | ].
    intros j y Hj Hy. rewrite Hfg; eauto.
  - apply for_range_None. intros k x Hk. rewrite Hfg; [|done].
    by eapply for_range_None in Hg.
Qed.

(** A loop whose body is a test followed by a computation that does not depend
    on the element: the computation runs if some element passes the test. *)
Lemma for_range_gate {A B} (l : list A) (P : A → Prop) `{!∀ x, Decision (P x)}
    (X : option B) :
  for_range l (λ _ x, if decide (P x) then X else None) =
  if decide (Exists P l) then X else None.
Proof.
  unfold for_range. generalize 0%nat. induction l as [|x l IH]; intros i; simpl.
  - destruct (decide (Exists P [])) as [HE|HE]; [by inversion HE | done].
  - destruct (decide (P x)) as [HP|HP].
    + rewrite decide_True by (by left). destruct X as [b|]; [done |].
      rewrite IH. by case_decide.
    + rewrite IH. apply decide_ext. rewrite Exists_cons. tauto.
Qed.

Lemma for_range_nested_Some {A B C} (outer : list A) (inner : A → list B)
    (f : nat → A → nat → B → option C) c :
  for_range outer (λ i a, for_range (inner a) (f i a)) = Some c ↔
  ∃ i a j b, outer !! i = Some a ∧ inner a !! j = Some b ∧ f i a j b = Some c ∧
    ∀ i' a' j' b', scan_before i' j' i j → outer !! i' = Some a' →
      inner a' !! j' = Some b' → f i' a' j' b' = None.
Proof.
  rewrite for_range_Some. split.
  - intros (i & a & Hi & Hin & Hfirst).
    apply for_range_Some in Hin as (j & b & Hj & Hb & Hfirst').
    exists i, a, j, b. split_and!; try done.
    intros i' a' j' b' [Hlt | [-> Hlt]] Hi' Hj'.
    + specialize (Hfirst i' a' Hlt Hi'). by eapply for_range_None in Hfirst.
    + assert (a' = a) as -> by congruence. eauto.
  - intros (i & a & j & b & Hi & Hj & Hb & Hfirst). exists i, a. split_and!.
    + done.
    + apply for_range_Some. exists j, b. split_and!; try done.
      intros j' b' Hlt Hj'. apply (Hfirst i a j' b'); [by right | done | done].
    + intros i' a' Hlt Hi'. apply for_range_None. intros j' b' Hj'.
      apply (Hfirst i' a' j' b'); [by left | done | done].
Qed.

Lemma for_range_nested_None {A B C} (outer : list A) (inner : A → list B)
    (f : nat → A → nat → B → option C) :
  for_range outer (λ i a, for_range (inner a) (f i a)) = None ↔
  ∀ i a j b, outer !! i = Some a → inner a !! j = Some b → f i a j b = None.
Proof.
  rewrite for_range_None. split.
  - intros H i a j b Hi Hj. specialize (H i a Hi). by eapply for_range_None in H.
  - intros H i a Hi. apply for_range_None. intros j b Hj. eauto.
Qed.

Lemma for_range_guard {A B} (c : Prop) `{!Decision c} (l : list A)
    (g : nat → A → option B) :
  (if decide c then for_range l g else None) =
  for_range l (λ j x, if decide c then g j x else None).
Proof.
  case_decide; [done |]. symmetry. by apply for_range_None.
Qed.

(** ** Line-table lookups *)

Lemma files_at_Some m k file :
  m_files m !! k = Some file → files_at m k = file.
Proof. unfold files_at. by intros ->. Qed.

Lemma files_at_nonempty m k file :
  file ≠ "" → files_at m k = file → m_files m !! k = Some file.
Proof.
  unfold files_at. destruct (m_files m !! k) as [s|]; simpl; congruence.
Qed.

Lemma lineToPC_entry_Some file line m e a :
  lineToPC_entry file line m e = Some a ↔ suits file line m e ∧ a = e_address e.
Proof.
  unfold lineToPC_entry, suits. case_decide as Hc.
  - destruct Hc as [Hl Hf]. destruct (e_isStmt e).
    + split; [intros [= <-]; done | intros [_ ->]; done].
    + split; [done | intros [(_ & _ & ?) _]; done].
  - split; [done | intros [(? & ? & _) _]; tauto].
Qed.

Lemma lineToPC_entry_None file line m e :
  lineToPC_entry file line m e = None ↔ ¬ suits file line m e.
Proof.
  destruct (lineToPC_entry file line m e) as [a|] eqn:He.
  - apply lineToPC_entry_Some in He as [Hs _]. split; [done | tauto].
  - split; [|done]. intros _ Hs.
    assert (lineToPC_entry file line m e = Some (e_address e)) as Hc
      by (by apply lineToPC_entry_Some). congruence.
Qed.

Lemma lists_file_lookup file m k :
  m_files m !! k = Some file → lists_file file m.
Proof.
  intros Hk. apply Exists_exists. exists (k, file).
  split; [by apply elem_of_map_to_list | done].
Qed.

Lemma suits_lists_file d file line m e :
  file ≠ "" ∨ entry_files_are_keys d →
  m ∈ modules d → e ∈ m_entries m → suits file line m e → lists_file file m.
Proof.
  intros [Hne | Hwf] Hm He (Hf & _ & _).
  - eapply lists_file_lookup, files_at_nonempty; eauto.
  - destruct (Hwf m e Hm He) as [s Hs].
    rewrite (files_at_Some _ _ _ Hs) in Hf. subst s.
    by eapply lists_file_lookup.
Qed.

Lemma lineToPC_unfold d file line :
  lineToPC d file line =
  match
    for_range (modules d) (λ _ m,
      for_range (m_entries m) (λ _ e,
        if decide (lists_file file m) then lineToPC_entry file line m e else None))
  with
  | Some address => Value address
  | None => Error (NoAddressForLine line file)
  end.
Proof.
  unfold lineToPC.
  rewrite (for_range_ext (modules d) _ (λ _ m,
    for_range (m_entries m) (λ _ e,
      if decide (lists_file file m) then lineToPC_entry file line m e else None)));
    [done |].
  intros mi m _.
  rewrite (for_range_gate _ (λ kv : Z * string, kv.2 = file)).
  apply (for_range_guard (lists_file file m)).
Qed.

Lemma lineToPC_Value d file line a :
  file ≠ "" ∨ entry_files_are_keys d →
  lineToPC d file line = Value a ↔
  ∃ mi ei m e, first_entry d (suits file line) mi ei m e ∧ a = e_address e.
Proof.
  intros Hpre. rewrite lineToPC_unfold.
  destruct (for_range _ _) as [a'|] eqn:Hscan.
  - apply for_range_nested_Some in Hscan
      as (mi & m & ei & e & Hm & He & Hbody & Hfirst).
    case_decide as Hgate; [|done].
    apply lineToPC_entry_Some in Hbody as [Hsuits ->].
    assert (first_entry d (suits file line) mi ei m e) as Hfe.
    { split_and!; try done. intros mj ej m' e' Hbefore Hm' He' Hsuits'.
      specialize (Hfirst mj m' ej e' Hbefore Hm' He').
      rewrite decide_True in Hfirst.
      - by apply lineToPC_entry_None in Hfirst.
      - eapply suits_lists_file; eauto using list_elem_of_lookup_2. }
    split.
    + intros [= <-]. by exists mi, ei, m, e.
    + intros (mi' & ei' & m' & e' & (Hm' & He' & Hsuits' & Hfirst') & ->).
      f_equal.
      destruct (lt_eq_lt_dec mi mi') as [[Hlt | ->] | Hlt].
      * exfalso. apply (Hfirst' mi ei m e); [by left | done..].
      * assert (m' = m) as -> by congruence.
        destruct (lt_eq_lt_dec ei ei') as [[Hlt | ->] | Hlt].
        -- exfalso. apply (Hfirst' mi' ei m e); [by right | done..].
        -- congruence.
        -- exfalso. destruct Hfe as (_ & _ & _ & Hfe).
           apply (Hfe mi' ei' m e'); [by right | done..].
      * exfalso. destruct Hfe as (_ & _ & _ & Hfe).
        apply (Hfe mi' ei' m' e'); [by left | done..].
  - split; [done |].
    intros (mi & ei & m & e & (Hm & He & Hsuits & _) & _).
    eapply for_range_nested_None in Hscan; [|done..].
    rewrite decide_True in Hscan.
    + by apply lineToPC_entry_None in Hscan.
    + eapply suits_lists_file; eauto using list_elem_of_lookup_2.
Qed.

Lemma lineToPC_Error d file line err :
  lineToPC d file line = Error err → err = NoAddressForLine line file.
Proof. unfold lineToPC. destruct (for_range _ _); congruence. Qed.

Lemma lineToPC_total d file line :
  (∃ a, lineToPC d file line = Value a) ∨
  lineToPC d file line = Error (NoAddressForLine line file).
Proof. unfold lineToPC. destruct (for_range _ _); eauto. Qed.

(** Some entry satisfies [P] iff there is a first one in scan order. *)
Lemma first_entry_exists d (P : dwarfModule → dwarfEntry → Prop)
    `{!∀ m e, Decision (P m e)} :
  (∃ m e, m ∈ modules d ∧ e ∈ m_entries m ∧ P m e) ↔
  ∃ mi ei m e, first_entry d P mi ei m e.
Proof.
  split.
  - intros (m & e & Hm & He & HP).
    destruct (for_range (modules d) (λ mi m, for_range (m_entries m) (λ ei e,
      if decide (P m e) then Some (mi, ei, m, e) else None))) as [r|] eqn:Hscan.
    + apply for_range_nested_Some in Hscan
        as (mi & m' & ei & e' & Hm' & He' & Hbody & Hfirst).
      case_decide; [|done]. exists mi, ei, m', e'. split_and!; try done.
      intros mj ej m'' e'' Hb Hm'' He'' HP''.
      specialize (Hfirst mj m'' ej e'' Hb Hm'' He'').
      by rewrite decide_True in Hfirst.
    + apply list_elem_of_lookup_1 in Hm as [mi Hm].
      apply list_elem_of_lookup_1 in He as [ei He].
      eapply for_range_nested_None in Hscan; [|done..].
      by rewrite decide_True in Hscan.
  - intros (mi & ei & m & e & Hm & He & HP & _).
    exists m, e. eauto using list_elem_of_lookup_2.
Qed.

(** C3.  [lineToPC(file, line)] returns the address of the first entry, in
    module order and then entry order, whose file path is [file], whose stored
    line is [line] and whose [isStmt] flag is set; it returns its error exactly
    when no module holds such an entry.  The file path of an entry is
    [module.files[entry.file]]; the statement is for a non-empty [file], or for
    an index in which every entry's file id is a key of its module's files. *)
Theorem lineToPC_first_statement_entry (d : dwarfData) (file : string) (line : Z) :
  file ≠ "" ∨ entry_files_are_keys d →
  (∀ a, lineToPC d file line = Value a ↔
        ∃ mi ei m e, first_entry d (suits file line) mi ei m e ∧ a = e_address e) ∧
  (lineToPC d file line = Error (NoAddressForLine line file) ↔
   ∀ m e, m ∈ modules d → e ∈ m_entries m → ¬ suits file line m e) ∧
  (∀ err, lineToPC d file line = Error err → err = NoAddressForLine line file).
Proof.
  intros Hpre. split_and!.
  - intros a. by apply lineToPC_Value.
  - split.
    + intros Herr m e Hm He Hs.
      assert (∃ mi ei m e, first_entry d (suits file line) mi ei m e)
        as (mi & ei & m' & e' & Hfe)
        by (apply first_entry_exists; [apply _ | eauto]).
      assert (lineToPC d file line = Value (e_address e')) as Hv
        by (apply lineToPC_Value; eauto 10).
      congruence.
    + intros Hnone. destruct (lineToPC_total d file line) as [[a Ha] | Herr]; [|done].
      apply lineToPC_Value in Ha as (mi & ei & m & e & (Hm & He & Hs & _) & _);
        [|done].
      exfalso. eapply Hnone; eauto using list_elem_of_lookup_2.
  - apply lineToPC_Error.
Qed.

Lemma lineToPC_first_statement_entry_witness :
  ("main.c" ≠ "" ∨ entry_files_are_keys sample_index) ∧
  (∀ a, lineToPC sample_index "main.c" 4 = Value a ↔
        ∃ mi ei m e,
          first_entry sample_index (suits "main.c" 4) mi ei m e ∧ a = e_address e) ∧
  (lineToPC sample_index "main.c" 4 = Error (NoAddressForLine 4 "main.c") ↔
   ∀ m e, m ∈ modules sample_index → e ∈ m_entries m → ¬ suits "main.c" 4 m e) ∧
  (∀ err, lineToPC sample_index "main.c" 4 = Error err →
          err = NoAddressForLine 4 "main.c").
Proof.
  split; [left; discriminate |].
  apply (lineToPC_first_statement_entry sample_index "main.c" 4).
  left; discriminate.
Defined.

Example lineToPC_sample : lineToPC sample_index "main.c" 4 = Value 4112.
Proof. vm_compute. reflexivity. Qed.

Lemma PCToLine_unfold d pc :
  PCToLine d pc =
  match
    for_range (modules d) (λ _ m, for_range (m_entries m) (λ _ e, PCToLine_entry d pc m e))
  with
  | Some r => Value r
  | None => Error (NoLineForAddress pc)
  end.
Proof.
  unfold PCToLine.
  rewrite (for_range_ext (modules d) _ (λ _ m,
    for_range (m_entries m) (λ _ e, PCToLine_entry d pc m e))); [done |].
  intros mi m _.
  apply (for_range_guard (m_startAddress m ≤ pc ∧ pc ≤ m_endAddress m)).
Qed.

Lemma PCToLine_entry_Some d pc m e r :
  PCToLine_entry d pc m e = Some r ↔
  at_pc pc m e ∧ r = (e_line e, files_at m (e_file e), PCToFunc d pc).
Proof.
  unfold PCToLine_entry, at_pc. repeat case_decide.
  - split; [intros [= <-]; done | intros [_ ->]; done].
  - split; [done | intros [[_ ?] _]; done].
  - split; [done | intros [[? _] _]; done].
Qed.

Lemma PCToLine_entry_None d pc m e :
  PCToLine_entry d pc m e = None ↔ ¬ at_pc pc m e.
Proof.
  destruct (PCToLine_entry d pc m e) as [r|] eqn:He.
  - apply PCToLine_entry_Some in He as [Hs _]. split; [done | tauto].
  - split; [|done]. intros _ Hs.
    assert (PCToLine_entry d pc m e =
            Some (e_line e, files_at m (e_file e), PCToFunc d pc)) as Hc
      by (by apply PCToLine_entry_Some).
    congruence.
Qed.

Lemma first_entry_unique d P mi ei m e mi' ei' m' e' :
  first_entry d P mi ei m e → first_entry d P mi' ei' m' e' →
  mi = mi' ∧ ei = ei' ∧ m = m' ∧ e = e'.
Proof.
  intros (Hm & He & HP & Hfirst) (Hm' & He' & HP' & Hfirst').
  destruct (lt_eq_lt_dec mi mi') as [[Hlt | ->] | Hlt].
  - exfalso. apply (Hfirst' mi ei m e); [by left | done..].
  - assert (m' = m) as -> by congruence.
    destruct (lt_eq_lt_dec ei ei') as [[Hlt | ->] | Hlt].
    + exfalso. apply (Hfirst' mi' ei m e); [by right | done..].
    + split_and!; congruence.
    + exfalso. apply (Hfirst mi' ei' m e'); [by right | done..].
  - exfalso. apply (Hfirst mi' ei' m' e'); [by left | done..].
Qed.

Lemma PCToLine_Value d pc r :
  PCToLine d pc = Value r ↔
  ∃ mi ei m e, first_entry d (at_pc pc) mi ei m e ∧
               r = (e_line e, files_at m (e_file e), PCToFunc d pc).
Proof.
  rewrite PCToLine_unfold.
  destruct (for_range _ _) as [r'|] eqn:Hscan.
  - apply for_range_nested_Some in Hscan
      as (mi & m & ei & e & Hm & He & Hbody & Hfirst).
    apply PCToLine_entry_Some in Hbody as [Hat ->].
    assert (first_entry d (at_pc pc) mi ei m e) as Hfe.
    { split_and!; try done. intros mj ej m' e' Hbefore Hm' He'.
      apply (PCToLine_entry_None d). eauto. }
    split.
    + intros [= <-]. by exists mi, ei, m, e.
    + intros (mi' & ei' & m' & e' & Hfe' & ->).
      destruct (first_entry_unique _ _ _ _ _ _ _ _ _ _ Hfe Hfe')
        as (_ & _ & -> & ->).
      done.
  - split; [done |].
    intros (mi & ei & m & e & (Hm & He & Hat & _) & _).
    eapply for_range_nested_None in Hscan; [|done..].
    by apply PCToLine_entry_None in Hscan.
Qed.

Lemma PCToLine_total d pc :
  (∃ r, PCToLine d pc = Value r) ∨ PCToLine d pc = Error (NoLineForAddress pc).
Proof. unfold PCToLine. destruct (for_range _ _); eauto. Qed.

(** C4.  [PCToLine(pc)] succeeds exactly when some module has
    [startAddress ≤ pc ≤ endAddress] and holds an entry whose address is [pc];
    it then returns the line and the file path of the first such entry.  When
    no entry of the index has the address [pc] it returns its error, also for
    a [pc] that lies strictly between two entry addresses: there is no
    interval lookup. *)
Theorem PCToLine_exact_address (d : dwarfData) (pc : Z) :
  ((∃ r, PCToLine d pc = Value r) ↔
   ∃ m e, m ∈ modules d ∧ e ∈ m_entries m ∧ at_pc pc m e) ∧
  (∀ r, PCToLine d pc = Value r ↔
        ∃ mi ei m e, first_entry d (at_pc pc) mi ei m e ∧
                     r = (e_line e, files_at m (e_file e), PCToFunc d pc)) ∧
  ((∀ m e, m ∈ modules d → e ∈ m_entries m → e_address e ≠ pc) →
   PCToLine d pc = Error (NoLineForAddress pc)) ∧
  (interior d pc →
   (∀ m e, m ∈ modules d → e ∈ m_entries m → e_address e ≠ pc) →
   PCToLine d pc = Error (NoLineForAddress pc)).
Proof.
  assert ((∀ m e, m ∈ modules d → e ∈ m_entries m → e_address e ≠ pc) →
          PCToLine d pc = Error (NoLineForAddress pc)) as Hmiss.
  { intros Hno. destruct (PCToLine_total d pc) as [[r Hr] | Herr]; [|done].
    apply PCToLine_Value in Hr as (mi & ei & m & e & (Hm & He & [_ Hat] & _) & _).
    exfalso. eapply Hno; eauto using list_elem_of_lookup_2. }
  split_and!.
  - rewrite (first_entry_exists d (at_pc pc)). split.
    + intros [r Hr]. apply PCToLine_Value in Hr as (mi & ei & m & e & Hfe & _).
      eauto.
    + intros (mi & ei & m & e & Hfe). eexists. apply PCToLine_Value. eauto 10.
  - apply PCToLine_Value.
  - done.
  - intros _. done.
Qed.

Ltac explode_elem H :=
  repeat (apply elem_of_cons in H as [-> | H]); [.. | by apply elem_of_nil in H].

Lemma PCToLine_exact_address_witness :
  interior sample_index 4100 ∧
  PCToLine sample_index 4100 = Error (NoLineForAddress 4100).
Proof.
  assert (∀ m e, m ∈ modules sample_index → e ∈ m_entries m → e_address e ≠ 4100)
    as Hno.
  { intros m e Hm He. simpl in Hm. explode_elem Hm; simpl in He;
      explode_elem He; simpl; discriminate. }
  split.
  - exists sample_main_module, (sample_entry 4096 1 3 true),
      (sample_entry 4104 1 4 false).
    split_and!; simpl; try lia.
    + apply list_elem_of_here.
    + apply list_elem_of_here.
    + apply list_elem_of_further, list_elem_of_here.
  - destruct (PCToLine_exact_address sample_index 4100) as (_ & _ & Hmiss & _).
    by apply Hmiss.
Defined.

(** ** Name lookups *)

Lemma lookupFunc_scan d name :
  lookupFunc d name =
  match
    for_range (modules d) (λ mi m, for_range (m_functions m) (λ fi f,
      if decide (fn_name f = name) then Some (mi, fi) else None))
  with
  | Some (mi, fi) => (Some mi, Some (mi, fi))
  | None => (None, None)
  end.
Proof.
  unfold lookupFunc.
  rewrite (for_range_ext (modules d) _ (λ mi m, for_range (m_functions m) (λ fi f,
      if decide (fn_name f = name) then Some (mi, fi) else None))); [done |].
  intros mi m _. unfold dwarfModule_lookupFunc.
  destruct (for_range (m_functions m) (λ fi f,
      if decide (fn_name f = name) then Some (mi, fi) else None)) as [r|] eqn:Hr.
  - apply for_range_Some in Hr as (fi & f & Hf & Hb & Hfirst).
    case_decide; [|done]. injection Hb as <-.
    assert (for_range (m_functions m)
              (λ fi f, if decide (fn_name f = name) then Some fi else None) = Some fi)
      as ->; [|done].
    apply for_range_Some. exists fi, f. split_and!; [done | by rewrite decide_True |].
    intros j y Hj Hy. specialize (Hfirst j y Hj Hy). by case_decide.
  - assert (for_range (m_functions m)
              (λ fi f, if decide (fn_name f = name) then Some fi else None) = None)
      as ->; [|done].
    apply for_range_None. intros j y Hy.
    eapply for_range_None in Hr; [|done]. by case_decide.
Qed.

(** [lookupFunc] finds the first function of that name, modules in order. *)
Lemma lookupFunc_Some d name mi fi :
  lookupFunc d name = (Some mi, Some (mi, fi)) ↔
  ∃ m f, modules d !! mi = Some m ∧ m_functions m !! fi = Some f ∧
         fn_name f = name ∧
         ∀ mj fj m' f', scan_before mj fj mi fi → modules d !! mj = Some m' →
           m_functions m' !! fj = Some f' → fn_name f' ≠ name.
Proof.
  rewrite lookupFunc_scan.
  destruct (for_range _ _) as [[mi' fi']|] eqn:Hscan.
  - apply for_range_nested_Some in Hscan
      as (i & m & j & f & Hm & Hf & Hbody & Hfirst).
    case_decide as Hname; [|done]. injection Hbody as <- <-.
    assert (∀ mj fj m' f', scan_before mj fj i j → modules d !! mj = Some m' →
              m_functions m' !! fj = Some f' → fn_name f' ≠ name) as Hfirst'.
    { intros mj fj m' f' Hb Hm' Hf'. specialize (Hfirst mj m' fj f' Hb Hm' Hf').
      by case_decide. }
    split.
    + intros Heq. simplify_eq. exists m, f. done.
    + intros (m' & f' & Hm' & Hf' & Hname' & Hfirst'').
      destruct (lt_eq_lt_dec i mi) as [[Hlt | ->] | Hlt].
      * exfalso. apply (Hfirst'' i j m f); [by left | done..].
      * assert (m' = m) as -> by congruence.
        destruct (lt_eq_lt_dec j fi) as [[Hlt | ->] | Hlt]; [| done |].
        -- exfalso. apply (Hfirst'' mi j m f); [by right | done..].
        -- exfalso. apply (Hfirst' mi fi m f'); [by right | done..].
      * exfalso. apply (Hfirst' mi fi m' f'); [by left | done..].
  - split; [done |]. intros (m & f & Hm & Hf & Hname & _).
    eapply for_range_nested_None in Hscan; [|done..].
    by rewrite decide_True in Hscan.
Qed.

Lemma lookupFunc_nil d name :
  lookupFunc d name = (None, None) ↔
  ∀ m f, m ∈ modules d → f ∈ m_functions m → fn_name f ≠ name.
Proof.
  rewrite lookupFunc_scan.
  destruct (for_range _ _) as [[mi' fi']|] eqn:Hscan.
  - split; [done |]. intros Hno.
    apply for_range_nested_Some in Hscan as (i & m & j & f & Hm & Hf & Hbody & _).
    case_decide as Hname; [|done].
    exfalso. eapply Hno; eauto using list_elem_of_lookup_2.
  - split; [|done]. intros _ m f Hm Hf.
    apply list_elem_of_lookup_1 in Hm as [mi Hm].
    apply list_elem_of_lookup_1 in Hf as [fi Hf].
    eapply for_range_nested_None in Hscan; [|done..]. by case_decide.
Qed.

Lemma lookupFunc_cases d name :
  lookupFunc d name = (None, None) ∨
  ∃ mi fi m f, lookupFunc d name = (Some mi, Some (mi, fi)) ∧
               modules d !! mi = Some m ∧ m_functions m !! fi = Some f ∧
               fn_name f = name.
Proof.
  destruct (lookupFunc d name) as [mp fp] eqn:Hl.
  rewrite lookupFunc_scan in Hl.
  destruct (for_range _ _) as [[mi fi]|] eqn:Hscan; injection Hl as <- <-.
  - right. assert (lookupFunc d name = (Some mi, Some (mi, fi))) as Hl
      by (by rewrite lookupFunc_scan, Hscan).
    apply lookupFunc_Some in Hl as (m & f & ? & ? & ? & _). eauto 10.
  - by left.
Qed.

(** C9.  For a name that no module defines, [lookupFunc] returns nil for both
    the module and the function, and [getEntriesForFunction] on such a name,
    like [getSourceFileInfo] when no function is named main, dereferences the
    nil result: a nil-dereference panic, no error value.  Both return
    normally exactly when the looked-up function exists. *)
Theorem name_lookups_need_the_function (d : dwarfData) (name : string) :
  (defined_nowhere d name →
     lookupFunc d name = (None, None) ∧
     getEntriesForFunction d name = Panic NilDereference) ∧
  (defined_nowhere d "main" → getSourceFileInfo d = Panic NilDereference) ∧
  ((∃ entries, getEntriesForFunction d name = Ok entries) ↔ defined_somewhere d name) ∧
  ((∃ sourceFile, getSourceFileInfo d = Ok sourceFile) ↔ defined_somewhere d "main").
Proof.
  assert (∀ n, defined_nowhere d n → defined_somewhere d n → False) as Hexcl.
  { intros n Hno (m & f & Hm & Hf & Hn). by eapply Hno. }
  assert (∀ n, defined_nowhere d n →
            getEntriesForFunction d n = Panic NilDereference) as Hge.
  { intros n Hno. apply (proj2 (lookupFunc_nil d n)) in Hno.
    unfold getEntriesForFunction. by rewrite Hno. }
  assert (defined_nowhere d "main" → getSourceFileInfo d = Panic NilDereference)
    as Hgs.
  { intros Hno. apply (proj2 (lookupFunc_nil d "main")) in Hno.
    unfold getSourceFileInfo. by rewrite Hno. }
  split_and!.
  - intros Hno. split; [exact (proj2 (lookupFunc_nil d name) Hno) | by apply Hge].
  - done.
  - split.
    + intros [entries Hok].
      destruct (lookupFunc_cases d name) as [Hnil | (mi & fi & m & f & _ & Hm & Hf & Hn)].
      * unfold getEntriesForFunction in Hok. by rewrite Hnil in Hok.
      * exists m, f. eauto using list_elem_of_lookup_2.
    + intros Hsome.
      destruct (lookupFunc_cases d name) as [Hnil | (mi & fi & m & f & Hl & Hm & Hf & Hn)].
      * exfalso. apply (Hexcl name); [|done].
        exact (proj1 (lookupFunc_nil d name) Hnil).
      * unfold getEntriesForFunction. rewrite Hl. simpl. rewrite Hm. simpl.
        rewrite Hf. simpl. eauto.
  - split.
    + intros [sourceFile Hok].
      destruct (lookupFunc_cases d "main")
        as [Hnil | (mi & fi & m & f & _ & Hm & Hf & Hn)].
      * unfold getSourceFileInfo in Hok. by rewrite Hnil in Hok.
      * exists m, f. eauto using list_elem_of_lookup_2.
    + intros Hsome.
      destruct (lookupFunc_cases d "main")
        as [Hnil | (mi & fi & m & f & Hl & Hm & Hf & Hn)].
      * exfalso. apply (Hexcl "main"); [|done].
        exact (proj1 (lookupFunc_nil d "main") Hnil).
      * unfold getSourceFileInfo. rewrite Hl. simpl. rewrite Hm. simpl.
        rewrite Hf. simpl. eauto.
Qed.

Lemma name_lookups_need_the_function_witness :
  defined_nowhere sample_index "MPI_Send" ∧
  lookupFunc sample_index "MPI_Send" = (None, None) ∧
  getEntriesForFunction sample_index "MPI_Send" = Panic NilDereference.
Proof.
  assert (defined_nowhere sample_index "MPI_Send") as Hno.
  { intros m f Hm Hf. simpl in Hm. explode_elem Hm; simpl in Hf;
      explode_elem Hf; simpl; discriminate. }
  split; [done |].
  destruct (name_lookups_need_the_function sample_index "MPI_Send") as [Hnil _].
  by apply Hnil.
Defined.

(** ** Round trip *)

Example getDwarfData_same_address :
  getDwarfData (Some raw_same_address) = Ok idx_same_address.
Proof. vm_compute. reflexivity. Qed.

(** The round trip fails on a loaded index whose line table has two statement
    rows at one address: the stored line 11 maps to 4112, and 4112 maps back
    to line 10, the first row at that address. *)
Lemma round_trip_fails_on_shared_address :
  getDwarfData (Some raw_same_address) = Ok idx_same_address ∧
  lineToPC idx_same_address "main.c" 11 = Value 4112 ∧
  (∃ fn, PCToLine idx_same_address 4112 = Value (10, "main.c", fn)) ∧
  ¬ round_trip idx_same_address.
Proof.
  split_and!.
  - vm_compute. reflexivity.
  - vm_compute. reflexivity.
  - eexists. vm_compute. reflexivity.
  - intros Hrt.
    destruct (Hrt (sample_module "main.c" 4096 4200
           [ sample_entry 4096 2 3 true; sample_entry 4112 1 10 true;
             sample_entry 4112 1 11 true; sample_entry 4128 1 12 true ]
           [ (1, "main.c"); (2, "mpi_wrap.h") ]
           [ sample_func "_MPI_WRAPPER_INCLUDE" 2 3 4096 4100;
             sample_func "main" 1 10 4112 4200 ])
        (sample_entry 4112 1 11 true)) as (a & fn & Ha & Hback).
    + apply list_elem_of_here.
    + do 2 apply list_elem_of_further. apply list_elem_of_here.
    + reflexivity.
    + vm_compute in Ha. injection Ha as <-.
      vm_compute in Hback. discriminate Hback.
Qed.

(** C1 (amended).  On an index in which every entry's file id is a key of its
    module's files, [lineToPC] succeeds on the file and line of every
    statement entry; when moreover every entry's address lies in its module's
    range and entries that share an address share line and file path,
    [PCToLine] of the returned address succeeds with that line and that file. *)
Theorem round_trip_on_unambiguous_index (d : dwarfData) :
  entry_files_are_keys d →
  (∀ m e, m ∈ modules d → e ∈ m_entries m → e_isStmt e = true →
     ∃ a, lineToPC d (files_at m (e_file e)) (e_line e) = Value a) ∧
  (addresses_inside d → address_determines_line d → round_trip d).
Proof.
  intros Hkeys.
  assert (∀ m e, m ∈ modules d → e ∈ m_entries m → e_isStmt e = true →
            ∃ mi ei m1 e1,
              first_entry d (suits (files_at m (e_file e)) (e_line e)) mi ei m1 e1 ∧
              lineToPC d (files_at m (e_file e)) (e_line e) = Value (e_address e1))
    as Hfwd.
  { intros m e Hm He Hstmt.
    destruct (proj1 (first_entry_exists d (suits (files_at m (e_file e)) (e_line e))))
      as (mi & ei & m1 & e1 & Hfe).
    { exists m, e. by repeat split. }
    exists mi, ei, m1, e1. split; [done |].
    apply lineToPC_Value; [by right | eauto 10]. }
  split.
  - intros m e Hm He Hstmt.
    destruct (Hfwd m e Hm He Hstmt) as (? & ? & ? & e1 & _ & Hv). eauto.
  - intros Hinside Hdet m e Hm He Hstmt.
    destruct (Hfwd m e Hm He Hstmt)
      as (mi & ei & m1 & e1 & (Hm1 & He1 & (Hfile & Hline & _) & _) & Hv).
    apply list_elem_of_lookup_2 in Hm1. apply list_elem_of_lookup_2 in He1.
    destruct (proj1 (first_entry_exists d (at_pc (e_address e1))))
      as (mj & ej & m2 & e2 & Hfe2).
    { exists m1, e1. split_and!; [done | done |]. split; [by apply Hinside | done]. }
    exists (e_address e1), (PCToFunc d (e_address e1)). split; [done |].
    apply PCToLine_Value. exists mj, ej, m2, e2. split; [done |].
    destruct Hfe2 as (Hm2 & He2 & [_ Haddr] & _).
    apply list_elem_of_lookup_2 in Hm2. apply list_elem_of_lookup_2 in He2.
    destruct (Hdet m2 e2 m1 e1 Hm2 He2 Hm1 He1 Haddr) as [Hl Hf].
    congruence.
Qed.

Lemma round_trip_on_unambiguous_index_witness :
  entry_files_are_keys sample_unambiguous ∧
  addresses_inside sample_unambiguous ∧
  address_determines_line sample_unambiguous ∧
  round_trip sample_unambiguous.
Proof.
  assert (entry_files_are_keys sample_unambiguous) as Hkeys.
  { intros m e Hm He. simpl in Hm. explode_elem Hm; simpl in He;
      explode_elem He; vm_compute; eauto. }
  assert (addresses_inside sample_unambiguous) as Hinside.
  { intros m e Hm He. simpl in Hm. explode_elem Hm; simpl in He;
      explode_elem He; simpl; lia. }
  assert (address_determines_line sample_unambiguous) as Hdet.
  { intros m e m' e' Hm He Hm' He'. simpl in Hm, Hm'.
    explode_elem Hm; explode_elem Hm'; simpl in He, He';
      explode_elem He; explode_elem He'; simpl; intros; (done || lia). }
  split_and!; try done.
  destruct (round_trip_on_unambiguous_index sample_unambiguous Hkeys) as [_ Hrt].
  by apply Hrt.
Defined.

(** ** Orchestrator registry *)

Lemma Register_dense pid r :
  dense r →
  dense (Register pid r).1 ∧
  len (registeredNodes (Register pid r).1) = len (registeredNodes r) + 1.
Proof.
  intros Hdense. unfold dense, Register, len in *. simpl.
  assert (registeredNodes r !! Z.of_nat (size (registeredNodes r)) = None) as Hfresh.
  { apply eq_None_not_Some. intros Hsome. apply Hdense in Hsome. lia. }
  rewrite map_size_insert_None by done. split; [|lia].
  intros k. destruct (decide (k = Z.of_nat (size (registeredNodes r)))) as [-> | Hne].
  - rewrite lookup_insert_eq. split; [lia | eauto].
  - rewrite lookup_insert_ne by done. rewrite Hdense. lia.
Qed.

(** X16.  As long as no node is removed, [Register] hands out consecutive
    ids: from a registry whose ids are 0 up to its size, a run of [Register]
    calls replies with the size, the size plus one, and so on; from the empty
    registry with 0, 1, 2, ... *)
Lemma Register_counts_without_removal pids r :
  dense r →
  (serve (CallRegister <$> pids) r).2
  = (λ i, len (registeredNodes r) + Z.of_nat i) <$> seq 0 (length pids).
Proof.
  revert r. induction pids as [|pid pids IH]; intros r Hdense; [done |].
  destruct (Register_dense pid r Hdense) as [Hdense' Hlen].
  cbn [fmap list_fmap serve length seq].
  destruct (Register pid r) as [r' id] eqn:Hreg.
  assert (id = len (registeredNodes r)) as -> by (by injection Hreg as _ <-).
  specialize (IH r' Hdense'). simpl in Hdense', Hlen.
  destruct (serve (CallRegister <$> pids) r') as [r'' ids]. simpl in *.
  rewrite IH, Hlen, Z.add_0_r. f_equal.
  rewrite <- fmap_S_seq, <- list_fmap_compose. apply list_fmap_ext.
  intros _ i _. simpl. lia.
Qed.

(** C5.  [Register] replies with [len(registeredNodes)].  After nodes 0 and 1
    have registered and node 0 has reported its exit, the map holds one node,
    so the next [Register] replies 1 again: the id is not greater than the
    ids handed out before, and the record of the live node 1 (pid 101) is
    overwritten by the newcomer (pid 102). *)
Theorem Register_repeats_id_after_removal :
  (serve calls_register_after_exit emptyRegistry).2 = [0; 1; 1] ∧
  registeredNodes (serve calls_register_after_exit emptyRegistry).1 !! 1
    = Some {| n_id := 1; n_pid := 102 |} ∧
  size (registeredNodes (serve calls_register_after_exit emptyRegistry).1) = 1%nat.
Proof. vm_compute. done. Qed.

(** ** MPI recognition *)

Lemma string_tail_Ok s rest :
  string_tail s = Ok rest ↔ s ≠ "" ∧ rest = drop_first s.
Proof.
  destruct s as [|c s]; simpl.
  - split; [done | by intros [? _]].
  - split; [by intros [= <-] | by intros [_ ->]].
Qed.

Lemma resolveMPIDebugInfo_loop_Ok mi si sigFile fns fi acc fns' out :
  resolveMPIDebugInfo_loop mi si sigFile fi fns acc = Ok (fns', out) →
  length fns' = length fns ∧
  (∀ j f, fns !! j = Some f →
     if decide (is_wrapper sigFile si (fi + j) f)
     then fn_name f ≠ "" ∧ fns' !! j = Some (set_fn_name (drop_first (fn_name f)) f)
     else fns' !! j = Some f) ∧
  (∀ p, p ∈ out ↔
     p ∈ acc ∨ ∃ j f, p = Some (mi, (fi + j)%nat) ∧ fns !! j = Some f ∧
                      is_wrapper sigFile si (fi + j) f).
Proof.
  revert fi acc fns' out. induction fns as [|f fns IH]; intros fi acc fns' out; simpl.
  - intros [= <- <-]. split_and!; [done | done |].
    intros p. split; [by left |]. by intros [? | (j & g & _ & ? & _)].
  - unfold is_wrapper in *. case_decide as Hw.
    + destruct (string_tail (fn_name f)) as [name|] eqn:Hname; [|done]. simpl.
      destruct (resolveMPIDebugInfo_loop _ _ _ _ _ _) as [[rest' out']|] eqn:Hrec;
        [|done].
      simpl. intros [= <- <-].
      apply IH in Hrec as (Hlen & Hfns & Hout).
      apply string_tail_Ok in Hname as [Hne ->].
      split_and!.
      * simpl. by rewrite Hlen.
      * intros [|j] g Hg.
        -- simpl in Hg. injection Hg as <-. rewrite Nat.add_0_r.
           by rewrite decide_True.
        -- simpl in Hg. specialize (Hfns j g Hg).
           by replace (fi + S j)%nat with (S fi + j)%nat by lia.
      * intros p. rewrite Hout, elem_of_app, list_elem_of_singleton. split.
        -- intros [[Hacc | ->] | (j & g & -> & Hg & Hwj)].
           ++ by left.
           ++ right. exists 0%nat, f. by rewrite Nat.add_0_r.
           ++ right. exists (S j), g.
              by replace (fi + S j)%nat with (S fi + j)%nat by lia.
        -- intros [Hacc | (j & g & -> & Hg & Hwj)]; [by left; left |].
           destruct j as [|j].
           ++ left; right. by rewrite Nat.add_0_r.
           ++ right. exists j, g.
              by replace (S fi + j)%nat with (fi + S j)%nat by lia.
    + destruct (resolveMPIDebugInfo_loop _ _ _ _ _ _) as [[rest' out']|] eqn:Hrec;
        [|done].
      simpl. intros [= <- <-].
      apply IH in Hrec as (Hlen & Hfns & Hout).
      split_and!.
      * simpl. by rewrite Hlen.
      * intros [|j] g Hg.
        -- simpl in Hg. injection Hg as <-. rewrite Nat.add_0_r.
           by rewrite decide_False.
        -- simpl in Hg. specialize (Hfns j g Hg).
           by replace (fi + S j)%nat with (S fi + j)%nat by lia.
      * intros p. rewrite Hout. split.
        -- intros [Hacc | (j & g & -> & Hg & Hwj)]; [by left |].
           right. exists (S j), g.
           by replace (fi + S j)%nat with (S fi + j)%nat by lia.
        -- intros [Hacc | (j & g & -> & Hg & Hwj)]; [by left |].
           destruct j as [|j].
           ++ simpl in Hg. injection Hg as <-. rewrite Nat.add_0_r in Hwj. done.
           ++ right. exists j, g.
              by replace (S fi + j)%nat with (fi + S j)%nat by lia.
Qed.

(** The loop runs to its end when every function it rewrites has a name. *)
Lemma resolveMPIDebugInfo_loop_returns mi si sigFile fns fi acc :
  (∀ j f, fns !! j = Some f → is_wrapper sigFile si (fi + j) f → fn_name f ≠ "") →
  ∃ fns' out, resolveMPIDebugInfo_loop mi si sigFile fi fns acc = Ok (fns', out).
Proof.
  revert fi acc. induction fns as [|f fns IH]; intros fi acc Hnames; simpl.
  - eauto.
  - assert (∀ acc', ∃ fns' out,
      resolveMPIDebugInfo_loop mi si sigFile (S fi) fns acc' = Ok (fns', out)) as Hrec.
    { intros acc'. apply IH. intros j g Hg Hw. apply (Hnames (S j) g); [done |].
      by replace (fi + S j)%nat with (S fi + j)%nat by lia. }
    unfold is_wrapper in *. case_decide as Hw.
    + specialize (Hnames 0%nat f eq_refl). rewrite Nat.add_0_r in Hnames.
      destruct (fn_name f) as [|c rest]; [by destruct (Hnames Hw) |]. simpl.
      destruct (Hrec (acc ++ [Some (mi, fi)])) as (fns' & out & ->). simpl. eauto.
    + destruct (Hrec acc) as (fns' & out & ->). simpl. eauto.
Qed.

Lemma resolveMPIDebugInfo_Ok d d' mpiData :
  resolveMPIDebugInfo d = Ok (d', mpiData) →
  ∃ mi si m sf fns',
    lookupFunc d MPI_FUNCS_SIGNATURE = (Some mi, Some (mi, si)) ∧
    modules d !! mi = Some m ∧ m_functions m !! si = Some sf ∧
    resolveMPIDebugInfo_loop mi si (fn_file sf) 0 (m_functions m) []
      = Ok (fns', mpi_functions mpiData) ∧
    d' = set_modules (<[mi := set_m_functions fns' m]> (modules d)) d ∧
    mpi_file mpiData = files_at m (fn_file sf).
Proof.
  unfold resolveMPIDebugInfo.
  destruct (lookupFunc_cases d MPI_FUNCS_SIGNATURE)
    as [-> | (mi & si & m & sf & -> & Hm & Hsf & _)]; [done |].
  simpl. rewrite Hm. simpl. rewrite Hsf. simpl.
  destruct (resolveMPIDebugInfo_loop _ _ _ _ _ _) as [[fns' out]|] eqn:Hloop; [|done].
  simpl. intros [= <- <-]. exists mi, si, m, sf, fns'. done.
Qed.

Lemma drop_first_underscore (s : string) :
  (∃ rest, s = String "_"%char rest) → drop_first s = strip_leading_underscore s.
Proof. by intros [rest ->]. Qed.

Example getDwarfData_loop_two_units :
  getDwarfData_loop initialCursor (rd_entries raw_two_units)
  = Ok {| data := idx_two_units_parsed; currentModule := Some 1%nat;
          currentFunction := Some (1%nat, 2%nat) |}.
Proof. vm_compute. reflexivity. Qed.

Example getDwarfData_two_units : getDwarfData (Some raw_two_units) = Ok idx_two_units.
Proof. vm_compute. reflexivity. Qed.

(** On the index of a program of two wrapped source files the recognized set
    is not the set of all functions of the wrapper file: the wrapper
    functions of the second compile unit, whose file path is also the
    wrapper header, are not in it. *)
Lemma recognition_misses_other_modules :
  resolveMPIDebugInfo idx_two_units_parsed
    = Ok (set_modules (modules idx_two_units) idx_two_units_parsed, mpi_two_units) ∧
  ¬ recognizes_same_file_functions idx_two_units_parsed mpi_two_units.
Proof.
  split; [vm_compute; reflexivity |].
  intros (mi & si & m & sf & Hl & Hm & Hsf & Hset).
  assert (mi = 0%nat ∧ si = 0%nat) as [-> ->].
  { vm_compute in Hl. by simplify_eq. }
  assert (m = two_units_module_a "_MPI_Send") as -> by (simpl in Hm; congruence).
  assert (sf = sample_func "_MPI_WRAPPER_INCLUDE" 2 3 4096 4100) as ->
    by (simpl in Hsf; congruence).
  assert (Some (1%nat, 1%nat) ∈ mpi_functions mpi_two_units) as Hin.
  { apply Hset. exists 1%nat, 1%nat, two_units_module_b,
      (sample_func "_MPI_Send" 2 57 8208 8224).
    split_and!; [done | done | done | vm_compute; reflexivity | discriminate]. }
  simpl in Hin. apply list_elem_of_singleton in Hin. discriminate Hin.
Qed.

(** C2 (amended).  On an index that contains the signature function, and in
    which every function to rewrite has a name, [resolveMPIDebugInfo] returns;
    the set of functions it returns is the set of the functions of the
    signature function's module (the first module that defines it) whose
    file id is the signature function's file id, the signature function
    object itself excluded; each of them is stored with the first character
    of its name removed (the leading underscore when it has one); and the
    file field is that module's path for the signature function's file id. *)
Theorem resolveMPIDebugInfo_recognizes_module_wrappers (d : dwarfData) :
  defined_somewhere d MPI_FUNCS_SIGNATURE → wrappers_named d →
  ∃ d' mpiData mi si m sf,
    resolveMPIDebugInfo d = Ok (d', mpiData) ∧
    lookupFunc d MPI_FUNCS_SIGNATURE = (Some mi, Some (mi, si)) ∧
    modules d !! mi = Some m ∧ m_functions m !! si = Some sf ∧
    (∀ p, p ∈ mpi_functions mpiData ↔
       ∃ j f, p = Some (mi, j) ∧ m_functions m !! j = Some f ∧
              is_wrapper (fn_file sf) si j f) ∧
    (∀ j f, m_functions m !! j = Some f → is_wrapper (fn_file sf) si j f →
       deref_func d' (Some (mi, j)) = Ok (set_fn_name (drop_first (fn_name f)) f) ∧
       (∀ rest, fn_name f = String "_"%char rest →
          drop_first (fn_name f) = strip_leading_underscore (fn_name f))) ∧
    mpi_file mpiData = files_at m (fn_file sf).
Proof.
  intros (m0 & f0 & Hm0 & Hf0 & Hn0) Hnamed.
  destruct (lookupFunc_cases d MPI_FUNCS_SIGNATURE)
    as [Hnil | (mi & si & m & sf & Hl & Hm & Hsf & _)].
  { exfalso. by apply (proj1 (lookupFunc_nil d MPI_FUNCS_SIGNATURE) Hnil m0 f0). }
  destruct (resolveMPIDebugInfo_loop_returns mi si (fn_file sf) (m_functions m) 0 [])
    as (fns' & out & Hloop).
  { intros j f Hf Hw. by eapply (Hnamed mi si m sf j f). }
  exists (set_modules (<[mi := set_m_functions fns' m]> (modules d)) d),
    {| mpi_functions := out; mpi_file := files_at m (fn_file sf) |}, mi, si, m, sf.
  apply resolveMPIDebugInfo_loop_Ok in Hloop as Hspec.
  destruct Hspec as (Hlen & Hfns & Hout).
  split_and!; try done.
  - unfold resolveMPIDebugInfo. rewrite Hl. simpl. rewrite Hm. simpl.
    rewrite Hsf. simpl. by rewrite Hloop.
  - intros p. simpl. rewrite Hout. split.
    + intros [Hnil | ?]; [by apply elem_of_nil in Hnil | done].
    + by right.
  - intros j f Hf Hw. split.
    + specialize (Hfns j f Hf). simpl in Hfns.
      rewrite decide_True in Hfns by done. destruct Hfns as [_ Hj].
      simpl. rewrite list_lookup_insert_eq by (by eapply lookup_lt_Some).
      simpl. by rewrite Hj.
    + intros rest Hrest. apply drop_first_underscore. eauto.
Qed.

Lemma resolveMPIDebugInfo_recognizes_module_wrappers_witness :
  defined_somewhere idx_two_units_parsed MPI_FUNCS_SIGNATURE ∧
  wrappers_named idx_two_units_parsed ∧
  ∃ d' mpiData, resolveMPIDebugInfo idx_two_units_parsed = Ok (d', mpiData).
Proof.
  assert (defined_somewhere idx_two_units_parsed MPI_FUNCS_SIGNATURE) as Hsig.
  { exists (two_units_module_a "_MPI_Send"),
      (sample_func "_MPI_WRAPPER_INCLUDE" 2 3 4096 4100).
    split_and!; [apply list_elem_of_here | apply list_elem_of_here | done]. }
  assert (wrappers_named idx_two_units_parsed) as Hnamed.
  { intros mi si m sf j f Hl Hm Hsf Hf Hw.
    assert (mi = 0%nat ∧ si = 0%nat) as [-> ->].
    { vm_compute in Hl. by simplify_eq. }
    assert (m = two_units_module_a "_MPI_Send") as -> by (simpl in Hm; congruence).
    destruct j as [|[|[|j]]]; simpl in Hf; simplify_eq; done. }
  split_and!; [done | done |].
  destruct (resolveMPIDebugInfo_recognizes_module_wrappers idx_two_units_parsed
              Hsig Hnamed) as (d' & mpiData & _ & _ & _ & _ & Hret & _).
  eauto.
Defined.

(** ** Names after MPI recognition *)

Lemma getDwarfData_Ok raw d' :
  getDwarfData (Some raw) = Ok d' →
  ∃ c d1 mpiData,
    getDwarfData_loop initialCursor (rd_entries raw) = Ok c ∧
    resolveMPIDebugInfo (data c) = Ok (d1, mpiData) ∧ d' = set_mpi mpiData d1.
Proof.
  unfold getDwarfData, initialCursor.
  destruct (getDwarfData_loop _ _) as [c|] eqn:Hloop; [|done]. simpl.
  destruct (rd_error raw); [done |].
  destruct (resolveMPIDebugInfo (data c)) as [[d1 mpiData]|] eqn:Hres; [|done].
  simpl. intros [= <-]. eauto 10.
Qed.

(** The functions of the index after [resolveMPIDebugInfo], position by
    position: a rewritten function has lost the first character of its name,
    every other function is unchanged. *)
Lemma resolveMPIDebugInfo_functions d d' mpiData i k m' g' :
  resolveMPIDebugInfo d = Ok (d', mpiData) →
  modules d' !! i = Some m' → m_functions m' !! k = Some g' →
  ∃ m g, modules d !! i = Some m ∧ m_functions m !! k = Some g ∧
    ((rewritten d i k g ∧ g' = set_fn_name (drop_first (fn_name g)) g) ∨
     (¬ rewritten d i k g ∧ g' = g)).
Proof.
  intros (mi & si & m & sf & fns' & Hl & Hm & Hsf & Hloop & -> & _)%resolveMPIDebugInfo_Ok.
  apply resolveMPIDebugInfo_loop_Ok in Hloop as (Hlen & Hfns & _).
  simpl. intros Hm' Hg'.
  destruct (decide (i = mi)) as [-> | Hne].
  - rewrite list_lookup_insert_eq in Hm' by (by eapply lookup_lt_Some).
    injection Hm' as <-. simpl in Hg'.
    assert (is_Some (m_functions m !! k)) as [g Hg].
    { apply lookup_lt_is_Some. rewrite <- Hlen. by eapply lookup_lt_Some. }
    exists m, g. split_and!; [done | done |].
    specialize (Hfns k g Hg). simpl in Hfns. case_decide as Hw.
    + left. destruct Hfns as [_ Hk]. split; [|congruence].
      exists si, m, sf. done.
    + right. split; [|congruence].
      intros (si' & m1 & sf1 & Hl1 & Hm1 & Hsf1 & Hg1 & Hw1).
      rewrite Hl in Hl1. simplify_eq. done.
  - rewrite list_lookup_insert_ne in Hm' by done.
    exists m', g'. split_and!; [done | done |]. right. split; [|done].
    intros (si' & m1 & sf1 & Hl1 & _). rewrite Hl in Hl1. simplify_eq.
Qed.

Example getDwarfData_loop_wrapped :
  getDwarfData_loop initialCursor (rd_entries raw_wrapped)
  = Ok {| data := idx_wrapped_parsed; currentModule := Some 0%nat;
          currentFunction := Some (0%nat, 3%nat) |}.
Proof. vm_compute. reflexivity. Qed.

Example getDwarfData_wrapped : getDwarfData (Some raw_wrapped) = Ok idx_wrapped.
Proof. vm_compute. reflexivity. Qed.

(** On the index of a program of two wrapped source files, the original name
    of the rewritten [_MPI_Send] still resolves after [getDwarfData]: to the
    function of that name in the second compile unit, which is not rewritten. *)
Lemma original_name_still_resolves :
  getDwarfData_loop initialCursor (rd_entries raw_two_units)
    = Ok {| data := idx_two_units_parsed; currentModule := Some 1%nat;
            currentFunction := Some (1%nat, 2%nat) |} ∧
  getDwarfData (Some raw_two_units) = Ok idx_two_units ∧
  lookupFunc idx_two_units "_MPI_Send" = (Some 1%nat, Some (1%nat, 1%nat)) ∧
  ¬ stripping_renames_in_place idx_two_units_parsed idx_two_units.
Proof.
  split_and!; try (vm_compute; reflexivity).
  intros (mi & si & m & sf & Hl & Hm & Hsf & Hall).
  assert (mi = 0%nat ∧ si = 0%nat) as [-> ->].
  { vm_compute in Hl. by simplify_eq. }
  assert (m = two_units_module_a "_MPI_Send") as -> by (simpl in Hm; congruence).
  assert (sf = sample_func "_MPI_WRAPPER_INCLUDE" 2 3 4096 4100) as ->
    by (simpl in Hsf; congruence).
  destruct (Hall 1%nat (sample_func "_MPI_Send" 2 57 4112 4128))
    as (_ & _ & Hnil & _); [done | done |].
  vm_compute in Hnil. discriminate Hnil.
Qed.

(** C10 (amended).  After [getDwarfData] returns, every function of the
    signature function's module that has the signature function's file id,
    the signature function itself excluded, is stored in the index under its
    original name without the first character, whatever that character is,
    and is listed in the MPI data.  When the function names of the parsed
    index are pairwise distinct, the rewritten names start with an underscore
    and no function is named like a rewritten one without its first
    character, [lookupFunc] returns nil on the original name and resolves the
    stripped name to that very function object. *)
Theorem getDwarfData_renames_wrappers_in_place (raw : rawData) (c : cursor)
    (d' : dwarfData) :
  getDwarfData_loop initialCursor (rd_entries raw) = Ok c →
  getDwarfData (Some raw) = Ok d' →
  (∀ mi j f, rewritten (data c) mi j f →
     fn_name f ≠ "" ∧
     deref_func d' (Some (mi, j)) = Ok (set_fn_name (drop_first (fn_name f)) f) ∧
     Some (mi, j) ∈ mpi_functions (mpi d')) ∧
  (names_distinct (data c) → wrappers_underscored (data c) →
   stripped_names_fresh (data c) →
   stripping_renames_in_place (data c) d').
Proof.
  intros Hc (c' & d1 & mpiData & Hc' & Hres & ->)%getDwarfData_Ok.
  assert (c' = c) as -> by congruence.
  pose proof Hres as (mi & si & m & sf & fns' & Hl & Hm & Hsf & Hloop & Hd1 & _)
    %resolveMPIDebugInfo_Ok.
  apply resolveMPIDebugInfo_loop_Ok in Hloop as (Hlen & Hfns & Hout).
  assert (∀ mi' j f, rewritten (data c) mi' j f →
     fn_name f ≠ "" ∧
     deref_func (set_mpi mpiData d1) (Some (mi', j))
       = Ok (set_fn_name (drop_first (fn_name f)) f) ∧
     Some (mi', j) ∈ mpi_functions mpiData) as Hrew.
  { intros mi' j f (si' & m1 & sf1 & Hl1 & Hm1 & Hsf1 & Hf & Hw).
    rewrite Hl in Hl1. simplify_eq.
    specialize (Hfns j f Hf). simpl in Hfns. rewrite decide_True in Hfns by done.
    destruct Hfns as [Hne Hj]. split_and!; [done | |].
    - simpl. rewrite list_lookup_insert_eq by (by eapply lookup_lt_Some).
      simpl. by rewrite Hj.
    - apply Hout. right. exists j, f. done. }
  split; [done |].
  intros Hdistinct Hunder Hfresh.
  exists mi, si, m, sf. split_and!; try done.
  intros j f Hf Hw.
  assert (rewritten (data c) mi j f) as Hr by (exists si, m, sf; done).
  destruct (Hrew mi j f Hr) as (Hne & Hderef & Hlisted).
  split_and!; [done | done | |].
  - apply lookupFunc_nil. intros m' g' Hm' Hg'.
    apply list_elem_of_lookup_1 in Hm' as [i Hm'].
    apply list_elem_of_lookup_1 in Hg' as [k Hg'].
    destruct (resolveMPIDebugInfo_functions _ _ _ i k m' g' Hres Hm' Hg')
      as (mo & g & Hmo & Hg & [[Hrg ->] | [Hrg ->]]); simpl.
    + intros Heq. by eapply (Hfresh i k g mi j m f).
    + intros Heq.
      destruct (Hdistinct i k mo g mi j m f Hmo Hg Hm Hf Heq) as [-> ->].
      assert (mo = m) as -> by congruence.
      assert (g = f) as -> by congruence.
      done.
  - apply lookupFunc_Some.
    simpl in Hderef. destruct (modules d1 !! mi) as [m1|] eqn:Hm1; [|done].
    destruct (m_functions m1 !! j) as [f1|] eqn:Hf1; [|done].
    injection Hderef as ->.
    exists m1, (set_fn_name (drop_first (fn_name f)) f). split_and!; try done.
    intros mj fj m' g' Hbefore Hm' Hg'.
    destruct (resolveMPIDebugInfo_functions _ _ _ mj fj m' g' Hres Hm' Hg')
      as (mo & g & Hmo & Hg & [[Hrg ->] | [Hrg ->]]); simpl.
    + intros Heq.
      destruct (Hunder _ _ _ Hrg) as [rest Hrest].
      destruct (Hunder _ _ _ Hr) as [rest' Hrest'].
      rewrite Hrest, Hrest' in Heq. simpl in Heq. subst rest'.
      destruct (Hdistinct mj fj mo g mi j m f Hmo Hg Hm Hf) as [-> ->];
        [congruence |].
      destruct Hbefore as [? | [_ ?]]; lia.
    + by eapply (Hfresh mi j f mj fj mo g).
Qed.

Ltac pin_lookup H :=
  simpl in H;
  repeat match type of H with
         | (_ :: _) !! ?i = Some _ => destruct i as [|i]; simpl in H
         | [] !! _ = Some _ => by rewrite lookup_nil in H
         end.

Lemma rewritten_wrapped mi j f :
  rewritten idx_wrapped_parsed mi j f →
  mi = 0%nat ∧
  ((j = 1%nat ∧ f = sample_func "_MPI_Send" 2 57 4112 4144) ∨
   (j = 2%nat ∧ f = sample_func "_MPI_Recv" 2 64 4144 4176)).
Proof.
  intros (si & m & sf & Hl & Hm & Hsf & Hf & [Hfile Hj]).
  assert (mi = 0%nat ∧ si = 0%nat) as [-> ->].
  { vm_compute in Hl. by simplify_eq. }
  simpl in Hm. injection Hm as <-. simpl in Hsf. injection Hsf as <-.
  split; [done |].
  pin_lookup Hf; simplify_eq; eauto; try done.
Qed.

Lemma getDwarfData_renames_wrappers_in_place_witness :
  getDwarfData_loop initialCursor (rd_entries raw_wrapped)
    = Ok {| data := idx_wrapped_parsed; currentModule := Some 0%nat;
            currentFunction := Some (0%nat, 3%nat) |} ∧
  getDwarfData (Some raw_wrapped) = Ok idx_wrapped ∧
  names_distinct idx_wrapped_parsed ∧
  wrappers_underscored idx_wrapped_parsed ∧
  stripped_names_fresh idx_wrapped_parsed ∧
  stripping_renames_in_place idx_wrapped_parsed idx_wrapped.
Proof.
  assert (names_distinct idx_wrapped_parsed) as Hdistinct.
  { intros i k m g i' k' m' g' Hm Hg Hm' Hg' Hn.
    pin_lookup Hm. pin_lookup Hm'. simplify_eq.
    pin_lookup Hg; pin_lookup Hg'; simplify_eq; done. }
  assert (wrappers_underscored idx_wrapped_parsed) as Hunder.
  { intros mi j f [_ [[_ ->] | [_ ->]]]%rewritten_wrapped; simpl; eauto. }
  assert (stripped_names_fresh idx_wrapped_parsed) as Hfresh.
  { intros mi j f i k m g [_ [[_ ->] | [_ ->]]]%rewritten_wrapped Hm Hg;
      pin_lookup Hm; simplify_eq; pin_lookup Hg; simplify_eq; done. }
  assert (getDwarfData_loop initialCursor (rd_entries raw_wrapped)
    = Ok {| data := idx_wrapped_parsed; currentModule := Some 0%nat;
            currentFunction := Some (0%nat, 3%nat) |}) as Hloop
    by (vm_compute; reflexivity).
  assert (getDwarfData (Some raw_wrapped) = Ok idx_wrapped) as Hget
    by (vm_compute; reflexivity).
  split_and!; try done.
  destruct (getDwarfData_renames_wrappers_in_place raw_wrapped _ _ Hloop Hget)
    as [_ Hplace].
  by apply Hplace.
Defined.

(** ** The loop of [getDwarfData] *)

(** What one turn of the loop does to the module list: a compile unit appends
    the parsed module, which becomes current; the other tags leave the list
    as it is or replace one module by a state of the same frame whose
    function list is unchanged, or has one function more (a subprogram, in
    the current module), or has one function with one parameter more. *)
Lemma getDwarfData_entry_shape c e c' :
  getDwarfData_entry c e = Ok c' →
  (en_Tag e = TagCompileUnit ∧ ∃ m,
     parseModule e = Ok m ∧ modules (data c') = modules (data c) ++ [m] ∧
     currentModule c' = Some (length (modules (data c)))) ∨
  (en_Tag e ≠ TagCompileUnit ∧ currentModule c' = currentModule c ∧
   (modules (data c') = modules (data c) ∨
    ∃ mi m m', modules (data c) !! mi = Some m ∧
      modules (data c') = <[mi := m']> (modules (data c)) ∧ same_frame m m' ∧
      (m_functions m' = m_functions m ∨
       (en_Tag e = TagSubprogram ∧ currentModule c = Some mi ∧
        ∃ f, parseFunction e = Ok f ∧ m_functions m' = m_functions m ++ [f]) ∨
       (∃ fi f p, m_functions m !! fi = Some f ∧
          m_functions m' = <[fi := add_fn_parameter p f]> (m_functions m))))).
Proof.
  unfold getDwarfData_entry. destruct (en_Tag e) eqn:Htag.
  - (* base type *)
    destruct (assert_string _) as [name|]; [|done]. simpl.
    destruct (assert_int64 (entry_Val e AttrByteSize)) as [byteSize|]; [|done]. simpl.
    destruct (assert_int64 (entry_Val e AttrEncoding)) as [encoding|]; [|done]. simpl.
    intros [= <-]. right. simpl. eauto.
  - (* compile unit *)
    destruct (parseModule e) as [m|]; [|done]. simpl.
    intros [= <-]. left. simpl. eauto.
  - (* subprogram *)
    destruct (parseFunction e) as [f|]; [|done]. simpl.
    destruct (currentModule c) as [mi|] eqn:Hcur; [|done]. simpl.
    destruct (modules (data c) !! mi) as [m|] eqn:Hm; [|done]. simpl.
    intros [= <-]. right. simpl. split_and!; [done | done |]. right.
    exists mi, m, (set_m_functions (m_functions m ++ [f]) m).
    split_and!; [done | done | done |]. right; left. eauto.
  - (* formal parameter *)
    destruct (parseFunctionParameter e (data c)) as [p|]; [|done]. simpl.
    destruct (currentFunction c) as [[mi fi]|] eqn:Hcur; [|done]. simpl.
    destruct (modules (data c) !! mi) as [m|] eqn:Hm; [|done]. simpl.
    destruct (m_functions m !! fi) as [f|] eqn:Hf; [|done]. simpl.
    intros [= <-]. right. simpl. split_and!; [done | done |]. right.
    exists mi, m,
      (set_m_functions (<[fi := add_fn_parameter p f]> (m_functions m)) m).
    split_and!; [done | done | done |]. right; right. eauto.
  - (* variable *)
    destruct (assert_Offset _) as [o|]; [|done]. simpl.
    destruct (assert_string _) as [name|]; [|done]. simpl.
    destruct (match entry_Val e AttrLocation with VNil => _ | _ => _ end)
      as [loc|]; [|done]. simpl.
    destruct (currentModule c) as [mi|] eqn:Hcur; [|done]. simpl.
    destruct (modules (data c) !! mi) as [m|] eqn:Hm; [|done]. simpl.
    intros [= <-]. right. simpl. split_and!; [done | done |]. right.
    eexists mi, m, _. split_and!; [done | done | done |]. by left.
  - intros [= <-]. right. eauto.
Qed.

Lemma parseModule_Ok e m :
  parseModule e = Ok m →
  ∃ name r lr dEntries,
    first_range e = Ok r ∧ en_LineReader e = Some lr ∧
    parseModule_rows (parseModule_files 0 (lr_Files lr) (∅, ∅)).2 (lr_rows lr)
      = Ok dEntries ∧
    m = {| m_name := name; m_startAddress := r.1; m_endAddress := r.2;
           m_entries := dEntries;
           m_files := (parseModule_files 0 (lr_Files lr) (∅, ∅)).1;
           m_functions := []; m_variables := [] |}.
Proof.
  unfold parseModule.
  destruct (parseModule_fields _ _) as [name|]; [|done]. simpl.
  destruct (first_range e) as [r|] eqn:Hr; [|done]. simpl.
  destruct (en_LineReader e) as [lr|] eqn:Hlr; [|done].
  destruct (parseModule_files 0 (lr_Files lr) (∅, ∅)) as [files idx] eqn:Hfiles.
  destruct (parseModule_rows idx (lr_rows lr)) as [dEntries|] eqn:Hrows; [|done].
  simpl. intros [= <-]. exists name, r, lr, dEntries. rewrite Hfiles. done.
Qed.

Lemma same_frame_refl m : same_frame m m.
Proof. by repeat split. Qed.

Section modules_satisfy.
Context (PM : dwarfModule → Prop) (PF : dwarfModule → dwarfFunc → Prop).
Hypothesis PM_frame : ∀ m m', same_frame m m' → PM m → PM m'.
Hypothesis PF_frame : ∀ m m' f, same_frame m m' → PF m f → PF m' f.
Hypothesis PF_parameter : ∀ m f p, PF m f → PF m (add_fn_parameter p f).
Hypothesis PF_name : ∀ m f s, PF m f → PF m (set_fn_name s f).

Lemma modules_satisfy_replace ms mi m m' :
  modules_satisfy PM PF ms → ms !! mi = Some m → same_frame m m' →
  (Forall (PF m) (m_functions m) → Forall (PF m) (m_functions m')) →
  modules_satisfy PM PF (<[mi := m']> ms).
Proof.
  intros Hms Hm Hframe Hfns. apply Forall_insert; [done |].
  destruct (proj1 (Forall_lookup _ _) Hms mi m Hm) as [HPM HPF].
  split; [by eapply PM_frame |].
  eapply Forall_impl; [by apply Hfns |]. intros f. by apply PF_frame.
Qed.

Lemma getDwarfData_entry_preserves c e c' :
  getDwarfData_entry c e = Ok c' →
  (∀ m, en_Tag e = TagCompileUnit → parseModule e = Ok m → PM m) →
  (∀ mi m f, en_Tag e = TagSubprogram → currentModule c = Some mi →
     modules (data c) !! mi = Some m → parseFunction e = Ok f → PF m f) →
  modules_satisfy PM PF (modules (data c)) →
  modules_satisfy PM PF (modules (data c')).
Proof.
  intros Hstep Hcu Hsp Hms.
  destruct (getDwarfData_entry_shape _ _ _ Hstep)
    as [(Htag & m & Hparse & -> & _)
       | (_ & _ & [-> | (mi & m & m' & Hm & -> & Hframe & Hfns)])].
  - apply Forall_app. split; [done |]. apply Forall_singleton.
    split; [by apply Hcu |].
    apply parseModule_Ok in Hparse as (? & ? & ? & ? & _ & _ & _ & ->).
    simpl. constructor.
  - done.
  - eapply modules_satisfy_replace; [done | done | done |].
    intros HPF.
    destruct Hfns as [-> | [(Htag & Hcur & f & Hparse & ->)
                           | (fi & f & p & Hf & ->)]].
    + done.
    + apply Forall_app. split; [done |]. apply Forall_singleton. by eapply Hsp.
    + apply Forall_insert; [done |]. apply PF_parameter.
      by apply (proj1 (Forall_lookup _ _) HPF fi f).
Qed.

Lemma resolveMPIDebugInfo_preserves d d' mpiData :
  resolveMPIDebugInfo d = Ok (d', mpiData) →
  modules_satisfy PM PF (modules d) → modules_satisfy PM PF (modules d').
Proof.
  intros Hres Hms.
  pose proof Hres as (mi & si & m & sf & fns' & _ & Hm & _ & Hloop & -> & _)
    %resolveMPIDebugInfo_Ok.
  apply resolveMPIDebugInfo_loop_Ok in Hloop as (Hlen & Hfns & _).
  simpl. eapply modules_satisfy_replace; [done | done | by repeat split |].
  simpl. intros HPF. apply Forall_lookup. intros j f' Hf'.
  assert (is_Some (m_functions m !! j)) as [f Hf].
  { apply lookup_lt_is_Some. rewrite <- Hlen. by eapply lookup_lt_Some. }
  pose proof (proj1 (Forall_lookup _ _) HPF j f Hf) as HPFf.
  specialize (Hfns j f Hf). case_decide.
  - destruct Hfns as [_ Hj]. rewrite Hj in Hf'. injection Hf' as <-.
    by apply PF_name.
  - congruence.
Qed.
End modules_satisfy.

(** An invariant of the loop of [getDwarfData]: it holds of the initial
    cursor and every turn carries it from the entries seen so far to one more. *)
Lemma getDwarfData_loop_invariant (I : list Entry → cursor → Prop)
    (all : list Entry) :
  (∀ seen e rest c c', all = seen ++ e :: rest → I seen c →
     getDwarfData_entry c e = Ok c' → I (seen ++ [e]) c') →
  ∀ c0 c', I [] c0 → getDwarfData_loop c0 all = Ok c' → I all c'.
Proof.
  intros Hstep.
  assert (∀ rest seen c c', all = seen ++ rest → I seen c →
            getDwarfData_loop c rest = Ok c' → I all c') as Hgen.
  { induction rest as [|e rest IH]; intros seen c c' Hall HI; simpl.
    - intros [= <-]. by rewrite Hall, app_nil_r.
    - destruct (getDwarfData_entry c e) as [c1|] eqn:He; [|done]. simpl.
      apply (IH (seen ++ [e])).
      + by rewrite <- app_assoc.
      + by eapply Hstep. }
  intros c0 c'. by apply (Hgen all []).
Qed.

(** ** Line adjustment *)










(** ** Module invariant *)

Example getDwarfData_split_unit :
  getDwarfData (Some raw_split_unit) = Ok idx_split_unit.
Proof. vm_compute. reflexivity. Qed.

(** A compile unit with two address ranges keeps the first one as the
    module's range; [main], placed in the second range, lies outside it. *)
Lemma function_outside_module_range :
  getDwarfData (Some raw_split_unit) = Ok idx_split_unit ∧
  ¬ module_invariant idx_split_unit.
Proof.
  split; [vm_compute; reflexivity |].
  intros [_ Hinside].
  specialize (Hinside split_unit_module (sample_func "main" 1 4 8192 8300)).
  destruct (Hinside ltac:(apply list_elem_of_here)
              ltac:(apply list_elem_of_further, list_elem_of_here) 8192) as [_ Hle].
  - simpl. lia.
  - simpl in Hle. lia.
Qed.

Lemma parseModule_files_spec l i acc :
  (∀ name z, acc.2 !! name = Some z → acc.1 !! z = Some name ∧ z < Z.of_nat i) →
  (∀ name z, (parseModule_files i l acc).2 !! name = Some z →
             (parseModule_files i l acc).1 !! z = Some name) ∧
  (∀ name, Some name ∈ l → is_Some ((parseModule_files i l acc).2 !! name)) ∧
  (∀ name, is_Some (acc.2 !! name) → is_Some ((parseModule_files i l acc).2 !! name)).
Proof.
  revert i acc. induction l as [|file l IH]; intros i acc Hacc; simpl.
  - split_and!; [| by intros name Hin%elem_of_nil | done].
    intros name z Hz. by destruct (Hacc name z Hz).
  - destruct file as [Name|].
    + destruct (IH (S i) (<[Z.of_nat i := Name]> acc.1, <[Name := Z.of_nat i]> acc.2))
        as (Hinv & Hcov & Hkeep).
      { simpl. intros name z. destruct (decide (Name = name)) as [-> | Hne].
        - rewrite lookup_insert_eq. intros [= <-]. rewrite lookup_insert_eq.
          split; [done | lia].
        - rewrite lookup_insert_ne by done. intros Hz.
          destruct (Hacc name z Hz) as [Hf Hlt].
          rewrite lookup_insert_ne by lia. split; [done | lia]. }
      split_and!; [done | |].
      * intros name [[= <-] | Hin]%elem_of_cons; [|by apply Hcov].
        apply Hkeep. simpl. rewrite lookup_insert_eq. eauto.
      * intros name Hsome. apply Hkeep. simpl.
        destruct (decide (Name = name)) as [-> | Hne].
        -- rewrite lookup_insert_eq. eauto.
        -- by rewrite lookup_insert_ne.
    + destruct (IH (S i) acc) as (Hinv & Hcov & Hkeep).
      { intros name z Hz. destruct (Hacc name z Hz). split; [done | lia]. }
      split_and!; [done | | done].
      intros name [[=] | Hin]%elem_of_cons. by apply Hcov.
Qed.

Lemma parseModule_rows_files idx rows dEntries :
  parseModule_rows idx rows = Ok dEntries →
  ∀ e, e ∈ dEntries →
    ∃ le name, le ∈ rows ∧ le_File le = Some name ∧
               e_file e = default 0 (idx !! name).
Proof.
  revert dEntries. induction rows as [|le rows IH]; intros dEntries; simpl.
  - intros [= <-] e He. by apply elem_of_nil in He.
  - unfold parseModule_row. destruct (le_File le) as [Name|] eqn:Hfile; [|done].
    simpl. destruct (parseModule_rows idx rows) as [rest|]; [|done]. simpl.
    intros [= <-] e [-> | He]%elem_of_cons.
    + exists le, Name. split_and!; [apply list_elem_of_here | done | done].
    + destruct (IH rest eq_refl e He) as (le' & name & Hin & Hf & He').
      exists le', name. split_and!; [by apply list_elem_of_further | done | done].
Qed.

Lemma parseModule_files_keys cu m :
  rows_name_listed_files cu → parseModule cu = Ok m →
  ∀ e, e ∈ m_entries m → is_Some (m_files m !! e_file e).
Proof.
  intros Hlisted (name & r & lr & dEntries & _ & Hlr & Hrows & ->)%parseModule_Ok.
  simpl. intros e He.
  destruct (parseModule_rows_files _ _ _ Hrows e He) as (le & fname & Hle & Hfile & ->).
  destruct (parseModule_files_spec (lr_Files lr) 0 (∅, ∅)) as (Hinv & Hcov & _).
  { simpl. intros ? ? Hempty. by rewrite lookup_empty in Hempty. }
  destruct (Hcov fname) as [z Hz]; [by eapply Hlisted |].
  rewrite Hz. simpl. apply Hinv in Hz. eauto.
Qed.

Lemma current_cu_snoc seen e :
  current_cu (seen ++ [e]) =
  if decide (en_Tag e = TagCompileUnit) then Some e else current_cu seen.
Proof.
  unfold current_cu. rewrite filter_app, filter_cons, filter_nil.
  case_decide; [by rewrite last_snoc | by rewrite app_nil_r].
Qed.

Lemma parseFunction_range sp f :
  parseFunction sp = Ok f → first_range sp = Ok (fn_lowPC f, fn_highPC f).
Proof.
  unfold parseFunction.
  destruct (parseFunction_fields emptyFunc (en_Field sp)) as [f1|]; [|done]. simpl.
  destruct (first_range sp) as [[lo hi]|]; [|done]. simpl. by intros [= <-].
Qed.

Lemma parseModule_range cu m :
  parseModule cu = Ok m → first_range cu = Ok (m_startAddress m, m_endAddress m).
Proof.
  intros (name & [lo hi] & lr & dEntries & Hr & _ & _ & ->)%parseModule_Ok. done.
Qed.

(** C7 (amended).  [getDwarfData] stores what the DWARF reader yields without
    checking it: in every index it produces, every entry's file is a key of
    its module's files map provided every row's file is one of the files of
    its compile unit's file table, and every function's [lowPC, highPC) lies
    inside its module's [startAddress, endAddress] provided the first range
    of every subprogram lies inside the first range of its compile unit. *)
Theorem getDwarfData_module_invariant (raw : rawData) (d : dwarfData) :
  getDwarfData (Some raw) = Ok d →
  ((∀ cu, cu ∈ rd_entries raw → en_Tag cu = TagCompileUnit →
      rows_name_listed_files cu) → entry_files_are_keys d) ∧
  (subprograms_nested (rd_entries raw) → functions_inside d).
Proof.
  intros (c & d1 & mpiData & Hloop & Hres & ->)%getDwarfData_Ok.
  split.
  - intros Hlisted.
    set (PM := λ m, ∀ e, e ∈ m_entries m → is_Some (m_files m !! e_file e)).
    set (PF := λ (m : dwarfModule) (f : dwarfFunc), True).
    assert (∀ m m', same_frame m m' → PM m → PM m') as PM_frame.
    { intros m m' (_ & _ & _ & He & Hf) HPM e. rewrite He, Hf. apply HPM. }
    assert (modules_satisfy PM PF (modules d1)) as Hall.
    { apply (resolveMPIDebugInfo_preserves PM PF PM_frame)
        with (d := data c) (mpiData := mpiData); [done | done | done |].
      apply (getDwarfData_loop_invariant
               (λ _ c, modules_satisfy PM PF (modules (data c)))
               (rd_entries raw)) with (c0 := initialCursor); [| constructor | done].
      intros seen e rest c0 c1 Hsplit HI Hstep.
      assert (e ∈ rd_entries raw) as Hin by (rewrite Hsplit; set_solver).
      apply (getDwarfData_entry_preserves PM PF PM_frame)
        with (c := c0) (e := e); [done | done | done | | done | done].
      intros m Htag Hparse. unfold PM.
      eapply parseModule_files_keys; [by apply Hlisted | done]. }
    intros m e Hm He. simpl in Hm.
    destruct (proj1 (Forall_forall _ _) Hall m Hm) as [HPM _]. by apply HPM.
  - intros Hnested.
    set (PM := λ m : dwarfModule, True).
    set (PF := λ (m : dwarfModule) (f : dwarfFunc),
                 range_inside (fn_lowPC f) (fn_highPC f)
                   (m_startAddress m) (m_endAddress m)).
    assert (∀ m m' f, same_frame m m' → PF m f → PF m' f) as PF_frame.
    { intros m m' f (_ & Hs & He & _) HPF. unfold PF. by rewrite Hs, He. }
    assert (∀ (m m' : dwarfModule), same_frame m m' → PM m → PM m') as PM_frame
      by done.
    set (I := λ (seen : list Entry) (c : cursor),
      modules_satisfy PM PF (modules (data c)) ∧
      ∀ mi, currentModule c = Some mi →
        ∃ m cu, modules (data c) !! mi = Some m ∧ current_cu seen = Some cu ∧
                first_range cu = Ok (m_startAddress m, m_endAddress m)).
    assert (I (rd_entries raw) c) as [Hms _].
    { apply (getDwarfData_loop_invariant I (rd_entries raw))
        with (c0 := initialCursor); [| split; [constructor | done] | done].
      intros seen e rest c0 c1 Hsplit [HI Hcur] Hstep. split.
      - apply (getDwarfData_entry_preserves PM PF PM_frame PF_frame)
          with (c := c0) (e := e); [done | done | done | | done].
        intros mi m f Htag Hcm Hm Hparse.
        destruct (Hcur mi Hcm) as (m1 & cu & Hm1 & Hcu & Hrange).
        assert (m1 = m) as -> by congruence.
        apply parseFunction_range in Hparse.
        apply (Hnested seen e rest cu _ _ Hsplit Htag Hcu Hrange Hparse).
      - intros mi Hcm. rewrite current_cu_snoc.
        destruct (getDwarfData_entry_shape _ _ _ Hstep)
          as [(Htag & m & Hparse & Hmods & Hcm')
             | (Htag & Hcm' & Hmods)].
        + rewrite decide_True by done. exists m, e.
          rewrite Hcm' in Hcm. injection Hcm as <-.
          split_and!; [| done | by apply parseModule_range].
          rewrite Hmods. by apply list_lookup_middle.
        + rewrite decide_False by done. rewrite Hcm' in Hcm.
          destruct (Hcur mi Hcm) as (m & cu & Hm & Hcu & Hrange).
          destruct Hmods as [-> | (mi' & m0 & m' & Hm0 & -> & Hframe & _)];
            [by exists m, cu |].
          destruct (decide (mi' = mi)) as [-> | Hne].
          * exists m', cu.
            rewrite list_lookup_insert_eq by (by eapply lookup_lt_Some).
            assert (m0 = m) as -> by congruence.
            destruct Hframe as (_ & -> & -> & _). done.
          * exists m, cu. by rewrite list_lookup_insert_ne. }
    assert (modules_satisfy PM PF (modules d1)) as Hall.
    { apply (resolveMPIDebugInfo_preserves PM PF PM_frame PF_frame)
        with (d := data c) (mpiData := mpiData); done. }
    intros m f Hm Hf. simpl in Hm.
    destruct (proj1 (Forall_forall _ _) Hall m Hm) as [_ HPF].
    by apply (proj1 (Forall_forall _ _) HPF f).
Qed.

Lemma getDwarfData_module_invariant_witness :
  getDwarfData (Some raw_wrapped) = Ok idx_wrapped ∧
  (∀ cu, cu ∈ rd_entries raw_wrapped → en_Tag cu = TagCompileUnit →
     rows_name_listed_files cu) ∧
  subprograms_nested (rd_entries raw_wrapped) ∧
  module_invariant idx_wrapped.
Proof.
  assert (getDwarfData (Some raw_wrapped) = Ok idx_wrapped) as Hget
    by (vm_compute; reflexivity).
  assert (∀ cu, cu ∈ rd_entries raw_wrapped → en_Tag cu = TagCompileUnit →
            rows_name_listed_files cu) as Hlisted.
  { intros cu Hcu Htag. simpl in Hcu. explode_elem Hcu; try discriminate Htag.
    intros lr le name Hlr Hle Hname. cbn in Hlr. simplify_eq. cbn in Hle.
    explode_elem Hle; cbn in Hname; simplify_eq; cbn; set_solver. }
  assert (subprograms_nested (rd_entries raw_wrapped)) as Hnested.
  { intros seen sp rest cu r0 r Hsplit Htag Hcu Hr0 Hr.
    cbn in Hsplit.
    repeat
      match goal with
      | H : _ :: _ = ?s ++ _ :: _ |- _ =>
          destruct s; cbn in H;
          [ simplify_eq; try discriminate Htag;
            vm_compute in Hcu; simplify_eq;
            vm_compute in Hr0; vm_compute in Hr; simplify_eq;
            intros pc; cbn; lia
          | simplify_eq ]
      | H : [] = ?s ++ _ :: _ |- _ => destruct s; discriminate H
      end. }
  split_and!; try done.
  destruct (getDwarfData_module_invariant raw_wrapped idx_wrapped Hget)
    as [Hkeys Hinside].
  split; [by apply Hkeys | by apply Hinside].
Defined.

(** ** Stack walk *)

Lemma frame_size_bounds bp sp : 9 ≤ frame_size bp sp ∧ frame_size bp sp ≤ 1024.
Proof. unfold frame_size, ptrSize. case_decide; lia. Qed.

(** One turn of the loop either ends the walk or reads the frame at the stack
    pointer and goes on with the stack pointer advanced by the frame size. *)
Lemma getStack_loop_turn fuel d mem sp bp fnStack :
  (∃ r, getStack_loop (S fuel) d mem sp bp fnStack = Some r) ∨
  (∃ frameData bp' fnStack',
     PtracePeekData mem sp (frame_size bp sp) = Ok frameData ∧
     getStack_loop (S fuel) d mem sp bp fnStack =
     getStack_loop fuel d mem (wrap_u64 (sp + frame_size bp sp)) bp' fnStack').
Proof.
  cbn [getStack_loop]. fold (frame_size bp sp).
  destruct (PtracePeekData mem sp (frame_size bp sp)) as [frameData|];
    [|by left; eauto].
  destruct (slice frameData 0 ptrSize) as [b0|]; [|by left; eauto].
  destruct (PCToFunc d (LittleEndian_Uint64 b0)) as [fn|].
  - destruct (getStack_frame _ _ _ _) as [bp'|]; [|by left; eauto].
    destruct (fn_is_main d (Some fn)) as [[|]|]; [by left; eauto | | by left; eauto].
    right. eauto.
  - destruct (slice frameData ptrSize (2 * ptrSize)) as [b1|]; [|by left; eauto].
    simpl. destruct (PCToFunc d (LittleEndian_Uint64 b1)) as [fn|];
      [|by left; eauto].
    destruct (getStack_frame _ _ _ _) as [bp'|]; [|by left; eauto].
    destruct (fn_is_main d (Some fn)) as [[|]|]; [by left; eauto | | by left; eauto].
    right. eauto.
Qed.

Lemma PtracePeekData_readable mem sp n frameData :
  0 < n → 0 ≤ sp ∧ sp < 2 ^ 64 → PtracePeekData mem sp n = Ok frameData →
  is_Some (mem sp).
Proof.
  intros Hn Hsp. unfold PtracePeekData.
  destruct (mapM _ _) as [l|] eqn:Hl; [|done]. intros _.
  apply mapM_Some_1 in Hl.
  assert (seqZ 0 n !! 0%nat = Some 0) as H0 by (apply lookup_seqZ; lia).
  destruct (Forall2_lookup_l _ _ _ _ _ Hl H0) as (y & _ & Hy).
  replace (wrap_u64 (sp + 0)) with sp in Hy; [eauto |].
  unfold wrap_u64. rewrite Z.add_0_r, Z.mod_small; lia.
Qed.

Lemma getStack_loop_bounded d mem limit (n : nat) sp bp fnStack :
  limit ≤ 2 ^ 64 - 1024 → unreadable_from mem limit →
  0 ≤ sp ∧ sp < 2 ^ 64 → limit - sp ≤ Z.of_nat n →
  ∃ r, getStack_loop (S n) d mem sp bp fnStack = Some r.
Proof.
  intros Hlimit Hmem. revert sp bp fnStack.
  induction n as [|n IH]; intros sp bp fnStack Hsp Hn.
  - destruct (getStack_loop_turn 0 d mem sp bp fnStack)
      as [Hend | (frameData & bp' & fnStack' & Hpeek & Hnext)]; [done |].
    pose proof (frame_size_bounds bp sp) as [Hlo Hhi].
    destruct (PtracePeekData_readable mem sp (frame_size bp sp) frameData
                ltac:(lia) Hsp Hpeek) as [b Hb].
    rewrite Hmem in Hb by lia. done.
  - destruct (getStack_loop_turn (S n) d mem sp bp fnStack)
      as [Hend | (frameData & bp' & fnStack' & Hpeek & Hnext)]; [done |].
    pose proof (frame_size_bounds bp sp) as [Hlo Hhi].
    destruct (PtracePeekData_readable mem sp (frame_size bp sp) frameData
                ltac:(lia) Hsp Hpeek) as [b Hb].
    assert (sp < limit) as Hlt.
    { destruct (decide (sp < limit)); [done |]. rewrite Hmem in Hb by lia. done. }
    assert (wrap_u64 (sp + frame_size bp sp) = sp + frame_size bp sp) as Hnowrap.
    { unfold wrap_u64. apply Z.mod_small. lia. }
    rewrite Hnext, Hnowrap. apply IH; lia.
Qed.

(** * Further properties of the code *)

(** ** First-match scans: [PCToFunc], [lookupFunc], [lookupVariable] *)

Lemma first_match_Some {A} (items : dwarfModule → list A) d
    (P : dwarfModule → A → Prop) `{!∀ m x, Decision (P m x)} mi i :
  for_range (modules d) (λ mi m, for_range (items m) (λ i x,
    if decide (P m x) then Some (mi, i) else None)) = Some (mi, i) ↔
  ∃ m x, first_among items d P mi i m x.
Proof.
  rewrite for_range_nested_Some. split.
  - intros (mi' & m & i' & x & Hm & Hx & Hbody & Hfirst).
    case_decide as HP; [|done]. simplify_eq. exists m, x. split_and!; try done.
    intros mj j m' x' Hb Hm' Hx' HP'.
    specialize (Hfirst mj m' j x' Hb Hm' Hx'). by rewrite decide_True in Hfirst.
  - intros (m & x & Hm & Hx & HP & Hfirst). exists mi, m, i, x.
    split_and!; [done | done | by rewrite decide_True |].
    intros mj m' j x' Hb Hm' Hx'. rewrite decide_False; [done |]. eauto.
Qed.

Lemma first_match_None {A} (items : dwarfModule → list A) d
    (P : dwarfModule → A → Prop) `{!∀ m x, Decision (P m x)} :
  for_range (modules d) (λ mi m, for_range (items m) (λ i x,
    if decide (P m x) then Some (mi, i) else None)) = None ↔
  ∀ m x, m ∈ modules d → x ∈ items m → ¬ P m x.
Proof.
  rewrite for_range_nested_None. split.
  - intros Hnone m x [mi Hm]%list_elem_of_lookup_1 [i Hx]%list_elem_of_lookup_1 HP.
    specialize (Hnone mi m i x Hm Hx). by rewrite decide_True in Hnone.
  - intros Hnone mi m i x Hm Hx. rewrite decide_False; [done |].
    eauto using list_elem_of_lookup_2.
Qed.

Lemma PCToFunc_Some d pc mi fi :
  PCToFunc d pc = Some (mi, fi) ↔
  ∃ m f, first_among m_functions d (λ _ f, contains_pc pc f) mi fi m f.
Proof. apply (first_match_Some m_functions d (λ _ f, contains_pc pc f)). Qed.

Lemma PCToFunc_None d pc :
  PCToFunc d pc = None ↔
  ∀ m f, m ∈ modules d → f ∈ m_functions m → ¬ contains_pc pc f.
Proof. apply (first_match_None m_functions d (λ _ f, contains_pc pc f)). Qed.

Lemma PCToFunc_deref d pc mi fi :
  PCToFunc d pc = Some (mi, fi) →
  ∃ f, deref_func d (Some (mi, fi)) = Ok f ∧ contains_pc pc f.
Proof.
  intros (m & f & Hm & Hf & Hin & _)%PCToFunc_Some.
  exists f. simpl. by rewrite Hm, Hf.
Qed.

(** X1.  [PCToFunc(pc)] returns the first function, modules in index order
    and each module's functions in order, whose [lowPC, highPC) contains
    [pc], and nil exactly when no function of the index contains [pc].  The
    modules' address ranges play no part, and the pointer it returns always
    dereferences. *)
Theorem PCToFunc_first_containing (d : dwarfData) (pc : Z) :
  (∀ mi fi, PCToFunc d pc = Some (mi, fi) ↔
     ∃ m f, first_among m_functions d (λ _ f, contains_pc pc f) mi fi m f) ∧
  (PCToFunc d pc = None ↔
     ∀ m f, m ∈ modules d → f ∈ m_functions m → ¬ contains_pc pc f) ∧
  (PCToFunc d pc ≠ None →
     ∃ f, deref_func d (PCToFunc d pc) = Ok f ∧ contains_pc pc f).
Proof.
  split_and!.
  - intros mi fi. apply PCToFunc_Some.
  - apply PCToFunc_None.
  - destruct (PCToFunc d pc) as [[mi fi]|] eqn:Hpc; [|done]. intros _.
    by apply PCToFunc_deref.
Qed.

(** X2.  [lookupFunc(name)] returns the first function named [name], modules
    in index order and each module's functions in order, together with the
    module that holds it; the two results are nil together, exactly when no
    function has that name. *)
Theorem lookupFunc_first_named (d : dwarfData) (name : string) :
  (∀ mp fp, lookupFunc d name = (mp, fp) →
     (mp = None ∧ fp = None) ∨
     ∃ mi fi m f, mp = Some mi ∧ fp = Some (mi, fi) ∧
       first_among m_functions d (λ _ f, fn_name f = name) mi fi m f ∧
       deref_module d mp = Ok m ∧ deref_func d fp = Ok f) ∧
  (lookupFunc d name = (None, None) ↔ defined_nowhere d name).
Proof.
  split; [|apply lookupFunc_nil].
  intros mp fp Hl.
  destruct (lookupFunc_cases d name) as [Hnil | (mi & fi & m & f & Hl' & Hm & Hf & Hn)].
  - left. rewrite Hnil in Hl. by simplify_eq.
  - right. rewrite Hl' in Hl. simplify_eq.
    apply lookupFunc_Some in Hl' as (m' & f' & Hm' & Hf' & Hn' & Hfirst).
    assert (m' = m) as -> by congruence. assert (f' = f) as -> by congruence.
    exists mi, fi, m, f.
    split; [done |]. split; [done |]. split; [by repeat split |].
    simpl. rewrite Hm. simpl. by rewrite Hf.
Qed.

Lemma lookupVariable_Some d varName mi vi :
  lookupVariable d varName = Some (mi, vi) ↔
  ∃ m v, first_among m_variables d (λ _ v, v_name v = varName) mi vi m v.
Proof. apply (first_match_Some m_variables d (λ _ v, v_name v = varName)). Qed.

(** X3.  [lookupVariable(name)] returns the first variable named [name],
    modules in index order and each module's variables in order, whatever
    function it was declared in, and nil exactly when no variable has that
    name. *)
Theorem lookupVariable_first_named (d : dwarfData) (varName : string) :
  (∀ mi vi, lookupVariable d varName = Some (mi, vi) ↔
     ∃ m v, first_among m_variables d (λ _ v, v_name v = varName) mi vi m v) ∧
  (lookupVariable d varName = None ↔
     ∀ m v, m ∈ modules d → v ∈ m_variables m → v_name v ≠ varName) ∧
  (lookupVariable d varName ≠ None →
     ∃ v, deref_variable d (lookupVariable d varName) = Ok v ∧ v_name v = varName).
Proof.
  split_and!.
  - intros mi vi. apply lookupVariable_Some.
  - apply (first_match_None m_variables d (λ _ v, v_name v = varName)).
  - destruct (lookupVariable d varName) as [[mi vi]|] eqn:Hv; [|done]. intros _.
    apply lookupVariable_Some in Hv as (m & v & Hm & Hv & Hn & _).
    exists v. simpl. by rewrite Hm, Hv.
Qed.

(** X4.  For a name that some module defines, [getEntriesForFunction] returns
    the entries of the module of the first function of that name whose
    address lies in that function's [lowPC, highPC), in line-table order;
    entries of other modules are never returned, and every returned address
    resolves to a function by [PCToFunc]. *)
Theorem getEntriesForFunction_in_range (d : dwarfData) (name : string) :
  defined_somewhere d name →
  ∃ entries mi fi m f,
    getEntriesForFunction d name = Ok entries ∧
    first_among m_functions d (λ _ f, fn_name f = name) mi fi m f ∧
    entries `sublist_of` m_entries m ∧
    (∀ e, e ∈ entries ↔ e ∈ m_entries m ∧ contains_pc (e_address e) f) ∧
    (∀ e, e ∈ entries → PCToFunc d (e_address e) ≠ None).
Proof.
  intros (m0 & f0 & Hm0 & Hf0 & Hn0).
  destruct (lookupFunc_cases d name) as [Hnil | (mi & fi & m & f & Hl & Hm & Hf & Hn)].
  { exfalso. by apply (proj1 (lookupFunc_nil d name) Hnil m0 f0). }
  pose proof Hl as (m' & f' & Hm' & Hf' & Hn' & Hfirst)%lookupFunc_Some.
  assert (m' = m) as -> by congruence. assert (f' = f) as -> by congruence.
  exists (filter (λ entry, fn_lowPC f ≤ e_address entry ∧ e_address entry < fn_highPC f)
            (m_entries m)), mi, fi, m, f.
  split_and!.
  - unfold getEntriesForFunction. rewrite Hl. simpl. rewrite Hm. simpl.
    by rewrite Hf.
  - by repeat split.
  - apply sublist_filter.
  - intros e. rewrite list_elem_of_filter. unfold contains_pc. tauto.
  - intros e [Hin Hrange]%list_elem_of_filter Hnone.
    apply (proj1 (PCToFunc_None d (e_address e)) Hnone m f);
      eauto using list_elem_of_lookup_2.
Qed.

Lemma getEntriesForFunction_in_range_witness :
  defined_somewhere sample_index "helper" ∧
  ∃ entries, getEntriesForFunction sample_index "helper" = Ok entries ∧
             ∀ e, e ∈ entries → PCToFunc sample_index (e_address e) ≠ None.
Proof.
  assert (defined_somewhere sample_index "helper") as Hdef.
  { exists sample_util_module, (sample_func "helper" 1 10 8192 8300).
    split_and!; [| apply list_elem_of_here | done].
    apply list_elem_of_further, list_elem_of_here. }
  split; [done |].
  destruct (getEntriesForFunction_in_range sample_index "helper" Hdef)
    as (entries & mi & fi & m & f & Hget & _ & _ & _ & Hpc).
  eauto.
Defined.

(** ** When [resolveMPIDebugInfo] returns *)

Lemma resolveMPIDebugInfo_loop_Panic mi si sigFile fns fi acc p :
  resolveMPIDebugInfo_loop mi si sigFile fi fns acc = Panic p →
  p = SliceOutOfRange ∧
  ∃ j f, fns !! j = Some f ∧ is_wrapper sigFile si (fi + j) f ∧ fn_name f = "".
Proof.
  revert fi acc. induction fns as [|f fns IH]; intros fi acc; simpl; [done |].
  unfold is_wrapper in *. case_decide as Hw.
  - destruct (fn_name f) as [|c rest] eqn:Hname; simpl.
    + intros [= <-]. split; [done |]. exists 0%nat, f.
      by rewrite Nat.add_0_r.
    + destruct (resolveMPIDebugInfo_loop _ _ _ _ _ _) as [[rest' out']|] eqn:Hrec;
        [done |].
      simpl. intros [= <-]. destruct (IH _ _ Hrec) as (-> & j & g & Hg & Hwj & Hn).
      split; [done |]. exists (S j), g.
      by replace (fi + S j)%nat with (S fi + j)%nat by lia.
  - destruct (resolveMPIDebugInfo_loop _ _ _ _ _ _) as [[rest' out']|] eqn:Hrec;
      [done |].
    simpl. intros [= <-]. destruct (IH _ _ Hrec) as (-> & j & g & Hg & Hwj & Hn).
    split; [done |]. exists (S j), g.
    by replace (fi + S j)%nat with (S fi + j)%nat by lia.
Qed.

(** X5.  [resolveMPIDebugInfo] returns exactly when the index defines the
    signature function and every function it is to rewrite has a non-empty
    name.  Without the signature function it panics on the nil module; with
    an unnamed function among those to rewrite it panics on the slice
    [name[1:]]. *)
Theorem resolveMPIDebugInfo_returns_iff (d : dwarfData) :
  ((∃ d' mpiData, resolveMPIDebugInfo d = Ok (d', mpiData)) ↔
   defined_somewhere d MPI_FUNCS_SIGNATURE ∧ wrappers_named d) ∧
  (∀ p, resolveMPIDebugInfo d = Panic p →
     (p = NilDereference ∧ defined_nowhere d MPI_FUNCS_SIGNATURE) ∨
     (p = SliceOutOfRange ∧ defined_somewhere d MPI_FUNCS_SIGNATURE ∧
      ∃ mi j f, rewritten d mi j f ∧ fn_name f = "")).
Proof.
  destruct (lookupFunc_cases d MPI_FUNCS_SIGNATURE)
    as [Hnil | (mi & si & m & sf & Hl & Hm & Hsf & Hn)].
  - pose proof (proj1 (lookupFunc_nil d MPI_FUNCS_SIGNATURE) Hnil) as Hno.
    assert (resolveMPIDebugInfo d = Panic NilDereference) as Hres
      by (unfold resolveMPIDebugInfo; by rewrite Hnil).
    split.
    + split.
      * intros (d' & mpiData & Hok). congruence.
      * intros [(m0 & f0 & Hm0 & Hf0 & Hn0) _]. exfalso. by apply (Hno m0 f0).
    + intros p Hp. left. split; [congruence | done].
  - assert (defined_somewhere d MPI_FUNCS_SIGNATURE) as Hdef
      by (exists m, sf; eauto using list_elem_of_lookup_2).
    assert (resolveMPIDebugInfo d =
            '(functions', mpiWrapFunctions) ←
              resolveMPIDebugInfo_loop mi si (fn_file sf) 0 (m_functions m) [];
            Ok (set_modules (<[mi := set_m_functions functions' m]> (modules d)) d,
                {| mpi_functions := mpiWrapFunctions;
                   mpi_file := files_at m (fn_file sf) |})) as Hres.
    { unfold resolveMPIDebugInfo. rewrite Hl. simpl. rewrite Hm. simpl.
      by rewrite Hsf. }
    split.
    + split.
      * intros (d' & mpiData & Hok). split; [done |].
        rewrite Hres in Hok.
        destruct (resolveMPIDebugInfo_loop _ _ _ _ _ _) as [[fns' out]|] eqn:Hloop;
          [|done].
        apply resolveMPIDebugInfo_loop_Ok in Hloop as (_ & Hfns & _).
        intros mi' si' m' sf' j f Hl' Hm' Hsf' Hf Hw.
        rewrite Hl in Hl'. simplify_eq.
        specialize (Hfns j f Hf). simpl in Hfns.
        rewrite decide_True in Hfns by done. by destruct Hfns.
      * intros [_ Hnamed].
        destruct (resolveMPIDebugInfo_loop_returns mi si (fn_file sf)
                    (m_functions m) 0 []) as (fns' & out & Hloop).
        { intros j f Hf Hw. by eapply (Hnamed mi si m sf j f). }
        rewrite Hres, Hloop. simpl. eauto.
    + intros p Hp. right. rewrite Hres in Hp.
      destruct (resolveMPIDebugInfo_loop _ _ _ _ _ _) as [[fns' out]|] eqn:Hloop;
        [done |].
      simpl in Hp. injection Hp as <-.
      apply resolveMPIDebugInfo_loop_Panic in Hloop as (-> & j & f & Hf & Hw & Hname).
      split_and!; [done | done |]. exists mi, j, f. split; [|done].
      exists si, m, sf. done.
Qed.

Lemma resolveMPIDebugInfo_returns_iff_witness :
  ∃ d' mpiData, resolveMPIDebugInfo idx_wrapped_parsed = Ok (d', mpiData).
Proof.
  destruct (resolveMPIDebugInfo_returns_iff idx_wrapped_parsed) as [[_ Hret] _].
  apply Hret. split.
  - exists (wrapped_module "_MPI_Send" "_MPI_Recv"),
      (sample_func "_MPI_WRAPPER_INCLUDE" 2 3 4096 4100).
    split_and!; [apply list_elem_of_here | apply list_elem_of_here | done].
  - intros mi si m sf j f Hl Hm Hsf Hf Hw.
    assert (rewritten idx_wrapped_parsed mi j f) as Hr by (exists si, m, sf; done).
    apply rewritten_wrapped in Hr as [_ [[_ ->] | [_ ->]]]; done.
Defined.

(** X6.  Every index that [getDwarfData] returns still defines the signature
    function under its name, and every function pointer of its MPI data
    dereferences to a function of the index. *)
Theorem getDwarfData_keeps_signature (raw : rawData) (d : dwarfData) :
  getDwarfData (Some raw) = Ok d →
  defined_somewhere d MPI_FUNCS_SIGNATURE ∧
  ∀ p, p ∈ mpi_functions (mpi d) → ∃ f, deref_func d p = Ok f.
Proof.
  intros (c & d1 & mpiData & Hloop & Hres & ->)%getDwarfData_Ok.
  pose proof Hres as (mi & si & m & sf & fns' & Hl & Hm & Hsf & Hlp & -> & _)
    %resolveMPIDebugInfo_Ok.
  apply resolveMPIDebugInfo_loop_Ok in Hlp as (Hlen & Hfns & Hout).
  pose proof (lookup_lt_Some _ _ _ Hm) as Hmi.
  apply lookupFunc_Some in Hl as (m' & sf' & Hm' & Hsf' & Hname & _).
  assert (m' = m) as -> by congruence. assert (sf' = sf) as -> by congruence.
  split.
  - exists (set_m_functions fns' m), sf. split_and!; [| | done].
    + simpl. apply list_elem_of_lookup. exists mi.
      by apply list_lookup_insert_eq.
    + simpl. apply list_elem_of_lookup. exists si.
      specialize (Hfns si sf Hsf). simpl in Hfns.
      rewrite decide_False in Hfns; [done |]. unfold is_wrapper. tauto.
  - intros p. simpl. rewrite Hout.
    intros [Hnil | (j & f & -> & Hf & Hw)]; [by apply elem_of_nil in Hnil |].
    specialize (Hfns j f Hf). rewrite decide_True in Hfns by done.
    destruct Hfns as [_ Hj]. simpl in Hj.
    exists (set_fn_name (drop_first (fn_name f)) f). simpl.
    rewrite list_lookup_insert_eq by done. simpl. by rewrite Hj.
Qed.

Lemma getDwarfData_keeps_signature_witness :
  getDwarfData (Some raw_wrapped) = Ok idx_wrapped ∧
  defined_somewhere idx_wrapped MPI_FUNCS_SIGNATURE.
Proof.
  split; [vm_compute; reflexivity |].
  apply (getDwarfData_keeps_signature raw_wrapped idx_wrapped).
  vm_compute; reflexivity.
Defined.

(** ** The file table of a module *)

Lemma parseModule_files_app i l1 l2 acc :
  parseModule_files i (l1 ++ l2) acc =
  parseModule_files (i + length l1) l2 (parseModule_files i l1 acc).
Proof.
  revert i acc. induction l1 as [|x l1 IH]; intros i acc; simpl.
  - by rewrite Nat.add_0_r.
  - rewrite IH. f_equal. lia.
Qed.

Lemma parseModule_files_exact l :
  (∀ z name, (parseModule_files 0 l (∅, ∅)).1 !! z = Some name ↔
     ∃ k : nat, z = Z.of_nat k ∧ l !! k = Some (Some name)) ∧
  (∀ name z, (parseModule_files 0 l (∅, ∅)).2 !! name = Some z ↔
     ∃ k : nat, z = Z.of_nat k ∧ l !! k = Some (Some name) ∧
       ∀ j, l !! j = Some (Some name) → (j ≤ k)%nat).
Proof.
  induction l as [|x l [IHf IHi]] using rev_ind.
  - simpl. split.
    + intros z name. rewrite lookup_empty. split; [done |].
      by intros (k & _ & Hk).
    + intros name z. rewrite lookup_empty. split; [done |].
      by intros (k & _ & Hk & _).
  - rewrite parseModule_files_app. simpl.
    destruct (parseModule_files 0 l (∅, ∅)) as [files idx]. simpl in *.
    assert (∀ k name, (l ++ [x]) !! k = Some (Some name) ↔
              l !! k = Some (Some name) ∨ (k = length l ∧ x = Some name)) as Hsnoc.
    { intros k name. rewrite lookup_snoc_Some. split.
      - intros [[_ ?] | [-> ->]]; eauto.
      - intros [Hk | [-> ->]]; [|by right].
        left. split; [by eapply lookup_lt_Some | done]. }
    destruct x as [Name|]; simpl.
    + split.
      * intros z name.
        destruct (decide (z = Z.of_nat (length l))) as [-> | Hne].
        -- rewrite lookup_insert_eq. split.
           ++ intros [= <-]. exists (length l). split; [done |].
              apply Hsnoc. by right.
           ++ intros (k & Hk & [Hl | [_ [= ->]]]%Hsnoc); [|done].
              apply Nat2Z.inj in Hk as <-. apply lookup_lt_Some in Hl. lia.
        -- rewrite lookup_insert_ne by done. rewrite IHf. split.
           ++ intros (k & -> & Hk). exists k. split; [done |]. apply Hsnoc. by left.
           ++ intros (k & -> & [Hl | [-> _]]%Hsnoc); [eauto | done].
      * intros name z. destruct (decide (Name = name)) as [-> | Hne].
        -- rewrite lookup_insert_eq. split.
           ++ intros [= <-]. exists (length l). split_and!; [done | |].
              ** apply Hsnoc. by right.
              ** intros j [Hj | [-> _]]%Hsnoc; [|done].
                 apply lookup_lt_Some in Hj. lia.
           ++ intros (k & -> & Hk & Hlast). f_equal.
              assert (length l ≤ k)%nat as Hle
                by (apply Hlast, Hsnoc; by right).
              apply Hsnoc in Hk as [Hk | [-> _]]; [|done].
              apply lookup_lt_Some in Hk. lia.
        -- rewrite lookup_insert_ne by done. rewrite IHi. split.
           ++ intros (k & -> & Hk & Hlast). exists k. split_and!; [done | |].
              ** apply Hsnoc. by left.
              ** intros j [Hj | [_ [= ?]]]%Hsnoc; [by apply Hlast | done].
           ++ intros (k & -> & [Hk | [_ [= ?]]]%Hsnoc & Hlast); [|done].
              exists k. split_and!; [done | done |].
              intros j Hj. apply Hlast, Hsnoc. by left.
    + split.
      * intros z name. rewrite IHf. split.
        -- intros (k & -> & Hk). exists k. split; [done |]. apply Hsnoc. by left.
        -- intros (k & -> & [Hl | [_ [=]]]%Hsnoc). eauto.
      * intros name z. rewrite IHi. split.
        -- intros (k & -> & Hk & Hlast). exists k. split_and!; [done | |].
           ++ apply Hsnoc. by left.
           ++ intros j [Hj | [_ [=]]]%Hsnoc. by apply Hlast.
        -- intros (k & -> & [Hk | [_ [=]]]%Hsnoc & Hlast).
           exists k. split_and!; [done | done |].
           intros j Hj. apply Hlast, Hsnoc. by left.
Qed.

Lemma parseModule_rows_Forall2 idx rows dEntries :
  parseModule_rows idx rows = Ok dEntries →
  Forall2 (λ le e, parseModule_row idx le = Ok e) rows dEntries.
Proof.
  revert dEntries. induction rows as [|le rows IH]; intros dEntries; simpl.
  - intros [= <-]. constructor.
  - destruct (parseModule_row idx le) as [e|] eqn:Hrow; [|done]. simpl.
    destruct (parseModule_rows idx rows) as [rest|]; [|done]. simpl.
    intros [= <-]. constructor; [done | by apply IH].
Qed.

(** X7.  The files map of a parsed module holds exactly the non-nil entries
    of the line reader's file table, under their indices.  Every row becomes
    one entry, in order; its file id is the last index at which the table
    lists the row's file name (so a name listed twice is always stored under
    its higher index), and 0, Go's zero value for the missing key, when the
    table does not list the name. *)
Theorem parseModule_file_table (cu : Entry) (m : dwarfModule) :
  parseModule cu = Ok m →
  ∃ lineReader, en_LineReader cu = Some lineReader ∧
    (∀ z name, m_files m !! z = Some name ↔
       ∃ k : nat, z = Z.of_nat k ∧ lr_Files lineReader !! k = Some (Some name)) ∧
    Forall2 (row_stored (lr_Files lineReader)) (lr_rows lineReader) (m_entries m).
Proof.
  intros (name & r & lr & dEntries & _ & Hlr & Hrows & ->)%parseModule_Ok.
  exists lr. simpl.
  destruct (parseModule_files_exact (lr_Files lr)) as [Hfiles Hidx].
  split_and!; [done | done |].
  apply parseModule_rows_Forall2 in Hrows.
  eapply Forall2_impl; [done |]. intros le e. unfold parseModule_row.
  destruct (le_File le) as [fname|] eqn:Hfile; [|done]. intros [= <-].
  exists fname. simpl. split_and!; try done.
  destruct ((parseModule_files 0 (lr_Files lr) (∅, ∅)).2 !! fname) as [z|] eqn:Hz.
  - left. apply Hidx in Hz as (k & -> & Hk & Hlast). exists k. done.
  - right. split; [|done]. intros j Hj.
    destruct (parseModule_files_spec (lr_Files lr) 0 (∅, ∅)) as (_ & Hcov & _).
    { simpl. intros ? ? Hempty. by rewrite lookup_empty in Hempty. }
    destruct (Hcov fname) as [z' Hz']; [by eapply list_elem_of_lookup_2 |].
    congruence.
Qed.

Lemma parseModule_file_table_witness :
  parseModule cu_twice_listed = Ok module_twice_listed ∧
  ∃ lineReader, en_LineReader cu_twice_listed = Some lineReader ∧
    Forall2 (row_stored (lr_Files lineReader)) (lr_rows lineReader)
      (m_entries module_twice_listed).
Proof.
  assert (parseModule cu_twice_listed = Ok module_twice_listed) as Hparse
    by (vm_compute; reflexivity).
  split; [done |].
  destruct (parseModule_file_table _ _ Hparse) as (lr & Hlr & _ & Hrows).
  eauto.
Defined.

(** ** The structure of a loaded index *)

Lemma same_frame_trans m1 m2 m3 :
  same_frame m1 m2 → same_frame m2 m3 → same_frame m1 m3.
Proof.
  intros (? & ? & ? & ? & ?) (? & ? & ? & ? & ?). repeat split; congruence.
Qed.

Lemma Forall2_insert_r {A B} (R : A → B → Prop) l k i y y' :
  Forall2 R l k → k !! i = Some y → (∀ x, R x y → R x y') →
  Forall2 R l (<[i := y']> k).
Proof.
  intros HF Hk HR.
  destruct (Forall2_lookup_r _ _ _ _ _ HF Hk) as (x & Hl & Hxy).
  rewrite <- (list_insert_id l i x Hl). apply Forall2_insert; [done |]. by apply HR.
Qed.

Lemma compile_units_snoc seen e :
  compile_units (seen ++ [e]) =
  if decide (en_Tag e = TagCompileUnit) then compile_units seen ++ [e]
  else compile_units seen.
Proof.
  unfold compile_units. rewrite filter_app, filter_cons, filter_nil.
  case_decide; [done | by rewrite app_nil_r].
Qed.

(** X8.  The modules of a loaded index are the compile units of the DWARF
    stream, one module per unit and in stream order: each module has the
    name, the first address range, the file table and the line entries that
    [parseModule] read from its unit, whatever was added to it afterwards. *)
Theorem getDwarfData_one_module_per_unit (raw : rawData) (d : dwarfData) :
  getDwarfData (Some raw) = Ok d →
  Forall2 module_of_unit (compile_units (rd_entries raw)) (modules d).
Proof.
  intros (c & d1 & mpiData & Hloop & Hres & ->)%getDwarfData_Ok.
  assert (Forall2 module_of_unit (compile_units (rd_entries raw)) (modules (data c)))
    as Hparsed.
  { apply (getDwarfData_loop_invariant
             (λ seen c, Forall2 module_of_unit (compile_units seen) (modules (data c)))
             (rd_entries raw)) with (c0 := initialCursor); [| constructor | done].
    intros seen e rest c0 c1 _ HI Hstep. rewrite compile_units_snoc.
    destruct (getDwarfData_entry_shape _ _ _ Hstep)
      as [(Htag & m & Hparse & -> & _)
         | (Htag & _ & [-> | (mi & m & m' & Hm & -> & Hframe & _)])].
    - rewrite decide_True by done. apply Forall2_app; [done |].
      constructor; [|constructor]. exists m. split; [done | apply same_frame_refl].
    - by rewrite decide_False.
    - rewrite decide_False by done. eapply Forall2_insert_r; [done | done |].
      intros cu (m0 & Hparse & Hf). exists m0. split; [done |].
      by eapply same_frame_trans. }
  pose proof Hres as (mi & si & m & sf & fns' & _ & Hm & _ & _ & -> & _)
    %resolveMPIDebugInfo_Ok.
  simpl. eapply Forall2_insert_r; [done | done |].
  intros cu (m0 & Hparse & Hf). exists m0. split; [done |].
  eapply same_frame_trans; [done |]. by repeat split.
Qed.

Lemma getDwarfData_one_module_per_unit_witness :
  getDwarfData (Some raw_two_units) = Ok idx_two_units ∧
  Forall2 module_of_unit (compile_units (rd_entries raw_two_units))
    (modules idx_two_units).
Proof.
  split; [vm_compute; reflexivity |].
  apply (getDwarfData_one_module_per_unit raw_two_units idx_two_units).
  vm_compute; reflexivity.
Defined.

(** ** What [getDwarfData] needs of the stream *)

(** One turn of the loop, tag by tag: what it needs to return, and what it
    does to the cursor and to the module list. *)
Lemma getDwarfData_entry_cases c e c' :
  getDwarfData_entry c e = Ok c' →
  match en_Tag e with
  | TagBaseType =>
      modules (data c') = modules (data c) ∧
      currentModule c' = currentModule c ∧ currentFunction c' = currentFunction c ∧
      (∃ s, entry_Val e AttrName = VString s) ∧
      (∃ z, entry_Val e AttrByteSize = VInt64 z) ∧
      (∃ z, entry_Val e AttrEncoding = VInt64 z)
  | TagCompileUnit =>
      ∃ m, parseModule e = Ok m ∧ modules (data c') = modules (data c) ++ [m] ∧
           currentModule c' = Some (length (modules (data c))) ∧
           currentFunction c' = None
  | TagSubprogram =>
      ∃ f mi m, parseFunction e = Ok f ∧ currentModule c = Some mi ∧
        modules (data c) !! mi = Some m ∧
        modules (data c') =
          <[mi := set_m_functions (m_functions m ++ [f]) m]> (modules (data c)) ∧
        currentModule c' = Some mi ∧
        currentFunction c' = Some (mi, length (m_functions m))
  | TagFormalParameter =>
      ∃ p mi fi m f, parseFunctionParameter e (data c) = Ok p ∧
        currentFunction c = Some (mi, fi) ∧ modules (data c) !! mi = Some m ∧
        m_functions m !! fi = Some f ∧
        modules (data c') =
          <[mi := set_m_functions (<[fi := add_fn_parameter p f]> (m_functions m)) m]>
            (modules (data c)) ∧
        currentModule c' = currentModule c ∧ currentFunction c' = currentFunction c
  | TagVariable =>
      ∃ v mi m, currentModule c = Some mi ∧ modules (data c) !! mi = Some m ∧
        v_function v = currentFunction c ∧
        modules (data c') = <[mi := add_m_variable v m]> (modules (data c)) ∧
        currentModule c' = currentModule c ∧ currentFunction c' = currentFunction c ∧
        (∃ o, entry_Val e AttrType = VOffset o) ∧
        (∃ s, entry_Val e AttrName = VString s) ∧
        (entry_Val e AttrLocation = VNil ∨ ∃ b, entry_Val e AttrLocation = VBytes b)
  | TagOther =>
      modules (data c') = modules (data c) ∧
      currentModule c' = currentModule c ∧ currentFunction c' = currentFunction c
  end.
Proof.
  unfold getDwarfData_entry. destruct (en_Tag e) eqn:Htag.
  - destruct (entry_Val e AttrName) as [name| | | |] eqn:Hn; try done. simpl.
    destruct (entry_Val e AttrByteSize) as [|byteSize| | |] eqn:Hb; try done. simpl.
    destruct (entry_Val e AttrEncoding) as [|encoding| | |] eqn:He; try done. simpl.
    intros [= <-]. simpl. eauto 10.
  - destruct (parseModule e) as [m|]; [|done]. simpl.
    intros [= <-]. simpl. eauto.
  - destruct (parseFunction e) as [f|]; [|done]. simpl.
    destruct (currentModule c) as [mi|] eqn:Hcur; [|done]. simpl.
    destruct (modules (data c) !! mi) as [m|] eqn:Hm; [|done]. simpl.
    intros [= <-]. simpl. eauto 10.
  - destruct (parseFunctionParameter e (data c)) as [p|]; [|done]. simpl.
    destruct (currentFunction c) as [[mi fi]|] eqn:Hcur; [|done]. simpl.
    destruct (modules (data c) !! mi) as [m|] eqn:Hm; [|done]. simpl.
    destruct (m_functions m !! fi) as [f|] eqn:Hf; [|done]. simpl.
    intros [= <-]. simpl. eauto 12.
  - destruct (entry_Val e AttrType) as [| |o| |] eqn:Ho; try done. simpl.
    destruct (entry_Val e AttrName) as [name| | | |] eqn:Hn; try done. simpl.
    destruct (entry_Val e AttrLocation) as [| | |b|] eqn:Hl; try done; simpl;
      (destruct (currentModule c) as [mi|] eqn:Hcur; [|done]); simpl;
      (destruct (modules (data c) !! mi) as [m|] eqn:Hm; [|done]); simpl;
      intros [= <-]; simpl;
      eexists {| v_name := name;
                 v_baseType := default unknownType (types (data c) !! o);
                 v_locationInstructions := _;
                 v_function := currentFunction c |}, mi, m;
      split_and!; eauto.
  - intros [= <-]. done.
Qed.

Lemma getDwarfData_loop_split c seen e rest c' :
  getDwarfData_loop c (seen ++ e :: rest) = Ok c' →
  ∃ c1 c2, getDwarfData_loop c seen = Ok c1 ∧ getDwarfData_entry c1 e = Ok c2 ∧
           getDwarfData_loop c2 rest = Ok c'.
Proof.
  revert c. induction seen as [|x seen IH]; intros c; simpl.
  - destruct (getDwarfData_entry c e) as [c2|] eqn:He; [|done]. simpl. eauto.
  - destruct (getDwarfData_entry c x) as [cx|]; [|done]. simpl. apply IH.
Qed.

Lemma open_subprogram_snoc seen e :
  open_subprogram (seen ++ [e]) =
  match en_Tag e with
  | TagCompileUnit => None
  | TagSubprogram => Some e
  | _ => open_subprogram seen
  end.
Proof. unfold open_subprogram. by rewrite foldl_app. Qed.

(** The cursor is nil where the stream has shown no compile unit, or no
    subprogram since the last compile unit. *)
Lemma getDwarfData_loop_cursor seen c :
  getDwarfData_loop initialCursor seen = Ok c →
  (is_Some (currentModule c) → is_Some (current_cu seen)) ∧
  (is_Some (currentFunction c) → is_Some (open_subprogram seen)).
Proof.
  apply (getDwarfData_loop_invariant
           (λ seen c, (is_Some (currentModule c) → is_Some (current_cu seen)) ∧
                      (is_Some (currentFunction c) → is_Some (open_subprogram seen)))
           seen).
  - intros seen' e rest c0 c1 _ [Hcm Hcf] Hstep.
    rewrite current_cu_snoc, open_subprogram_snoc.
    pose proof (getDwarfData_entry_cases _ _ _ Hstep) as Hcases.
    destruct (en_Tag e) eqn:Htag.
    + destruct Hcases as (_ & -> & -> & _). by rewrite decide_False.
    + destruct Hcases as (m & _ & _ & _ & ->). rewrite decide_True by done.
      split; [eauto | by intros []].
    + destruct Hcases as (f & mi & m & _ & Hcur & _ & _ & -> & _).
      rewrite decide_False by done. split; [|eauto].
      intros _. apply Hcm. by rewrite Hcur.
    + destruct Hcases as (p & mi & fi & m & f & _ & _ & _ & _ & _ & -> & ->).
      by rewrite decide_False.
    + destruct Hcases as (v & mi & m & _ & _ & _ & _ & -> & -> & _).
      by rewrite decide_False.
    + destruct Hcases as (_ & -> & ->). by rewrite decide_False.
  - split; simpl; by intros [].
Qed.

Lemma first_range_Ok e r :
  first_range e = Ok r → ∃ rs, en_Ranges e = Some (r :: rs).
Proof.
  unfold first_range. destruct (en_Ranges e) as [[|r' rs]|]; try done.
  intros [= ->]. eauto.
Qed.

Lemma parseModule_rows_have_file idx rows dEntries :
  parseModule_rows idx rows = Ok dEntries → ∀ le, le ∈ rows → is_Some (le_File le).
Proof.
  intros HF%parseModule_rows_Forall2 le [i Hle]%list_elem_of_lookup_1.
  destruct (Forall2_lookup_l _ _ _ _ _ HF Hle) as (e & _ & Hrow).
  unfold parseModule_row in Hrow. destruct (le_File le); [eauto | done].
Qed.

Lemma parseFunctionParameter_Ok e data p :
  parseFunctionParameter e data = Ok p →
  (∃ o, entry_Val e AttrType = VOffset o) ∧
  (∃ s, entry_Val e AttrName = VString s) ∧
  (∃ b, entry_Val e AttrLocation = VBytes b).
Proof.
  unfold parseFunctionParameter.
  destruct (entry_Val e AttrType) as [| |o| |]; try done. simpl.
  destruct (entry_Val e AttrName) as [s| | | |]; try done. simpl.
  destruct (entry_Val e AttrLocation) as [| | |b|]; try done. simpl.
  eauto 10.
Qed.

(** X10.  [getDwarfData] returns only on a stream that it reads to the end
    without an error and in which every entry is acceptable where it stands:
    a compile unit has an address range and a line reader whose rows all name
    a file; a subprogram has an address range and follows a compile unit; a
    formal parameter follows a subprogram of the current unit and has type,
    name and location attributes (the location is not optional for it); a
    variable follows a compile unit, has type and name, and may lack the
    location; a base type has name, byte size and encoding. *)
Theorem getDwarfData_accepts (raw : rawData) (d : dwarfData) :
  getDwarfData (Some raw) = Ok d →
  rd_error raw = false ∧
  ∀ seen e rest, rd_entries raw = seen ++ e :: rest → entry_accepted seen e.
Proof.
  intros Hget. split.
  { unfold getDwarfData in Hget.
    destruct (getDwarfData_loop _ _); [|done]. simpl in Hget.
    by destruct (rd_error raw). }
  apply getDwarfData_Ok in Hget as (c & _ & _ & Hloop & _ & _).
  intros seen e rest Hsplit. rewrite Hsplit in Hloop.
  apply getDwarfData_loop_split in Hloop as (c1 & c2 & Hseen & Hstep & _).
  apply getDwarfData_loop_cursor in Hseen as [Hcm Hcf].
  pose proof (getDwarfData_entry_cases _ _ _ Hstep) as Hcases.
  unfold entry_accepted. destruct (en_Tag e) eqn:Htag.
  - by destruct Hcases as (_ & _ & _ & ? & ? & ?).
  - destruct Hcases as (m & Hparse & _).
    apply parseModule_Ok in Hparse as (? & r & lr & dEntries & Hr & Hlr & Hrows & _).
    apply first_range_Ok in Hr as [rs Hr]. split; [eauto |].
    exists lr. split; [done |]. by eapply parseModule_rows_have_file.
  - destruct Hcases as (f & mi & m & Hparse & Hcur & _).
    apply parseFunction_range, first_range_Ok in Hparse as [rs Hr].
    split; [eauto |]. apply Hcm. by rewrite Hcur.
  - destruct Hcases as (p & mi & fi & m & f & Hparse & Hcur & _).
    split; [apply Hcf; by rewrite Hcur |].
    by apply parseFunctionParameter_Ok in Hparse.
  - destruct Hcases as (v & mi & m & Hcur & _ & _ & _ & _ & _ & ? & ? & ?).
    split_and!; try done. apply Hcm. by rewrite Hcur.
  - done.
Qed.

Lemma getDwarfData_accepts_witness :
  getDwarfData (Some raw_wrapped) = Ok idx_wrapped ∧
  rd_error raw_wrapped = false ∧
  ∀ seen e rest, rd_entries raw_wrapped = seen ++ e :: rest → entry_accepted seen e.
Proof.
  split; [vm_compute; reflexivity |].
  apply (getDwarfData_accepts raw_wrapped idx_wrapped).
  vm_compute; reflexivity.
Defined.

Example getDwarfData_parameter_without_location :
  getDwarfData (Some raw_parameter_without_location) = Panic TypeAssertion.
Proof. vm_compute. reflexivity. Qed.

(** ** The function pointers of variables *)

Lemma variables_point_home_replace ms mi m m' :
  ms !! mi = Some m →
  (length (m_functions m) ≤ length (m_functions m'))%nat →
  (∀ v, v ∈ m_variables m' →
     v ∈ m_variables m ∨
     ∀ mi' fi, v_function v = Some (mi', fi) →
       mi' = mi ∧ (fi < length (m_functions m'))%nat) →
  variables_point_home ms → variables_point_home (<[mi := m']> ms).
Proof.
  intros Hm Hlen Hvars Hok i m1 v mi1 fi Hm1 Hv Hfn.
  destruct (decide (i = mi)) as [-> | Hne].
  - rewrite list_lookup_insert_eq in Hm1 by (by eapply lookup_lt_Some).
    injection Hm1 as <-.
    destruct (Hvars v Hv) as [Hold | Hnew]; [|by apply Hnew].
    destruct (Hok mi m v mi1 fi Hm Hold Hfn). split; [done | lia].
  - rewrite list_lookup_insert_ne in Hm1 by done. by eapply Hok.
Qed.

Lemma getDwarfData_loop_pointers seen c :
  getDwarfData_loop initialCursor seen = Ok c →
  (∀ mi fi, currentFunction c = Some (mi, fi) →
     currentModule c = Some mi ∧
     ∃ m, modules (data c) !! mi = Some m ∧ (fi < length (m_functions m))%nat) ∧
  variables_point_home (modules (data c)).
Proof.
  apply (getDwarfData_loop_invariant
    (λ _ c,
       (∀ mi fi, currentFunction c = Some (mi, fi) →
          currentModule c = Some mi ∧
          ∃ m, modules (data c) !! mi = Some m ∧ (fi < length (m_functions m))%nat) ∧
       variables_point_home (modules (data c))) seen).
  - intros seen' e rest c0 c1 _ [Hcur Hok] Hstep.
    pose proof (getDwarfData_entry_cases _ _ _ Hstep) as Hcases.
    destruct (en_Tag e) eqn:Htag.
    + destruct Hcases as (-> & -> & -> & _). done.
    + destruct Hcases as (m & Hparse & -> & _ & ->). split; [done |].
      apply parseModule_Ok in Hparse as (? & ? & ? & ? & _ & _ & _ & ->).
      intros i m1 v mi fi Hm1 Hv Hfn.
      apply lookup_app_Some in Hm1 as [Hm1 | [_ Hm1]]; [by eapply Hok |].
      apply list_lookup_singleton_Some in Hm1 as [_ <-].
      simpl in Hv. by apply elem_of_nil in Hv.
    + destruct Hcases as (f & mi & m & _ & Hcm & Hm & -> & -> & ->). split.
      * intros mi' fi' [= <- <-]. split; [done |].
        exists (set_m_functions (m_functions m ++ [f]) m).
        rewrite list_lookup_insert_eq by (by eapply lookup_lt_Some).
        split; [done |]. simpl. rewrite length_app. simpl. lia.
      * eapply variables_point_home_replace; [done | | | done].
        -- simpl. rewrite length_app. lia.
        -- intros v Hv. by left.
    + destruct Hcases as (p & mi & fi & m & f & _ & Hcf & Hm & Hf & -> & -> & ->).
      split.
      * intros mi' fi' Hcf'. destruct (Hcur mi' fi' Hcf') as (Hcm & m1 & Hm1 & Hlt).
        split; [done |]. rewrite Hcf in Hcf'. simplify_eq.
        eexists. rewrite list_lookup_insert_eq by (by eapply lookup_lt_Some).
        split; [done |]. simpl. by rewrite length_insert.
      * eapply variables_point_home_replace; [done | | | done].
        -- simpl. by rewrite length_insert.
        -- intros v Hv. by left.
    + destruct Hcases as (v & mi & m & Hcm & Hm & Hfn & -> & -> & -> & _). split.
      * intros mi' fi' Hcf'. destruct (Hcur mi' fi' Hcf') as (Hcm' & m1 & Hm1 & Hlt).
        split; [done |]. rewrite Hcm in Hcm'. simplify_eq.
        eexists. rewrite list_lookup_insert_eq by (by eapply lookup_lt_Some).
        split; [done |]. done.
      * eapply variables_point_home_replace; [done | done | | done].
        simpl. intros v' [Hold | ->%list_elem_of_singleton]%elem_of_app; [by left |].
        right. intros mi' fi' Hfn'. rewrite Hfn in Hfn'.
        destruct (Hcur mi' fi' Hfn') as (Hcm' & m1 & Hm1 & Hlt).
        rewrite Hcm in Hcm'. simplify_eq. done.
    + destruct Hcases as (-> & -> & ->). done.
  - split; [done |]. intros i m v mi fi Hm. simpl in Hm.
    by rewrite lookup_nil in Hm.
Qed.

(** X9.  In every index that [getDwarfData] returns, the function recorded
    for a variable is nil (the variable precedes every subprogram of its
    compile unit) or points to a function of the module that holds the
    variable: the pointer never dangles and never crosses modules. *)
Theorem getDwarfData_variables_point_home (raw : rawData) (d : dwarfData) :
  getDwarfData (Some raw) = Ok d →
  ∀ i m v, modules d !! i = Some m → v ∈ m_variables m →
    v_function v = None ∨
    ∃ fi f, v_function v = Some (i, fi) ∧ m_functions m !! fi = Some f ∧
            deref_func d (v_function v) = Ok f.
Proof.
  intros (c & d1 & mpiData & Hloop & Hres & ->)%getDwarfData_Ok.
  apply getDwarfData_loop_pointers in Hloop as [_ Hok].
  pose proof Hres as (mi & si & m0 & sf & fns' & _ & Hm0 & _ & Hlp & -> & _)
    %resolveMPIDebugInfo_Ok.
  apply resolveMPIDebugInfo_loop_Ok in Hlp as (Hlen & _ & _).
  assert (variables_point_home
            (<[mi := set_m_functions fns' m0]> (modules (data c)))) as Hok'.
  { eapply variables_point_home_replace; [done | simpl; lia | | done].
    intros v Hv. by left. }
  simpl. intros i m v Hm Hv.
  destruct (v_function v) as [[mi' fi]|] eqn:Hfn; [|by left]. right.
  destruct (Hok' i m v mi' fi Hm Hv Hfn) as [-> Hlt].
  apply lookup_lt_is_Some in Hlt as [f Hf].
  exists fi, f. split_and!; [done | done |]. simpl. by rewrite Hm, Hf.
Qed.

Lemma getDwarfData_variables_point_home_witness :
  getDwarfData (Some raw_with_variables) = Ok idx_with_variables ∧
  ∀ i m v, modules idx_with_variables !! i = Some m → v ∈ m_variables m →
    v_function v = None ∨
    ∃ fi f, v_function v = Some (i, fi) ∧ m_functions m !! fi = Some f ∧
            deref_func idx_with_variables (v_function v) = Ok f.
Proof.
  split; [vm_compute; reflexivity |].
  apply (getDwarfData_variables_point_home raw_with_variables idx_with_variables).
  vm_compute; reflexivity.
Defined.

(** ** The stack that a walk returns *)

Lemma fn_is_main_Ok d fn b :
  fn_is_main d fn = Ok b →
  ∃ f, deref_func d fn = Ok f ∧ (b = true ↔ fn_name f = MAIN_FN).
Proof.
  unfold fn_is_main. destruct (deref_func d fn) as [f|]; [|done]. simpl.
  intros [= <-]. exists f. split; [done |]. by rewrite bool_decide_eq_true.
Qed.

(** A turn that does not panic returns the stack as it is (no word of the
    frame resolved), or appends a function and returns (it is [main]), or
    appends a function that is not [main] and goes on. *)
Lemma getStack_loop_turn_Ok fuel d mem sp bp fnStack stack :
  getStack_loop (S fuel) d mem sp bp fnStack = Some (Ok stack) →
  stack = fnStack ∨
  (∃ fn f, stack = fnStack ++ [Some fn] ∧ deref_func d (Some fn) = Ok f ∧
           fn_name f = MAIN_FN) ∨
  (∃ fn f bp', deref_func d (Some fn) = Ok f ∧ fn_name f ≠ MAIN_FN ∧
     getStack_loop fuel d mem (wrap_u64 (sp + frame_size bp sp)) bp'
       (fnStack ++ [Some fn]) = Some (Ok stack)).
Proof.
  cbn [getStack_loop]. fold (frame_size bp sp).
  destruct (PtracePeekData mem sp (frame_size bp sp)) as [frameData|]; [|done].
  destruct (slice frameData 0 ptrSize) as [b0|]; [|done].
  assert (∀ fn,
    match getStack_frame (frame_offsets (frame_size bp sp)) frameData
            (frame_size bp sp) bp with
    | Ok basePointer' =>
        match fn_is_main d (Some fn) with
        | Ok true => Some (Ok (fnStack ++ [Some fn]))
        | Ok false =>
            getStack_loop fuel d mem (wrap_u64 (sp + frame_size bp sp))
              basePointer' (fnStack ++ [Some fn])
        | Panic p => Some (Panic p)
        end
    | Panic p => Some (Panic p)
    end = Some (Ok stack) →
    (∃ fn f, stack = fnStack ++ [Some fn] ∧ deref_func d (Some fn) = Ok f ∧
             fn_name f = MAIN_FN) ∨
    (∃ fn f bp', deref_func d (Some fn) = Ok f ∧ fn_name f ≠ MAIN_FN ∧
       getStack_loop fuel d mem (wrap_u64 (sp + frame_size bp sp)) bp'
         (fnStack ++ [Some fn]) = Some (Ok stack))) as Hpushed.
  { intros fn. destruct (getStack_frame _ _ _ _) as [bp'|]; [|done].
    destruct (fn_is_main d (Some fn)) as [b|] eqn:Hmain; [|done].
    apply fn_is_main_Ok in Hmain as (f & Hf & Hb). destruct b.
    - intros [= <-]. left. exists fn, f. split_and!; [done | done | by apply Hb].
    - intros Hnext. right. exists fn, f, bp'. split_and!; [done | | done].
      intros Hn. by apply Hb in Hn. }
  destruct (PCToFunc d (LittleEndian_Uint64 b0)) as [fn|].
  - intros H. right. by apply (Hpushed fn).
  - destruct (slice frameData ptrSize (2 * ptrSize)) as [b1|]; [|done]. simpl.
    destruct (PCToFunc d (LittleEndian_Uint64 b1)) as [fn|].
    + intros H. right. by apply (Hpushed fn).
    + intros [= <-]. by left.
Qed.

Lemma getStack_loop_callers fuel d mem sp bp fnStack stack :
  getStack_loop fuel d mem sp bp fnStack = Some (Ok stack) →
  ∃ callers, stack = fnStack ++ callers ∧ callers_up_to_main d callers.
Proof.
  revert sp bp fnStack. induction fuel as [|fuel IH]; intros sp bp fnStack; [done |].
  intros [-> | [(fn & f & -> & Hf & Hn) | (fn & f & bp' & Hf & Hn & Hnext)]]
    %getStack_loop_turn_Ok.
  - exists []. split; [by rewrite app_nil_r |]. intros i p Hi.
    by rewrite lookup_nil in Hi.
  - exists [Some fn]. split; [done |].
    intros i p [-> <-]%list_lookup_singleton_Some. eauto.
  - destruct (IH _ _ _ Hnext) as (callers & -> & Hcallers).
    exists (Some fn :: callers). split; [by rewrite <- app_assoc |].
    intros [|i] p Hi; simpl in Hi.
    + injection Hi as <-. exists f. split; [done |]. done.
    + destruct (Hcallers i p Hi) as (g & Hg & Hlast). exists g.
      split; [done |]. intros Hmain. simpl. f_equal. by apply Hlast.
Qed.

(** X11.  The stack that [getStack] returns starts with [PCToFunc(RIP)]
    (nil when the instruction pointer lies in no function); every function
    after it is a function of the index, never nil, and [main] occurs among
    them only as the last one: the walk stops at the first frame of [main]. *)
Theorem getStack_stack_shape (fuel : nat) (d : dwarfData) (mem : memory)
    (regs : PtraceRegs) (stack : list funcPtr) :
  getStack fuel d mem regs = Some (Ok stack) →
  ∃ callers, stack = PCToFunc d (Rip regs) :: callers ∧
             callers_up_to_main d callers.
Proof.
  unfold getStack. intros (callers & -> & Hcallers)%getStack_loop_callers.
  by exists callers.
Qed.

Example getStack_main_sample :
  getStack 1 idx_main mem_main regs_in_f
  = Some (Ok [ Some (0%nat, 0%nat); Some (0%nat, 1%nat) ]).
Proof. vm_compute. reflexivity. Qed.

Lemma getStack_stack_shape_witness :
  getStack 1 idx_main mem_main regs_in_f
    = Some (Ok [ Some (0%nat, 0%nat); Some (0%nat, 1%nat) ]) ∧
  ∃ callers,
    [ Some (0%nat, 0%nat); Some (0%nat, 1%nat) ]
      = PCToFunc idx_main (Rip regs_in_f) :: callers ∧
    callers_up_to_main idx_main callers.
Proof.
  split; [vm_compute; reflexivity |].
  apply (getStack_stack_shape 1 idx_main mem_main regs_in_f).
  vm_compute; reflexivity.
Defined.

Example getDwarfData_main : getDwarfData (Some raw_main) = Ok idx_main.
Proof. vm_compute. reflexivity. Qed.

(** ** Rendering a stack *)

Lemma append_assoc (a b c : string) : (a +:+ b) +:+ c = a +:+ b +:+ c.
Proof.
  induction a as [|x a IH]; [done |].
  change (String x ((a +:+ b) +:+ c) = String x (a +:+ b +:+ c)). by f_equal.
Qed.

Lemma append_empty_r (a : string) : a +:+ "" = a.
Proof.
  induction a as [|x a IH]; [done |].
  change (String x (a +:+ "") = String x a). by f_equal.
Qed.

Lemma functionStack_String_loop_Ok d len index stack fs str :
  stack_functions d stack fs → len = (index + length stack)%nat →
  functionStack_String_loop d len index stack str
  = Ok (str +:+ join_names (fn_name <$> fs)).
Proof.
  intros HF. revert index str.
  induction HF as [|p f stack fs Hp HF IH]; intros index str Hlen; simpl.
  - by rewrite append_empty_r.
  - rewrite Hp. simpl. rewrite (IH (S index)) by (simpl in Hlen; lia).
    f_equal. destruct HF as [|p' f' stack' fs' Hp' HF'].
    + simpl. rewrite decide_False by (simpl in Hlen; lia).
      by rewrite append_empty_r.
    + rewrite decide_True by (simpl in Hlen; lia).
      cbn [fmap list_fmap join_names]. by rewrite !append_assoc.
Qed.

Lemma functionStack_String_loop_Panic d len index stack str p :
  p ∈ stack → (∀ f, deref_func d p ≠ Ok f) →
  functionStack_String_loop d len index stack str = Panic NilDereference.
Proof.
  intros Hin Hnil. revert index str.
  induction stack as [|q stack IH]; intros index str; [by apply elem_of_nil in Hin |].
  simpl. destruct (deref_func d q) as [f|e] eqn:Hq; simpl.
  - apply elem_of_cons in Hin as [-> | Hin]; [by destruct (Hnil f) |]. by apply IH.
  - f_equal. unfold deref_func in Hq.
    destruct q as [[mi fi]|]; [|congruence].
    destruct (modules d !! mi) as [m|]; [|congruence].
    destruct (m_functions m !! fi); congruence.
Qed.

(** X12.  [functionStack.String] renders the function names of the stack,
    innermost first, joined by [" <- "], with no separator after the last
    one and the empty string for the empty stack; on a stack that holds a nil
    function it panics on the nil dereference instead of returning a string. *)
Theorem functionStack_String_joins (d : dwarfData) (stack : list funcPtr) :
  (∀ fs, stack_functions d stack fs →
     functionStack_String d stack = Ok (join_names (fn_name <$> fs))) ∧
  (None ∈ stack → functionStack_String d stack = Panic NilDereference).
Proof.
  split.
  - intros fs HF. unfold functionStack_String.
    by rewrite (functionStack_String_loop_Ok d _ 0 stack fs "").
  - intros Hin. unfold functionStack_String.
    by apply (functionStack_String_loop_Panic d _ 0 stack "" None).
Qed.

Lemma functionStack_String_joins_witness :
  stack_functions idx_main [ Some (0%nat, 0%nat); Some (0%nat, 1%nat) ]
    [ sample_func "f" 1 1 0 4096; sample_func "main" 1 8 4096 8000 ] ∧
  functionStack_String idx_main [ Some (0%nat, 0%nat); Some (0%nat, 1%nat) ]
    = Ok "f <- main".
Proof.
  assert (stack_functions idx_main [ Some (0%nat, 0%nat); Some (0%nat, 1%nat) ]
            [ sample_func "f" 1 1 0 4096; sample_func "main" 1 8 4096 8000 ]) as HF.
  { repeat constructor. }
  split; [done |].
  destruct (functionStack_String_joins idx_main
              [ Some (0%nat, 0%nat); Some (0%nat, 1%nat) ]) as [Hjoin _].
  apply (Hjoin _ HF).
Defined.

(** X13.  When the instruction pointer lies in no function of the index, the
    stack that [getStack] returns cannot be rendered: [functionStack.String]
    panics on its first element. *)
Theorem getStack_outside_functions_cannot_render (fuel : nat) (d : dwarfData)
    (mem : memory) (regs : PtraceRegs) (stack : list funcPtr) :
  PCToFunc d (Rip regs) = None →
  getStack fuel d mem regs = Some (Ok stack) →
  functionStack_String d stack = Panic NilDereference.
Proof.
  unfold getStack. intros Hrip (callers & -> & _)%getStack_loop_callers.
  rewrite Hrip. unfold functionStack_String.
  apply (functionStack_String_loop_Panic d _ 0 _ "" None); [|done].
  apply list_elem_of_here.
Qed.

Lemma getStack_outside_functions_cannot_render_witness :
  PCToFunc idx_main (Rip regs_outside) = None ∧
  getStack 1 idx_main mem_main regs_outside
    = Some (Ok [ None; Some (0%nat, 1%nat) ]) ∧
  functionStack_String idx_main [ None; Some (0%nat, 1%nat) ] = Panic NilDereference.
Proof.
  assert (PCToFunc idx_main (Rip regs_outside) = None) as Hrip
    by (vm_compute; reflexivity).
  assert (getStack 1 idx_main mem_main regs_outside
            = Some (Ok [ None; Some (0%nat, 1%nat) ])) as Hget
    by (vm_compute; reflexivity).
  split_and!; [done | done |].
  apply (getStack_outside_functions_cannot_render 1 idx_main mem_main regs_outside
           _ Hrip Hget).
Defined.

(** ** Frames whose size is not a multiple of the pointer size *)

Lemma PtracePeekData_length mem addr n frameData :
  PtracePeekData mem addr n = Ok frameData → length frameData = Z.to_nat n.
Proof.
  unfold PtracePeekData. destruct (mapM _ _) as [l|] eqn:Hl; [|done].
  intros [= <-]. apply mapM_Some_1, Forall2_length in Hl.
  by rewrite <- Hl, length_seqZ.
Qed.

Lemma PtracePeekData_Panic mem addr n p :
  PtracePeekData mem addr n = Panic p → p = ExplicitPanic.
Proof. unfold PtracePeekData. destruct (mapM _ _); [done | by intros [= <-]]. Qed.

Lemma slice_Panic frameData lo hi p :
  slice frameData lo hi = Panic p → p = SliceOutOfRange.
Proof. unfold slice. case_decide; [done | by intros [= <-]]. Qed.

Lemma slice_Ok frameData lo hi b :
  slice frameData lo hi = Ok b → hi ≤ Z.of_nat (length frameData).
Proof. unfold slice. case_decide; [lia | done]. Qed.

Lemma getStack_frame_unaligned offsets frameData frameSize bp :
  frameSize `mod` 8 ≠ 0 → Z.of_nat (length frameData) = frameSize →
  (∀ o, o ∈ offsets → o `mod` 8 = 0) →
  (∃ o, o ∈ offsets ∧ frameSize < o + ptrSize) →
  getStack_frame offsets frameData frameSize bp = Panic SliceOutOfRange.
Proof.
  intros Hmod Hlen. induction offsets as [|o offsets IH]; intros Hal Hout.
  - destruct Hout as (o & Ho & _). by apply elem_of_nil in Ho.
  - simpl. destruct (slice frameData o (o + ptrSize)) as [content|p] eqn:Hs; simpl.
    + apply slice_Ok in Hs. rewrite decide_False.
      * apply IH.
        -- intros o' Ho'. apply Hal. by apply list_elem_of_further.
        -- destruct Hout as (o' & [-> | Ho']%elem_of_cons & Hlt); [lia | eauto].
      * intros ->. specialize (Hal _ (list_elem_of_here _ _)).
        unfold ptrSize in Hal.
        replace frameSize with (frameSize - 8 + 1 * 8) in Hmod by lia.
        rewrite Z.mod_add in Hmod by lia. done.
    + by apply slice_Panic in Hs as ->.
Qed.

Lemma frame_offsets_unaligned frameSize :
  9 ≤ frameSize → frameSize `mod` 8 ≠ 0 →
  (∀ o, o ∈ frame_offsets frameSize → o `mod` 8 = 0) ∧
  ∃ o, o ∈ frame_offsets frameSize ∧ frameSize < o + ptrSize.
Proof.
  intros Hlo Hmod. unfold frame_offsets, ptrSize. split.
  - intros o (k & -> & _)%list_elem_of_fmap.
    rewrite Z.mul_comm. apply Z.mod_mul. lia.
  - pose proof (Z.div_mod (frameSize + 8 - 1) 8 ltac:(lia)) as Hdm.
    pose proof (Z.mod_pos_bound (frameSize + 8 - 1) 8 ltac:(lia)) as Hb.
    exists (8 * ((frameSize + 8 - 1) `div` 8 - 1)). split.
    + apply list_elem_of_fmap. eexists. split; [done |].
      apply elem_of_seqZ. lia.
    + assert ((frameSize + 8 - 1) `mod` 8 ≠ 7); [|lia].
      intros H7. apply Hmod.
      replace frameSize with ((frameSize + 8 - 1) `div` 8 * 8) by lia.
      apply Z.mod_mul. lia.
Qed.

(** X14.  A frame whose size is not a multiple of 8 ends the walk: the turn
    never goes on to a further frame and never appends a function.  It
    aborts on the failed read, or it panics on a slice past the frame (always
    so when one of the first two words of the frame resolves to a function),
    or it returns the stack as it is when neither word resolves. *)
Theorem getStack_unaligned_frame_ends (fuel : nat) (d : dwarfData) (mem : memory)
    (sp bp : Z) (fnStack : list funcPtr) :
  frame_size bp sp `mod` 8 ≠ 0 →
  getStack_loop (S fuel) d mem sp bp fnStack = Some (Panic ExplicitPanic) ∨
  getStack_loop (S fuel) d mem sp bp fnStack = Some (Panic SliceOutOfRange) ∨
  getStack_loop (S fuel) d mem sp bp fnStack = Some (Ok fnStack).
Proof.
  intros Hmod. cbn [getStack_loop]. fold (frame_size bp sp).
  pose proof (frame_size_bounds bp sp) as [Hlo Hhi].
  destruct (PtracePeekData mem sp (frame_size bp sp)) as [frameData|p] eqn:Hpeek;
    [|apply PtracePeekData_Panic in Hpeek as ->; by left].
  apply PtracePeekData_length in Hpeek.
  assert (Z.of_nat (length frameData) = frame_size bp sp) as Hlen by lia.
  destruct (frame_offsets_unaligned (frame_size bp sp) Hlo Hmod) as [Hal Hout].
  pose proof (getStack_frame_unaligned _ frameData (frame_size bp sp) bp
                Hmod Hlen Hal Hout) as Hframe.
  destruct (slice frameData 0 ptrSize) as [b0|p] eqn:Hs0;
    [|apply slice_Panic in Hs0 as ->; by right; left].
  destruct (PCToFunc d (LittleEndian_Uint64 b0)) as [fn|].
  - rewrite Hframe. by right; left.
  - destruct (slice frameData ptrSize (2 * ptrSize)) as [b1|p] eqn:Hs1; simpl;
      [|apply slice_Panic in Hs1 as ->; by right; left].
    destruct (PCToFunc d (LittleEndian_Uint64 b1)) as [fn|].
    + rewrite Hframe. by right; left.
    + by right; right.
Qed.

Lemma getStack_unaligned_frame_ends_witness :
  frame_size (Rbp regs_unaligned) (Rsp regs_unaligned) `mod` 8 ≠ 0 ∧
  getStack_loop 1 idx_frames mem_frames (Rsp regs_unaligned) (Rbp regs_unaligned) []
    = Some (Panic SliceOutOfRange).
Proof.
  assert (frame_size (Rbp regs_unaligned) (Rsp regs_unaligned) `mod` 8 ≠ 0) as Hmod
    by (vm_compute; discriminate).
  split; [done |].
  destruct (getStack_unaligned_frame_ends 0 idx_frames mem_frames
              (Rsp regs_unaligned) (Rbp regs_unaligned) [] Hmod)
    as [H | [H | H]]; [| done |]; vm_compute in H; discriminate H.
Defined.

(** ** Registering and removing nodes *)

Lemma Register_counts_without_removal_witness :
  dense emptyRegistry ∧
  (serve (CallRegister <$> [100; 101; 102]) emptyRegistry).2 = [0; 1; 2].
Proof.
  assert (dense emptyRegistry) as Hdense.
  { intros k. unfold emptyRegistry, len. simpl. rewrite lookup_empty.
    split; [by intros [] | rewrite map_size_empty; lia]. }
  split; [done |].
  apply (Register_counts_without_removal [100; 101; 102] emptyRegistry Hdense).
Defined.



(** X17.  Registering a node under a free id and then reporting that node's
    exit gives back the registry's node map as it was; the shutdown is
    scheduled by that report exactly when the map was empty before (or the
    shutdown was scheduled already).  A report without the exited flag
    changes nothing. *)
Theorem Register_then_exit_restores (pid : Z) (r : registry) :
  registeredNodes r !! len (registeredNodes r) = None →
  let r' := ReportCommandResult
              {| NodeId := (Register pid r).2; Exited := true |} (Register pid r).1 in
  registeredNodes r' = registeredNodes r ∧
  (shutdownScheduled r' = true ↔
   registeredNodes r = ∅ ∨ shutdownScheduled r = true) ∧
  ReportCommandResult {| NodeId := (Register pid r).2; Exited := false |}
    (Register pid r).1 = (Register pid r).1.
Proof.
  intros Hfree. unfold Register, ReportCommandResult. simpl.
  rewrite delete_insert_id by done. split_and!; [done | | done].
  unfold len. case_decide as Hsize.
  - split; [|done]. intros _. left. apply map_size_empty_inv. lia.
  - split; [by right |]. intros [Hempty | Hs]; [|done].
    rewrite Hempty, map_size_empty in Hsize. done.
Qed.

Lemma Register_then_exit_restores_witness :
  registeredNodes emptyRegistry !! len (registeredNodes emptyRegistry) = None ∧
  shutdownScheduled
    (ReportCommandResult
       {| NodeId := (Register 100 emptyRegistry).2; Exited := true |}
       (Register 100 emptyRegistry).1) = true.
Proof.
  assert (registeredNodes emptyRegistry !! len (registeredNodes emptyRegistry) = None)
    as Hfree by (vm_compute; reflexivity).
  split; [done |].
  destruct (Register_then_exit_restores 100 emptyRegistry Hfree) as (_ & Hsched & _).
  apply Hsched. by left.
Defined.

(** ** The function that [parseFunction] builds *)

Lemma parseFunction_fields_app f0 l1 l2 :
  parseFunction_fields f0 (l1 ++ l2)
  = (f1 ← parseFunction_fields f0 l1; parseFunction_fields f1 l2).
Proof.
  revert f0. induction l1 as [|field l1 IH]; intros f0; [done |].
  simpl. destruct (parseFunction_field f0 field) as [f1|]; [|done]. simpl. apply IH.
Qed.

Lemma last_Val_snoc fields field a :
  last_Val (fields ++ [field]) a
  = if decide (f_Attr field = a) then Some (f_Val field) else last_Val fields a.
Proof.
  unfold last_Val. rewrite filter_app, filter_cons, filter_nil.
  case_decide as Hattr.
  - by rewrite last_snoc.
  - by rewrite app_nil_r.
Qed.

Lemma fields_onto_nil f0 : fields_onto f0 [] = f0.
Proof. by destruct f0. Qed.

Lemma parseFunction_field_onto f0 fields field f :
  parseFunction_field (fields_onto f0 fields) field = Ok f ↔
  field_typed field ∧ f = fields_onto f0 (fields ++ [field]).
Proof.
  unfold parseFunction_field, field_typed, fields_onto.
  rewrite !last_Val_snoc.
  destruct (f_Attr field) eqn:Hattr; simpl;
    try (split; [intros [= <-]; by split | by intros [_ ->]]);
    destruct (f_Val field) as [s|z|o|b|] eqn:Hval; simpl;
    (split; [intros Hok | intros [[x Hx] ->]]); try done;
    try (injection Hok as <-; split; [by eexists | done]).
Qed.

Lemma parseFunction_fields_onto f0 fields f :
  parseFunction_fields f0 fields = Ok f ↔
  Forall field_typed fields ∧ f = fields_onto f0 fields.
Proof.
  revert f. induction fields as [|field fields IH] using rev_ind; intros f.
  - simpl. rewrite fields_onto_nil. split; [by intros [= <-] | by intros [_ ->]].
  - rewrite parseFunction_fields_app, Forall_app, Forall_singleton.
    assert ((∃ f1, parseFunction_fields f0 fields = Ok f1) ∨
            (∃ p, parseFunction_fields f0 fields = Panic p)) as [[f1 Hfields]|[p Hfields]]
      by (destruct (parseFunction_fields f0 fields); eauto);
      rewrite Hfields; simpl.
    + apply IH in Hfields as [Htyped ->].
      destruct (parseFunction_field (fields_onto f0 fields) field) as [f2|p] eqn:Hfield;
        simpl.
      * apply parseFunction_field_onto in Hfield as [Htyped' ->].
        split; [by intros [= <-] | by intros [_ ->]].
      * split; [done |]. intros [[_ Htyped'] ->].
        assert (parseFunction_field (fields_onto f0 fields) field
                = Ok (fields_onto f0 (fields ++ [field]))) as Hok
          by (by apply parseFunction_field_onto).
        congruence.
    + split; [done |]. intros [[Htyped _] _].
      assert (parseFunction_fields f0 fields = Ok (fields_onto f0 fields)) as Hok
        by (by apply IH).
      congruence.
Qed.

Lemma parseFunction_fields_Panic f0 fields p :
  parseFunction_fields f0 fields = Panic p → p = TypeAssertion.
Proof.
  revert f0. induction fields as [|field fields IH]; intros f0; [done |].
  simpl. destruct (parseFunction_field f0 field) as [f1|q] eqn:Hfield; simpl.
  - apply IH.
  - intros [= <-]. unfold parseFunction_field in Hfield.
    destruct (f_Attr field); try done;
      destruct (f_Val field); simpl in Hfield; congruence.
Qed.

(** X18.  [parseFunction] returns exactly when every name field of the entry
    holds a string, every declaration file, line and column field holds an
    int64, and the entry has an address range.  The function it returns takes
    each attribute from the last field that gives it (the line less one) and
    the zero value where no field does, the addresses from the first range,
    and has no parameters.  A field of the wrong type makes it panic on the
    type assertion, whatever field follows and whether or not the entry has a
    range. *)
Theorem parseFunction_last_field_wins (entry : Entry) :
  (∀ f, parseFunction entry = Ok f ↔
     Forall field_typed (en_Field entry) ∧
     ∃ r rs, en_Ranges entry = Some (r :: rs) ∧
             f = function_of_fields (en_Field entry) r) ∧
  (¬ Forall field_typed (en_Field entry) →
   parseFunction entry = Panic TypeAssertion).
Proof.
  unfold parseFunction. split.
  - intros f.
    destruct (parseFunction_fields emptyFunc (en_Field entry)) as [f1|p] eqn:Hfields;
      simpl.
    + apply parseFunction_fields_onto in Hfields as [Htyped ->].
      unfold first_range. destruct (en_Ranges entry) as [[|r rs]|]; simpl.
      * split; [done |]. by intros (_ & r & rs & Hr & _).
      * split.
        -- intros [= <-]. split; [done |]. by exists r, rs.
        -- intros (_ & r' & rs' & [= <- <-] & ->). done.
      * split; [done |]. by intros (_ & r & rs & Hr & _).
    + split; [done |]. intros [Htyped _].
      assert (parseFunction_fields emptyFunc (en_Field entry)
              = Ok (fields_onto emptyFunc (en_Field entry))) as Hok
        by (by apply parseFunction_fields_onto).
      congruence.
  - intros Hbad.
    destruct (parseFunction_fields emptyFunc (en_Field entry)) as [f1|p] eqn:Hfields;
      simpl.
    + by apply parseFunction_fields_onto in Hfields as [Htyped _].
    + by apply parseFunction_fields_Panic in Hfields as ->.
Qed.

(** ** Base types and the entries that refer to them *)

Lemma types_declared_snoc seen e o :
  types_declared (seen ++ [e]) o
  = if decide (en_Tag e = TagBaseType ∧ en_Offset e = o) then base_type_of e
    else types_declared seen o.
Proof.
  unfold types_declared. rewrite filter_app, filter_cons, filter_nil.
  case_decide as He.
  - by rewrite last_snoc.
  - by rewrite app_nil_r.
Qed.

Lemma getDwarfData_entry_types c e c' :
  getDwarfData_entry c e = Ok c' →
  (en_Tag e = TagBaseType ∧ ∃ bt, base_type_of e = Some bt ∧
     types (data c') = <[en_Offset e := bt]> (types (data c))) ∨
  (en_Tag e ≠ TagBaseType ∧ types (data c') = types (data c)).
Proof.
  unfold getDwarfData_entry, base_type_of. destruct (en_Tag e) eqn:Htag.
  - destruct (entry_Val e AttrName) as [name| | | |]; try done. simpl.
    destruct (entry_Val e AttrByteSize) as [|byteSize| | |]; try done. simpl.
    destruct (entry_Val e AttrEncoding) as [|encoding| | |]; try done. simpl.
    intros [= <-]. left. split; [done |]. by eexists.
  - destruct (parseModule e) as [m|]; [|done]. simpl.
    intros [= <-]. by right.
  - destruct (parseFunction e) as [f|]; [|done]. simpl.
    destruct (currentModule c) as [mi|]; [|done]. simpl.
    destruct (modules (data c) !! mi) as [m|]; [|done]. simpl.
    intros [= <-]. by right.
  - destruct (parseFunctionParameter e (data c)) as [p|]; [|done]. simpl.
    destruct (currentFunction c) as [[mi fi]|]; [|done]. simpl.
    destruct (modules (data c) !! mi) as [m|]; [|done]. simpl.
    destruct (m_functions m !! fi) as [f|]; [|done]. simpl.
    intros [= <-]. by right.
  - destruct (entry_Val e AttrType) as [| |o| |]; try done. simpl.
    destruct (entry_Val e AttrName) as [name| | | |]; try done. simpl.
    destruct (entry_Val e AttrLocation) as [| | |b|]; try done; simpl;
      (destruct (currentModule c) as [mi|]; [|done]); simpl;
      (destruct (modules (data c) !! mi) as [m|]; [|done]); simpl;
      intros [= <-]; by right.
  - intros [= <-]. by right.
Qed.

Lemma getDwarfData_entry_types_declared seen c e c' :
  (∀ o, types (data c) !! o = types_declared seen o) →
  getDwarfData_entry c e = Ok c' →
  ∀ o, types (data c') !! o = types_declared (seen ++ [e]) o.
Proof.
  intros Htypes Hentry o. rewrite types_declared_snoc.
  destruct (getDwarfData_entry_types c e c' Hentry)
    as [(Htag & bt & Hbt & ->) | (Htag & ->)].
  - case_decide as He.
    + destruct He as [_ <-]. by rewrite lookup_insert_eq.
    + rewrite lookup_insert_ne; [apply Htypes |]. intros Ho. apply He. by split.
  - case_decide as He; [by destruct He | apply Htypes].
Qed.

Lemma getDwarfData_loop_types seen c :
  getDwarfData_loop initialCursor seen = Ok c →
  ∀ o, types (data c) !! o = types_declared seen o.
Proof.
  apply (getDwarfData_loop_invariant
           (λ seen c, ∀ o, types (data c) !! o = types_declared seen o)).
  - intros seen' e rest c0 c' _ Htypes Hentry.
    by apply (getDwarfData_entry_types_declared seen' c0).
  - intros o. apply lookup_empty.
Qed.

Lemma resolveMPIDebugInfo_types d d' mpiData :
  resolveMPIDebugInfo d = Ok (d', mpiData) → types d' = types d.
Proof.
  intros (mi & si & m & sf & fns' & _ & _ & _ & _ & -> & _)%resolveMPIDebugInfo_Ok.
  done.
Qed.

(** X19.  The types table of a loaded index is keyed by the offsets of the
    base-type entries of the stream: an offset maps to the name, byte size
    and encoding of the last base-type entry with that offset, and an offset
    of no base-type entry has no type. *)
Theorem getDwarfData_types_last_declared (raw : rawData) (d : dwarfData) :
  getDwarfData (Some raw) = Ok d →
  ∀ o, types d !! o = types_declared (rd_entries raw) o.
Proof.
  intros (c & d1 & mpiData & Hloop & Hres & ->)%getDwarfData_Ok o.
  simpl. rewrite (resolveMPIDebugInfo_types _ _ _ Hres).
  by apply getDwarfData_loop_types.
Qed.

Lemma getDwarfData_types_last_declared_witness :
  getDwarfData (Some raw_with_types) = Ok idx_with_types ∧
  ∀ o, types idx_with_types !! o = types_declared (rd_entries raw_with_types) o.
Proof.
  split; [vm_compute; reflexivity |].
  apply (getDwarfData_types_last_declared raw_with_types idx_with_types).
  vm_compute; reflexivity.
Defined.

Lemma read_from_snoc seen e tag name bt :
  read_from seen tag name bt → read_from (seen ++ [e]) tag name bt.
Proof.
  intros (s & e0 & rest & -> & Htag & Htyped).
  exists s, e0, (rest ++ [e]). by rewrite <- app_assoc.
Qed.

Lemma read_from_last seen e name bt :
  typed_at seen e name bt → read_from (seen ++ [e]) (en_Tag e) name bt.
Proof. intros Htyped. by exists seen, e, []. Qed.

Lemma elem_of_insert_cases {A} (l : list A) (i : nat) (x y : A) :
  y ∈ <[i := x]> l → y = x ∨ y ∈ l.
Proof.
  intros [j Hj]%list_elem_of_lookup_1.
  apply list_lookup_insert_Some in Hj as [(_ & -> & _) | [_ Hj]]; [by left |].
  right. by eapply list_elem_of_lookup_2.
Qed.

Lemma parseFunction_no_parameters e f :
  parseFunction e = Ok f → fn_parameters f = [].
Proof.
  unfold parseFunction.
  destruct (parseFunction_fields emptyFunc (en_Field e)) as [f1|]; [|done]. simpl.
  destruct (first_range e) as [r|]; [|done]. simpl. by intros [= <-].
Qed.

Lemma parseFunctionParameter_typed e d p :
  parseFunctionParameter e d = Ok p →
  ∃ o, entry_Val e AttrType = VOffset o ∧ entry_Val e AttrName = VString (p_name p) ∧
       p_baseType p = default unknownType (types d !! o).
Proof.
  unfold parseFunctionParameter.
  destruct (entry_Val e AttrType) as [| |o| |]; try done. simpl.
  destruct (entry_Val e AttrName) as [name| | | |]; try done. simpl.
  destruct (entry_Val e AttrLocation) as [| | |b|]; try done. simpl.
  intros [= <-]. by exists o.
Qed.

(** What one turn of the loop adds: the variables and parameters of the new
    cursor are those of the old one, and the one read from [e]. *)
Lemma getDwarfData_entry_items c e c' :
  getDwarfData_entry c e = Ok c' →
  (∀ m' v, m' ∈ modules (data c') → v ∈ m_variables m' →
     (∃ m, m ∈ modules (data c) ∧ v ∈ m_variables m) ∨
     (en_Tag e = TagVariable ∧
      ∃ o, entry_Val e AttrType = VOffset o ∧
           entry_Val e AttrName = VString (v_name v) ∧
           v_baseType v = default unknownType (types (data c) !! o))) ∧
  (∀ m' f' p, m' ∈ modules (data c') → f' ∈ m_functions m' → p ∈ fn_parameters f' →
     (∃ m f, m ∈ modules (data c) ∧ f ∈ m_functions m ∧ p ∈ fn_parameters f) ∨
     (en_Tag e = TagFormalParameter ∧
      ∃ o, entry_Val e AttrType = VOffset o ∧
           entry_Val e AttrName = VString (p_name p) ∧
           p_baseType p = default unknownType (types (data c) !! o))).
Proof.
  unfold getDwarfData_entry. destruct (en_Tag e) eqn:Htag.
  - destruct (entry_Val e AttrName) as [name| | | |]; try done. simpl.
    destruct (entry_Val e AttrByteSize) as [|byteSize| | |]; try done. simpl.
    destruct (entry_Val e AttrEncoding) as [|encoding| | |]; try done. simpl.
    intros [= <-]. simpl. split; intros; left; eauto.
  - destruct (parseModule e) as [m|] eqn:Hparse; [|done]. simpl.
    intros [= <-]. simpl.
    apply parseModule_Ok in Hparse as (name & r & lr & dEntries & _ & _ & _ & ->).
    split.
    + intros m' v [Hm' | ->%list_elem_of_singleton]%elem_of_app Hv;
        [left; eauto | by apply elem_of_nil in Hv].
    + intros m' f' p [Hm' | ->%list_elem_of_singleton]%elem_of_app Hf' Hp;
        [left; eauto | by apply elem_of_nil in Hf'].
  - destruct (parseFunction e) as [f|] eqn:Hparse; [|done]. simpl.
    destruct (currentModule c) as [mi|]; [|done]. simpl.
    destruct (modules (data c) !! mi) as [m|] eqn:Hm; [|done]. simpl.
    intros [= <-]. simpl.
    apply parseFunction_no_parameters in Hparse.
    apply list_elem_of_lookup_2 in Hm.
    split.
    + intros m' v [-> | Hm']%elem_of_insert_cases Hv; left; eauto.
    + intros m' f' p [-> | Hm']%elem_of_insert_cases Hf' Hp; [|left; eauto].
      simpl in Hf'. apply elem_of_app in Hf' as [Hf' | ->%list_elem_of_singleton];
        [left; eauto |].
      rewrite Hparse in Hp. by apply elem_of_nil in Hp.
  - destruct (parseFunctionParameter e (data c)) as [p0|] eqn:Hparse; [|done]. simpl.
    destruct (currentFunction c) as [[mi fi]|]; [|done]. simpl.
    destruct (modules (data c) !! mi) as [m|] eqn:Hm; [|done]. simpl.
    destruct (m_functions m !! fi) as [f|] eqn:Hf; [|done]. simpl.
    intros [= <-]. simpl.
    apply parseFunctionParameter_typed in Hparse.
    apply list_elem_of_lookup_2 in Hm. apply list_elem_of_lookup_2 in Hf.
    split.
    + intros m' v [-> | Hm']%elem_of_insert_cases Hv; left; eauto.
    + intros m' f' p [-> | Hm']%elem_of_insert_cases Hf' Hp; [|left; eauto].
      simpl in Hf'. apply elem_of_insert_cases in Hf' as [-> | Hf']; [|left; eauto].
      simpl in Hp. apply elem_of_app in Hp as [Hp | ->%list_elem_of_singleton];
        [left; eauto |].
      by right.
  - destruct (entry_Val e AttrType) as [| |o| |] eqn:Ho; try done. simpl.
    destruct (entry_Val e AttrName) as [name| | | |] eqn:Hn; try done. simpl.
    destruct (entry_Val e AttrLocation) as [| | |b|]; try done; simpl;
      (destruct (currentModule c) as [mi|]; [|done]); simpl;
      (destruct (modules (data c) !! mi) as [m|] eqn:Hm; [|done]); simpl;
      intros [= <-]; simpl; apply list_elem_of_lookup_2 in Hm;
      (split;
       [ intros m' v [-> | Hm']%elem_of_insert_cases Hv; [|left; eauto];
         simpl in Hv; apply elem_of_app in Hv as [Hv | ->%list_elem_of_singleton];
         [left; eauto | right; split; [done |]; by exists o]
       | intros m' f' p [-> | Hm']%elem_of_insert_cases Hf' Hp; left; eauto ]).
  - intros [= <-]. split; intros; left; eauto.
Qed.

Lemma getDwarfData_loop_items seen c :
  getDwarfData_loop initialCursor seen = Ok c →
  (∀ m v, m ∈ modules (data c) → v ∈ m_variables m →
     read_from seen TagVariable (v_name v) (v_baseType v)) ∧
  (∀ m f p, m ∈ modules (data c) → f ∈ m_functions m → p ∈ fn_parameters f →
     read_from seen TagFormalParameter (p_name p) (p_baseType p)).
Proof.
  intros Hloop.
  cut ((∀ o, types (data c) !! o = types_declared seen o) ∧
       (∀ m v, m ∈ modules (data c) → v ∈ m_variables m →
          read_from seen TagVariable (v_name v) (v_baseType v)) ∧
       (∀ m f p, m ∈ modules (data c) → f ∈ m_functions m → p ∈ fn_parameters f →
          read_from seen TagFormalParameter (p_name p) (p_baseType p)));
    [by intros (_ & ? & ?) |].
  revert Hloop.
  apply (getDwarfData_loop_invariant
           (λ seen c,
              (∀ o, types (data c) !! o = types_declared seen o) ∧
              (∀ m v, m ∈ modules (data c) → v ∈ m_variables m →
                 read_from seen TagVariable (v_name v) (v_baseType v)) ∧
              (∀ m f p, m ∈ modules (data c) → f ∈ m_functions m →
                 p ∈ fn_parameters f →
                 read_from seen TagFormalParameter (p_name p) (p_baseType p)))).
  - intros seen' e rest c0 c' _ (Htypes & Hvars & Hparams) Hentry.
    destruct (getDwarfData_entry_items c0 e c' Hentry) as [Hv Hp].
    split_and!.
    + by apply (getDwarfData_entry_types_declared seen' c0).
    + intros m' v Hm' Hin.
      destruct (Hv m' v Hm' Hin) as [(m & Hm & Hold) | (Htag & o & Ho & Hn & Hbt)].
      * apply read_from_snoc. by eapply Hvars.
      * rewrite <- Htag. apply read_from_last. exists o. by rewrite <- Htypes.
    + intros m' f' p Hm' Hf' Hin.
      destruct (Hp m' f' p Hm' Hf' Hin)
        as [(m & f & Hm & Hf & Hold) | (Htag & o & Ho & Hn & Hbt)].
      * apply read_from_snoc. by eapply Hparams.
      * rewrite <- Htag. apply read_from_last. exists o. by rewrite <- Htypes.
  - split_and!.
    + intros o. apply lookup_empty.
    + intros m v Hm. by apply elem_of_nil in Hm.
    + intros m f p Hm. by apply elem_of_nil in Hm.
Qed.

(** X20.  Every variable and every parameter of a loaded index was read from
    a variable or formal-parameter entry of the stream that has its name,
    and its base type is the one that the entries before that entry declare
    at the offset of its type attribute: a base type declared only later in
    the stream is not found, and the variable or parameter is stored with
    the unknown type. *)
Theorem getDwarfData_types_resolved_when_read (raw : rawData) (d : dwarfData) :
  getDwarfData (Some raw) = Ok d →
  (∀ m v, m ∈ modules d → v ∈ m_variables m →
     read_from (rd_entries raw) TagVariable (v_name v) (v_baseType v)) ∧
  (∀ m f p, m ∈ modules d → f ∈ m_functions m → p ∈ fn_parameters f →
     read_from (rd_entries raw) TagFormalParameter (p_name p) (p_baseType p)).
Proof.
  intros (c & d1 & mpiData & Hloop & Hres & ->)%getDwarfData_Ok.
  apply getDwarfData_loop_items in Hloop as [Hvars Hparams].
  simpl. split.
  - intros m' v Hm' Hv.
    pose proof Hres as (mi & si & m & sf & fns' & _ & Hm & _ & _ & -> & _)
      %resolveMPIDebugInfo_Ok.
    simpl in Hm'. apply list_elem_of_lookup_2 in Hm.
    apply elem_of_insert_cases in Hm' as [-> | Hm'].
    + by apply (Hvars m).
    + by apply (Hvars m').
  - intros m' f' p [i Hm']%list_elem_of_lookup_1 [k Hf']%list_elem_of_lookup_1 Hp.
    destruct (resolveMPIDebugInfo_functions _ _ _ i k m' f' Hres Hm' Hf')
      as (m & f & Hm & Hf & [[_ ->] | [_ ->]]);
      apply list_elem_of_lookup_2 in Hm; apply list_elem_of_lookup_2 in Hf;
      by apply (Hparams m f).
Qed.

Lemma getDwarfData_types_resolved_when_read_witness :
  getDwarfData (Some raw_with_types) = Ok idx_with_types ∧
  ∀ m v, m ∈ modules idx_with_types → v ∈ m_variables m →
    read_from (rd_entries raw_with_types) TagVariable (v_name v) (v_baseType v).
Proof.
  split; [vm_compute; reflexivity |].
  apply (getDwarfData_types_resolved_when_read raw_with_types idx_with_types).
  vm_compute; reflexivity.
Defined.

(** ** The walk on a frame that is not a multiple of the pointer size *)

Lemma slice_head frameData :
  ptrSize ≤ Z.of_nat (length frameData) →
  ∃ b0, slice frameData 0 ptrSize = Ok b0.
Proof.
  intros Hlen. unfold slice. rewrite decide_True by (unfold ptrSize in *; lia).
  by eexists.
Qed.

Lemma getStack_loop_unaligned_resolved fuel d mem sp bp fnStack frameData b fn :
  frame_size bp sp `mod` 8 ≠ 0 →
  PtracePeekData mem sp (frame_size bp sp) = Ok frameData →
  slice frameData 0 ptrSize = Ok b ∨ slice frameData ptrSize (2 * ptrSize) = Ok b →
  PCToFunc d (LittleEndian_Uint64 b) = Some fn →
  getStack_loop (S fuel) d mem sp bp fnStack = Some (Panic SliceOutOfRange).
Proof.
  intros Hmod Hpeek Hword Hfn. cbn [getStack_loop]. fold (frame_size bp sp).
  pose proof (frame_size_bounds bp sp) as [Hlo Hhi].
  rewrite Hpeek. apply PtracePeekData_length in Hpeek.
  assert (Z.of_nat (length frameData) = frame_size bp sp) as Hlen by lia.
  destruct (frame_offsets_unaligned (frame_size bp sp) Hlo Hmod) as [Hal Hout].
  pose proof (getStack_frame_unaligned _ frameData (frame_size bp sp) bp
                Hmod Hlen Hal Hout) as Hframe.
  destruct (slice_head frameData) as [b0 Hb0]; [unfold ptrSize; lia |].
  rewrite Hb0.
  destruct (PCToFunc d (LittleEndian_Uint64 b0)) as [fn0|] eqn:Hfn0.
  - by rewrite Hframe.
  - destruct Hword as [Hb | Hb]; [congruence |].
    rewrite Hb. simpl. rewrite Hfn. by rewrite Hframe.
Qed.

(** C6.  The walk does not always end by one of its two [break]s.  The check
    of the frame size lets through every size from 9 to 1024, also those that
    are not a multiple of 8, and the scan of the frame then slices 8 bytes at
    the offsets 0, 8, 16, ... until one slice passes the end of the frame.
    With RSP at 0x7fffffffef00, RBP four bytes above it and a return address
    into [f] on top of the stack, the frame has 12 bytes: the twelve bytes
    are read, the first word resolves to [f], and the scan panics on
    [frameData[8:16]].  The same holds for every frame whose size is not a
    multiple of 8 and whose first or second word resolves to a function. *)
Theorem getStack_crashes_on_unaligned_frame :
  getDwarfData (Some raw_frames) = Ok idx_frames ∧
  frame_size (Rbp regs_unaligned) (Rsp regs_unaligned) = 12 ∧
  PtracePeekData mem_frames (Rsp regs_unaligned) 12
    = Ok [150; 16; 64; 0; 0; 0; 0; 0; 0; 0; 0; 0] ∧
  LittleEndian_Uint64 [150; 16; 64; 0; 0; 0; 0; 0] = 4198550 ∧
  deref_func idx_frames (PCToFunc idx_frames 4198550)
    = Ok (sample_func "f" 1 7 4198500 4198600) ∧
  (∀ fuel, getStack (S fuel) idx_frames mem_frames regs_unaligned
           = Some (Panic SliceOutOfRange)) ∧
  (∀ fuel d mem sp bp fnStack frameData b fn,
     frame_size bp sp `mod` 8 ≠ 0 →
     PtracePeekData mem sp (frame_size bp sp) = Ok frameData →
     slice frameData 0 ptrSize = Ok b ∨ slice frameData ptrSize (2 * ptrSize) = Ok b →
     PCToFunc d (LittleEndian_Uint64 b) = Some fn →
     getStack_loop (S fuel) d mem sp bp fnStack = Some (Panic SliceOutOfRange)).
Proof.
  split_and!.
  - vm_compute. reflexivity.
  - vm_compute. reflexivity.
  - vm_compute. reflexivity.
  - vm_compute. reflexivity.
  - vm_compute. reflexivity.
  - intros fuel. unfold getStack.
    apply (getStack_loop_unaligned_resolved fuel idx_frames mem_frames _ _ _
             [150; 16; 64; 0; 0; 0; 0; 0; 0; 0; 0; 0]
             [150; 16; 64; 0; 0; 0; 0; 0] (0%nat, 1%nat)).
    + vm_compute. discriminate.
    + vm_compute. reflexivity.
    + left. vm_compute. reflexivity.
    + vm_compute. reflexivity.
  - intros. by eapply getStack_loop_unaligned_resolved.
Qed.

(** ** The walk ends *)

Lemma getStack_frame_Panic offsets frameData frameSize bp p :
  getStack_frame offsets frameData frameSize bp = Panic p → p = SliceOutOfRange.
Proof.
  induction offsets as [|o offsets IH]; simpl; [done |].
  destruct (slice frameData o (o + ptrSize)) as [content|q] eqn:Hs; simpl.
  - case_decide; [done | apply IH].
  - apply slice_Panic in Hs as ->. by intros [= <-].
Qed.

Lemma fn_is_main_resolved d pc fn :
  PCToFunc d pc = Some fn → ∃ b, fn_is_main d (Some fn) = Ok b.
Proof.
  destruct fn as [mi fi]. intros (f & Hf & _)%PCToFunc_deref.
  unfold fn_is_main. rewrite Hf. simpl. by eexists.
Qed.

Lemma getStack_loop_outcomes fuel d mem sp bp fnStack r :
  getStack_loop fuel d mem sp bp fnStack = Some r →
  r = Panic ExplicitPanic ∨ r = Panic SliceOutOfRange ∨ ∃ stack, r = Ok stack.
Proof.
  revert sp bp fnStack. induction fuel as [|fuel IH]; intros sp bp fnStack; [done |].
  cbn [getStack_loop]. fold (frame_size bp sp).
  destruct (PtracePeekData mem sp (frame_size bp sp)) as [frameData|p] eqn:Hpeek;
    [|apply PtracePeekData_Panic in Hpeek as ->; intros [= <-]; by left].
  destruct (slice frameData 0 ptrSize) as [b0|p] eqn:Hs0;
    [|apply slice_Panic in Hs0 as ->; intros [= <-]; by right; left].
  assert (∀ pc fn, PCToFunc d pc = Some fn →
    match getStack_frame (frame_offsets (frame_size bp sp)) frameData
            (frame_size bp sp) bp with
    | Ok basePointer' =>
        match fn_is_main d (Some fn) with
        | Ok true => Some (Ok (fnStack ++ [Some fn]))
        | Ok false =>
            getStack_loop fuel d mem (wrap_u64 (sp + frame_size bp sp))
              basePointer' (fnStack ++ [Some fn])
        | Panic p => Some (Panic p)
        end
    | Panic p => Some (Panic p)
    end = Some r →
    r = Panic ExplicitPanic ∨ r = Panic SliceOutOfRange ∨ ∃ stack, r = Ok stack)
    as Hrest.
  { intros pc fn Hfn.
    destruct (getStack_frame _ _ _ _) as [bp'|p] eqn:Hframe;
      [|apply getStack_frame_Panic in Hframe as ->; intros [= <-]; by right; left].
    destruct (fn_is_main_resolved d pc fn Hfn) as [[|] ->].
    - intros [= <-]. right; right. by eexists.
    - apply IH. }
  destruct (PCToFunc d (LittleEndian_Uint64 b0)) as [fn|] eqn:Hfn0.
  - by apply (Hrest _ fn Hfn0).
  - destruct (slice frameData ptrSize (2 * ptrSize)) as [b1|p] eqn:Hs1; simpl;
      [|apply slice_Panic in Hs1 as ->; intros [= <-]; by right; left].
    destruct (PCToFunc d (LittleEndian_Uint64 b1)) as [fn|] eqn:Hfn1.
    + by apply (Hrest _ fn Hfn1).
    + intros [= <-]. right; right. by eexists.
Qed.

(** X21.  The walk ends on every tracee whose memory is unreadable from some
    address on.  Every turn of the loop reads at the stack pointer and
    advances it by the frame size, 9 to 1024 bytes, so [getStack] takes at
    most [limit - RSP + 1] turns.  It then returns the stack, which starts
    with the function of RIP and holds [main] only as its last function, or
    it aborts on a failed read, or it panics on a slice past a frame; it
    never dereferences a nil function. *)
Theorem getStack_ends_on_bounded_stack (d : dwarfData) (mem : memory)
    (regs : PtraceRegs) (limit : Z) :
  0 ≤ Rsp regs ∧ Rsp regs < 2 ^ 64 → limit ≤ 2 ^ 64 - 1024 →
  unreadable_from mem limit →
  ∃ r, getStack (S (Z.to_nat (limit - Rsp regs))) d mem regs = Some r ∧
       (r = Panic ExplicitPanic ∨ r = Panic SliceOutOfRange ∨
        ∃ callers, r = Ok (PCToFunc d (Rip regs) :: callers) ∧
                   callers_up_to_main d callers).
Proof.
  intros Hsp Hlimit Hmem. unfold getStack.
  destruct (getStack_loop_bounded d mem limit (Z.to_nat (limit - Rsp regs))
              (Rsp regs) (Rbp regs) [PCToFunc d (Rip regs)] Hlimit Hmem Hsp)
    as [r Hr]; [lia |].
  exists r. split; [done |].
  destruct (getStack_loop_outcomes _ _ _ _ _ _ _ Hr) as [-> | [-> | [stack ->]]];
    [by left | by right; left |].
  right; right.
  apply getStack_loop_callers in Hr as (callers & -> & Hcallers). by exists callers.
Qed.

Lemma getStack_ends_on_bounded_stack_witness :
  (0 ≤ Rsp regs_unaligned ∧ Rsp regs_unaligned < 2 ^ 64) ∧
  140737488351232 ≤ 2 ^ 64 - 1024 ∧
  unreadable_from mem_frames 140737488351232 ∧
  ∃ r, getStack (S (Z.to_nat (140737488351232 - Rsp regs_unaligned)))
         idx_frames mem_frames regs_unaligned = Some r.
Proof.
  assert (unreadable_from mem_frames 140737488351232) as Hmem.
  { intros a Ha. unfold mem_frames. by rewrite decide_False by lia. }
  split_and!; [simpl; lia | simpl; lia | lia | done |].
  destruct (getStack_ends_on_bounded_stack idx_frames mem_frames regs_unaligned
              140737488351232) as (r & Hr & _); [simpl; lia | lia | done |].
  by exists r.
Defined.

(** ** The walk on a frame that is a multiple of the pointer size *)

Lemma frame_offsets_aligned frameSize o :
  0 ≤ frameSize → frameSize `mod` 8 = 0 → o ∈ frame_offsets frameSize →
  0 ≤ o ∧ o + ptrSize ≤ frameSize.
Proof.
  unfold frame_offsets, ptrSize. intros Hpos Hmod.
  intros (k & -> & Hk)%list_elem_of_fmap. apply elem_of_seqZ in Hk.
  assert (frameSize = 8 * (frameSize `div` 8)) as Hfs
    by (pose proof (Z.div_mod frameSize 8); lia).
  assert ((frameSize + 8 - 1) `div` 8 = frameSize `div` 8) as Hceil.
  { rewrite Hfs at 1. replace (8 * (frameSize `div` 8) + 8 - 1)
      with ((frameSize `div` 8) * 8 + 7) by lia.
    rewrite Z.div_add_l by lia. replace (7 `div` 8) with 0 by done. lia. }
  rewrite Hceil in Hk. lia.
Qed.

Lemma getStack_frame_in_bounds offsets frameData frameSize bp :
  (∀ o, o ∈ offsets → 0 ≤ o ∧ o + ptrSize ≤ Z.of_nat (length frameData)) →
  ∃ bp', getStack_frame offsets frameData frameSize bp = Ok bp'.
Proof.
  induction offsets as [|o offsets IH]; intros Hb; simpl; [by eexists |].
  destruct (Hb o (list_elem_of_here _ _)) as [Hlo Hhi].
  unfold slice at 1. rewrite decide_True by (unfold ptrSize in *; lia). simpl.
  case_decide; [by eexists |].
  apply IH. intros o' Ho'. apply Hb. by apply list_elem_of_further.
Qed.

Lemma slice_second frameData :
  2 * ptrSize ≤ Z.of_nat (length frameData) →
  ∃ b1, slice frameData ptrSize (2 * ptrSize) = Ok b1.
Proof.
  intros Hlen. unfold slice. rewrite decide_True by (unfold ptrSize in *; lia).
  by eexists.
Qed.

(** X22.  A turn of the walk on a frame whose size is a multiple of 8 never
    panics on a slice: when the frame is readable both of its first two
    words and every slot of the scan lie inside it, so the turn returns the
    stack, goes on to the next frame, or aborts on the failed read.  The
    slice panic of the walk comes from the other frames alone. *)
Theorem getStack_aligned_frame_is_safe (d : dwarfData) (mem : memory)
    (sp bp : Z) (fnStack : list funcPtr) :
  frame_size bp sp `mod` 8 = 0 →
  getStack_loop 1 d mem sp bp fnStack = Some (Panic ExplicitPanic) ∨
  getStack_loop 1 d mem sp bp fnStack = None ∨
  ∃ stack, getStack_loop 1 d mem sp bp fnStack = Some (Ok stack).
Proof.
  intros Hmod. cbn [getStack_loop]. fold (frame_size bp sp).
  pose proof (frame_size_bounds bp sp) as [Hlo Hhi].
  assert (16 ≤ frame_size bp sp) as H16.
  { pose proof (Z.div_mod (frame_size bp sp) 8 ltac:(lia)) as Hdm. lia. }
  destruct (PtracePeekData mem sp (frame_size bp sp)) as [frameData|p] eqn:Hpeek;
    [|apply PtracePeekData_Panic in Hpeek as ->; by left].
  apply PtracePeekData_length in Hpeek.
  assert (Z.of_nat (length frameData) = frame_size bp sp) as Hlen by lia.
  destruct (slice_head frameData) as [b0 ->]; [unfold ptrSize; lia |].
  destruct (getStack_frame_in_bounds (frame_offsets (frame_size bp sp)) frameData
              (frame_size bp sp) bp) as [bp' Hframe].
  { intros o Ho. rewrite Hlen. apply frame_offsets_aligned; [lia | done | done]. }
  destruct (PCToFunc d (LittleEndian_Uint64 b0)) as [fn|] eqn:Hfn0.
  - rewrite Hframe.
    destruct (fn_is_main_resolved d _ fn Hfn0) as [b Hb]. rewrite Hb.
    destruct b; [right; right; by eexists | by right; left].
  - destruct (slice_second frameData) as [b1 ->]; [unfold ptrSize; lia |].
    cbn [mbind result_bind].
    destruct (PCToFunc d (LittleEndian_Uint64 b1)) as [fn|] eqn:Hfn1.
    + rewrite Hframe.
      destruct (fn_is_main_resolved d _ fn Hfn1) as [b Hb]. rewrite Hb.
      destruct b; [right; right; by eexists | by right; left].
    + right; right. by eexists.
Qed.

Lemma getStack_aligned_frame_is_safe_witness :
  frame_size 140737488350984 140737488350976 `mod` 8 = 0 ∧
  (getStack_loop 1 idx_frames mem_frames 140737488350976 140737488350984 []
     = Some (Panic ExplicitPanic) ∨
   getStack_loop 1 idx_frames mem_frames 140737488350976 140737488350984 [] = None ∨
   ∃ stack,
     getStack_loop 1 idx_frames mem_frames 140737488350976 140737488350984 []
       = Some (Ok stack)).
Proof.
  split; [vm_compute; reflexivity |].
  apply (getStack_aligned_frame_is_safe idx_frames mem_frames
           140737488350976 140737488350984 []).
  vm_compute; reflexivity.
Defined.
